(** * record-replay: the substate task pool (research/substate_task.go)

    A shallow embedding of the block-segment parser, the per-block executor
    and the segment scheduler of [research/substate_task.go], with the
    properties of its specification stated and proved over the embedding.

    Conventions.
    - [uint64] and [int64] values are integers of [Z] with the wrap-around
      of Go's arithmetic written out ([u64], [i64]).
    - Go strings are byte sequences: [string] at the interface, [list ascii]
      inside.
    - A Go function returning [(T, error)] returns a pair of options here:
      [None] is [nil].
    - Goroutines and channels are a transition system: one atomic action of
      one goroutine per step, channels as bounded FIFO queues. *)

From Stdlib Require Import ZArith Ascii String Floats.PrimFloat Uint63.
From stdpp Require Import gmap list strings.

Open Scope Z_scope.

(* ===================================================================== *)
(** * Machine integers *)
(* ===================================================================== *)

Module Int.

Definition max_uint64 : Z := 18446744073709551615.
Definition max_int64 : Z := 9223372036854775807.

(** Wrap-around of [uint64] arithmetic. *)
Definition u64 (z : Z) : Z := z mod 2 ^ 64.

(** Wrap-around of [int64] arithmetic (two's complement). *)
Definition i64 (z : Z) : Z := (z + 2 ^ 63) mod 2 ^ 64 - 2 ^ 63.

Definition is_u64 (z : Z) : Prop := 0 <= z <= max_uint64.
Definition is_i64 (z : Z) : Prop := - 2 ^ 63 <= z <= max_int64.

Lemma u64_range z : is_u64 (u64 z).
Proof.
  unfold is_u64, u64, max_uint64.
  pose proof (Z.mod_pos_bound z (2 ^ 64) ltac:(lia)). lia.
Qed.

Lemma u64_id z : is_u64 z -> u64 z = z.
Proof. unfold is_u64, u64, max_uint64. intros. apply Z.mod_small. lia. Qed.

Lemma i64_range z : is_i64 (i64 z).
Proof.
  unfold is_i64, i64, max_int64.
  pose proof (Z.mod_pos_bound (z + 2 ^ 63) (2 ^ 64) ltac:(lia)). lia.
Qed.

Lemma i64_id z : is_i64 z -> i64 z = z.
Proof.
  unfold is_i64, i64, max_int64. intros.
  rewrite Z.mod_small by lia. lia.
Qed.

Lemma i64_add_l a b : i64 (i64 a + b) = i64 (a + b).
Proof.
  unfold i64.
  replace ((a + 2 ^ 63) mod 2 ^ 64 - 2 ^ 63 + b + 2 ^ 63)
    with ((a + 2 ^ 63) mod 2 ^ 64 + b) by lia.
  replace (a + b + 2 ^ 63) with ((a + 2 ^ 63) + b) by lia.
  rewrite Zplus_mod_idemp_l. reflexivity.
Qed.

Lemma i64_add_r a b : i64 (a + i64 b) = i64 (a + b).
Proof. rewrite (Z.add_comm a), i64_add_l. f_equal. lia. Qed.

End Int.

(* ===================================================================== *)
(** * Bytes and digit strings *)
(* ===================================================================== *)

Module Bytes.

Definition code (c : ascii) : Z := Z.of_N (N_of_ascii c).

(** ['0' <= c && c <= '9'] *)
Definition is_digit (c : ascii) : bool := (48 <=? code c) && (code c <=? 57).

(** The class [[0-9_]]. *)
Definition is_digit_or_underscore (c : ascii) : bool :=
  is_digit c || Ascii.eqb c "_".

(** The class [[kM]]. *)
Definition is_siunit (c : ascii) : bool := Ascii.eqb c "k" || Ascii.eqb c "M".

(** The alternation [(-|~)]. *)
Definition is_separator (c : ascii) : bool := Ascii.eqb c "-" || Ascii.eqb c "~".

(** [strings.ReplaceAll(s, "_", "")]: every underscore byte is dropped. *)
Definition remove_underscores (s : list ascii) : list ascii :=
  List.filter (fun c => negb (Ascii.eqb c "_")) s.

(** The number a digit string denotes, most significant digit first. *)
Definition digits_value (s : list ascii) : Z :=
  fold_left (fun n c => 10 * n + (code c - 48)) s 0.

End Bytes.

(* ===================================================================== *)
(** * strconv.ParseUint(s, 10, 64) *)
(* ===================================================================== *)

Module Strconv.
Import Int Bytes.

(** [*strconv.NumError]: only its [Err] field matters here. *)
Inductive NumError : Type :=
| ErrSyntax
| ErrRange.

(** The smallest number such that [cutoff * 10 > maxUint64]. *)
Definition cutoff : Z := max_uint64 / 10 + 1.

(** The digit loop of [ParseUint] for base 10 and bit size 64, with [n]
    the accumulator: a byte that is no decimal digit is a syntax error, an
    accumulator that would pass [maxUint64] a range error. *)
Fixpoint parse_loop (s : list ascii) (n : Z) : Z * option NumError :=
  match s with
  | [] => (n, None)
  | c :: s' =>
      if negb (is_digit c) then (0, Some ErrSyntax)
      else
        let d := code c - 48 in
        if cutoff <=? n then (max_uint64, Some ErrRange)
        else
          let n := u64 (n * 10) in
          let n1 := u64 (n + d) in
          if (n1 <? n) || (max_uint64 <? n1) then (max_uint64, Some ErrRange)
          else parse_loop s' n1
  end.

Definition ParseUint (s : list ascii) : Z * option NumError :=
  match s with
  | [] => (0, Some ErrSyntax)
  | _ => parse_loop s 0
  end.

End Strconv.

(* ===================================================================== *)
(** * Regular expressions with submatches (package regexp) *)
(* ===================================================================== *)

Module Regexp.

(** The fragment of the syntax that the block-segment pattern uses. A star
    is applied to character classes only. *)
Inductive re : Type :=
| Bol                                  (* ^ *)
| Eol                                  (* $ *)
| Class (p : ascii -> bool)            (* [...] or a literal *)
| Seq (r1 r2 : re)                     (* r1 r2 *)
| Alt (r1 r2 : re)                     (* r1|r2 *)
| Star (p : ascii -> bool)             (* [...]*, greedy *)
| Opt (r : re)                         (* r?, greedy *)
| Group (name : option string) (r : re). (* (r) and (?P<name>r) *)

(** The text captured by each named group that took part in the match. *)
Abbreviation captures := (gmap string (list ascii)).

Section Matcher.

(** The whole text under search: positions are suffixes of it. *)
Variable input : list ascii.

Definition at_start (s : list ascii) : bool :=
  Nat.eqb (length s) (length input).

(** Greedy iteration of a class: the longest run first, then shorter ones. *)
Fixpoint star (p : ascii -> bool) (k : list ascii -> option captures)
    (s : list ascii) : option captures :=
  match s with
  | c :: s' =>
      if p c then
        match star p k s' with
        | Some r => Some r
        | None => k s
        end
      else k s
  | [] => k []
  end.

(** Leftmost-first matching, as a backtracking search would find it: [k]
    is what remains to be matched after [r]. *)
Fixpoint run (r : re) (s : list ascii) (caps : captures)
    (k : list ascii -> captures -> option captures) : option captures :=
  match r with
  | Bol => if at_start s then k s caps else None
  | Eol => match s with [] => k s caps | _ :: _ => None end
  | Class p =>
      match s with
      | c :: s' => if p c then k s' caps else None
      | [] => None
      end
  | Seq r1 r2 => run r1 s caps (fun s' caps' => run r2 s' caps' k)
  | Alt r1 r2 =>
      match run r1 s caps k with
      | Some res => Some res
      | None => run r2 s caps k
      end
  | Star p => star p (fun s' => k s' caps) s
  | Opt r1 =>
      match run r1 s caps k with
      | Some res => Some res
      | None => k s caps
      end
  | Group name r1 =>
      run r1 s caps (fun s' caps' =>
        let text := take (length s - length s') s in
        k s' (match name with
              | Some n => <[n := text]> caps'
              | None => caps'
              end))
  end.

(** An unanchored search: the match that starts leftmost. *)
Fixpoint search (r : re) (s : list ascii) : option captures :=
  match run r s ∅ (fun _ caps => Some caps) with
  | Some res => Some res
  | None =>
      match s with
      | [] => None
      | _ :: s' => search r s'
      end
  end.

End Matcher.

(** [re.MatchString(s)] *)
Definition MatchString (r : re) (s : list ascii) : bool :=
  bool_decide (is_Some (search s r s)).

(** [re.FindStringSubmatch(s)[re.SubexpIndex(name)]]: the text of the
    group, empty when the group took no part in the match. *)
Definition submatch (r : re) (s : list ascii) (name : string) : list ascii :=
  match search s r s with
  | Some caps => default [] (caps !! name)
  | None => []
  end.

End Regexp.

(* ===================================================================== *)
(** * Block segments and their parser *)
(* ===================================================================== *)

Import Int Bytes Strconv Regexp.

(** [type BlockSegment struct { First, Last uint64 }] *)
Record BlockSegment : Type := { First : Z; Last : Z }.

Definition NewBlockSegment (first last : Z) : BlockSegment :=
  {| First := first; Last := last |}.

(** The errors of the parser, one constructor per [fmt.Errorf] of
    [ParseBlockSegment], each with the values its message prints. *)
Inductive ParseError : Type :=
| ErrInvalidString (s : string)            (* invalid block segment string: %q *)
| ErrInvalidFirst (e : NumError)           (* invalid block segment first: %s *)
| ErrInvalidLast (e : NumError)            (* invalid block segment last: %s *)
| ErrFirstLargerThanLast (first last : Z). (* block segment first is larger than last: %v-%v *)

(** [[0-9][0-9_]*], written [N] below. *)
Definition number_re : re := Seq (Class is_digit) (Star is_digit_or_underscore).

(** The pattern of the source:
    [^(?P<first>N)((-|~)(?P<last>N)(?P<siunit>[kM]?))?$]. *)
Definition segment_re : re :=
  Seq Bol
    (Seq (Group (Some "first"%string) number_re)
      (Seq
        (Opt (Group None
          (Seq (Group None (Alt (Class (Ascii.eqb "-")) (Class (Ascii.eqb "~"))))
            (Seq (Group (Some "last"%string) number_re)
              (Group (Some "siunit"%string) (Opt (Class is_siunit)))))))
        Eol)).

Definition ParseBlockSegment (s : string)
    : option BlockSegment * option ParseError :=
  let text := list_ascii_of_string s in
  if negb (MatchString segment_re text) then (None, Some (ErrInvalidString s))
  else
    let first := remove_underscores (submatch segment_re text "first") in
    match ParseUint first with
    | (_, Some e) => (None, Some (ErrInvalidFirst e))
    | (seg_first, None) =>
        let last := remove_underscores (submatch segment_re text "last") in
        match (if Nat.eqb (length last) 0 then (seg_first, None)
               else ParseUint last) with
        | (_, Some e) => (None, Some (ErrInvalidLast e))
        | (seg_last, None) =>
            let siunit := submatch segment_re text "siunit" in
            let '(seg_first, seg_last) :=
              if decide (siunit = ["k"%char]) then
                (u64 (u64 (seg_first * 1000) + 1), u64 (seg_last * 1000))
              else if decide (siunit = ["M"%char]) then
                (u64 (u64 (seg_first * 1000000) + 1), u64 (seg_last * 1000000))
              else (seg_first, seg_last) in
            if seg_first >? seg_last
            then (None, Some (ErrFirstLargerThanLast seg_first seg_last))
            else (Some {| First := seg_first; Last := seg_last |}, None)
        end
    end.

(** [strings.Split(s, sep)] for a separator of one byte: the pieces between
    the separators, one more than there are separators. *)
Fixpoint Split (s : string) (sep : ascii) : list string :=
  match s with
  | EmptyString => [EmptyString]
  | String c s' =>
      if Ascii.eqb c sep then EmptyString :: Split s' sep
      else
        match Split s' sep with
        | piece :: pieces => String c piece :: pieces
        | [] => [String c EmptyString]
        end
  end.

(** The loop of [ParseBlockSegmentList] from index [i] on: [br] is the
    slice of segment pointers, [nil] where nothing was stored yet. *)
Fixpoint parse_pieces (lxs : list string) (i : nat)
    (br : list (option BlockSegment))
    : option (list (option BlockSegment)) * option ParseError :=
  match lxs with
  | [] => (Some br, None)
  | lx :: lxs' =>
      let '(seg, err) := ParseBlockSegment lx in
      let br := <[i := seg]> br in
      match err with
      | Some e => (None, Some e)
      | None => parse_pieces lxs' (S i) br
      end
  end.

Definition ParseBlockSegmentList (s : string)
    : option (list (option BlockSegment)) * option ParseError :=
  let lxs := Split s "," in
  let br := replicate (length lxs) None in
  parse_pieces lxs 0%nat br.

(* ===================================================================== *)
(** * The parser: what the pattern accepts *)
(* ===================================================================== *)

Module Grammar.

(** The longest prefix of [s] inside a class, and what follows it. *)
Fixpoint take_while (p : ascii -> bool) (s : list ascii) : list ascii :=
  match s with
  | c :: s' => if p c then c :: take_while p s' else []
  | [] => []
  end.

Fixpoint drop_while (p : ascii -> bool) (s : list ascii) : list ascii :=
  match s with
  | c :: s' => if p c then drop_while p s' else s
  | [] => []
  end.

(** A number of the pattern at the head of [s]: a digit, then the longest
    run of digits and underscores. *)
Definition scan_number (s : list ascii) : option (list ascii * list ascii) :=
  match s with
  | d :: s' =>
      if is_digit d
      then Some (d :: take_while is_digit_or_underscore s',
                 drop_while is_digit_or_underscore s')
      else None
  | [] => None
  end.

(** A deterministic reading of the pattern: the texts of the groups
    [first], [last] and [siunit], when [s] matches. *)
Definition scan_segment (s : list ascii)
    : option (list ascii * list ascii * list ascii) :=
  match scan_number s with
  | None => None
  | Some (f, []) => Some (f, [], [])
  | Some (f, sep :: rest) =>
      if is_separator sep then
        match scan_number rest with
        | None => None
        | Some (l, []) => Some (f, l, [])
        | Some (l, [u]) => if is_siunit u then Some (f, l, [u]) else None
        | Some (l, _ :: _ :: _) => None
        end
      else None
  end.

(** The grammar, declaratively: [<first>[(-|~)<last><unit>]]. *)
Definition is_number (t : list ascii) : Prop :=
  exists d r, t = d :: r /\ is_digit d = true /\
    forallb is_digit_or_underscore r = true.

Definition is_unit (u : list ascii) : Prop :=
  u = [] \/ exists c, u = [c] /\ is_siunit c = true.

Inductive segment_syntax : list ascii -> list ascii -> list ascii -> list ascii -> Prop :=
| syntax_single f :
    is_number f -> segment_syntax f f [] []
| syntax_range f sep l u :
    is_number f -> is_separator sep = true -> is_number l -> is_unit u ->
    segment_syntax (f ++ sep :: l ++ u) f l u.

Lemma take_drop_while p s : take_while p s ++ drop_while p s = s.
Proof. induction s as [|c s IH]; simpl; [done|]. destruct (p c); simpl; congruence. Qed.

Lemma take_while_forallb p s : forallb p (take_while p s) = true.
Proof. induction s as [|c s IH]; simpl; [done|]. destruct (p c) eqn:E; simpl; [rewrite E|]; done. Qed.

Lemma drop_while_head p s c s' : drop_while p s = c :: s' -> p c = false.
Proof.
  induction s as [|a s IH]; simpl; [done|].
  destruct (p a) eqn:E; [done|]. intros [= -> _]. done.
Qed.

Lemma take_while_app p r s :
  forallb p r = true -> (forall c s', s = c :: s' -> p c = false) ->
  take_while p (r ++ s) = r /\ drop_while p (r ++ s) = s.
Proof.
  intros Hr Hs. induction r as [|a r IH]; simpl in *.
  - destruct s as [|c s']; simpl; [done|]. rewrite (Hs c s' eq_refl). done.
  - apply andb_true_iff in Hr as [-> Hr]. destruct (IH Hr) as [-> ->]. done.
Qed.

Lemma take_length_drop_while p s :
  take (length s - length (drop_while p s)) s = take_while p s.
Proof.
  rewrite <- (take_drop_while p s) at 1 3.
  rewrite length_app.
  replace (length (take_while p s) + length (drop_while p s) - length (drop_while p s))%nat
    with (length (take_while p s)) by lia.
  by rewrite take_app_length.
Qed.

(** A greedy star never gives a byte back when what follows it cannot
    start with a byte of the class. *)
Lemma star_greedy p k s :
  (forall c s', p c = true -> k (c :: s') = None) ->
  star p k s = k (drop_while p s).
Proof.
  intros Hk. induction s as [|c s IH]; simpl; [done|].
  destruct (p c) eqn:E; [|done].
  rewrite IH. destruct (k (drop_while p s)) eqn:Ek; [done|]. by apply Hk.
Qed.

Lemma class_not_separator c : is_digit_or_underscore c = true -> is_separator c = false.
Proof.
  unfold is_digit_or_underscore, is_separator, is_digit, code.
  destruct c as [[] [] [] [] [] [] [] []]; vm_compute; intros; congruence.
Qed.
Lemma run_number input s caps k :
  (forall c s' caps', is_digit_or_underscore c = true -> k (c :: s') caps' = None) ->
  run input number_re s caps k =
  match scan_number s with
  | Some (_, rest) => k rest caps
  | None => None
  end.
Proof.
  intros Hk. unfold number_re, scan_number. simpl.
  destruct s as [|d s]; [done|]. destruct (is_digit d); [|done].
  apply star_greedy. intros; by apply Hk.
Qed.
Definition captures_of (r : list ascii * list ascii * list ascii) : captures :=
  let '(f, l, u) := r in
  match l with
  | [] => <["first"%string := f]> ∅
  | _ :: _ => <["siunit"%string := u]> (<["last"%string := l]> (<["first"%string := f]> ∅))
  end.
Lemma class_not_siunit c : is_digit_or_underscore c = true -> is_siunit c = false.
Proof.
  destruct c as [[] [] [] [] [] [] [] []]; vm_compute; intros; congruence.
Qed.
Lemma scan_number_take s f rest :
  scan_number s = Some (f, rest) -> take (length s - length rest) s = f /\ f ++ rest = s.
Proof.
  unfold scan_number. destruct s as [|d s]; [done|]. destruct (is_digit d); [|done].
  intros [= <- <-]. split.
  - pose proof (take_length_drop_while is_digit_or_underscore s) as H.
    assert (length (drop_while is_digit_or_underscore s) <= length s)%nat as Hle.
    { rewrite <- (take_drop_while is_digit_or_underscore s) at 2. rewrite length_app. lia. }
    simpl length. replace (S (length s) - length (drop_while is_digit_or_underscore s))%nat
      with (S (length s - length (drop_while is_digit_or_underscore s))) by lia.
    simpl. by rewrite H.
  - simpl. by rewrite take_drop_while.
Qed.
Lemma scan_number_cons s l rest : scan_number s = Some (l, rest) -> exists d r, l = d :: r.
Proof. unfold scan_number. destruct s as [|d s]; [done|]. destruct (is_digit d); [|done]. intros [= <- _]. eauto. Qed.
Lemma run_segment s :
  run s segment_re s ∅ (fun _ caps => Some caps) = captures_of <$> scan_segment s.
Proof.
  unfold segment_re. cbn [run]. unfold at_start. rewrite Nat.eqb_refl.
  rewrite run_number.
  - unfold scan_segment. destruct (scan_number s) as [[f rest]|] eqn:Hf; [|done].
    apply scan_number_take in Hf as [-> _].
    destruct rest as [|sep rest]; [done|].
    rewrite !run_number by (intros c s' caps' Hc; by rewrite (class_not_siunit c Hc)).
    unfold is_separator. rewrite !(Ascii.eqb_sym sep).
    destruct (scan_number rest) as [[l rest2]|] eqn:Hl.
    + destruct (scan_number_cons _ _ _ Hl) as (d & r & ->).
      apply scan_number_take in Hl as [-> _].
      destruct (Ascii.eqb "-" sep), (Ascii.eqb "~" sep), rest2 as [|u [|? ?]];
        cbn [orb fmap option_fmap option_map captures_of]; try done;
        destruct (is_siunit u); try done.
    + destruct (Ascii.eqb "-" sep), (Ascii.eqb "~" sep); done.
  - intros c s' caps' Hc. cbn [run].
    pose proof (class_not_separator c Hc) as Hs. unfold is_separator in Hs.
    apply orb_false_iff in Hs as [H1 H2].
    rewrite (Ascii.eqb_sym "-" c), (Ascii.eqb_sym "~" c), H1, H2. done.
Qed.
Lemma search_tail input r s :
  (length s < length input)%nat -> search input (Seq Bol r) s = None.
Proof.
  induction s as [|c s IH]; intros Hlen; cbn [search run]; unfold at_start.
  - destruct (Nat.eqb_spec (length (@nil ascii)) (length input)); [simpl in *; lia|done].
  - destruct (Nat.eqb_spec (length (c :: s)) (length input)); [lia|].
    apply IH. simpl in Hlen. lia.
Qed.
Lemma search_segment s :
  search s segment_re s = captures_of <$> scan_segment s.
Proof.
  destruct s as [|c s].
  - done.
  - cbn [search]. rewrite run_segment.
    destruct (scan_segment (c :: s)); [done|].
    apply search_tail. simpl. lia.
Qed.
Lemma separator_not_class c : is_separator c = true -> is_digit_or_underscore c = false.
Proof. destruct c as [[] [] [] [] [] [] [] []]; vm_compute; intros; congruence. Qed.
Lemma siunit_not_class c : is_siunit c = true -> is_digit_or_underscore c = false.
Proof. destruct c as [[] [] [] [] [] [] [] []]; vm_compute; intros; congruence. Qed.

Lemma scan_number_is_number s f rest :
  scan_number s = Some (f, rest) -> is_number f /\ s = f ++ rest.
Proof.
  unfold scan_number. destruct s as [|d s]; [done|]. destruct (is_digit d) eqn:E; [|done].
  intros [= <- <-]. split.
  - exists d, (take_while is_digit_or_underscore s). by rewrite take_while_forallb.
  - simpl. by rewrite take_drop_while.
Qed.

Lemma scan_number_app f rest :
  is_number f -> (forall c s', rest = c :: s' -> is_digit_or_underscore c = false) ->
  scan_number (f ++ rest) = Some (f, rest).
Proof.
  intros (d & r & -> & Hd & Hr) Hrest. simpl. rewrite Hd.
  by destruct (take_while_app is_digit_or_underscore r rest Hr Hrest) as [-> ->].
Qed.

Lemma scan_segment_spec s f l u :
  scan_segment s = Some (f, l, u) <-> segment_syntax s f l u.
Proof.
  split.
  - unfold scan_segment. destruct (scan_number s) as [[f0 rest]|] eqn:Hf; [|done].
    apply scan_number_is_number in Hf as [Hf ->].
    destruct rest as [|sep rest].
    + intros [= <- <- <-]. rewrite app_nil_r. by constructor.
    + destruct (is_separator sep) eqn:Hsep; [|done].
      destruct (scan_number rest) as [[l0 rest2]|] eqn:Hl; [|done].
      apply scan_number_is_number in Hl as [Hl ->].
      destruct rest2 as [|c [|? ?]]; [| |done].
      * intros [= <- <- <-]. constructor; try done. by left.
      * destruct (is_siunit c) eqn:Hc; [|done]. intros [= <- <- <-].
        constructor; try done. right; eauto.
  - intros [f0 Hf | f0 sep l0 u0 Hf Hsep Hl Hu]; unfold scan_segment.
    + rewrite <- (app_nil_r f0) at 1. rewrite scan_number_app; done.
    + rewrite scan_number_app; [|done|].
      2:{ intros c s' [= <- _]. by apply separator_not_class. }
      rewrite Hsep. rewrite scan_number_app; [|done|].
      * destruct Hu as [-> | (c & -> & Hc)]; [done|]. by rewrite Hc.
      * destruct Hu as [-> | (c & -> & Hc)]; [done|].
        intros ? ? [= <- _]. by apply siunit_not_class.
Qed.
Definition value_from (n : Z) (s : list ascii) : Z :=
  fold_left (fun n c => 10 * n + (code c - 48)) s n.

Lemma is_digit_range c : is_digit c = true -> 0 <= code c - 48 <= 9.
Proof. unfold is_digit. intros H. apply andb_true_iff in H as [H1 H2]. lia. Qed.

Lemma value_from_mono s n : forallb is_digit s = true -> 0 <= n -> n <= value_from n s.
Proof.
  unfold value_from.
  revert n. induction s as [|c s IH]; intros n Hs Hn; simpl in *; [lia|].
  apply andb_true_iff in Hs as [Hc Hs]. apply is_digit_range in Hc.
  specialize (IH (10 * n + (code c - 48)) Hs ltac:(lia)). lia.
Qed.

Lemma parse_loop_spec s n :
  forallb is_digit s = true -> 0 <= n <= max_uint64 ->
  parse_loop s n =
    if value_from n s <=? max_uint64 then (value_from n s, None)
    else (max_uint64, Some ErrRange).
Proof.
  revert n. induction s as [|c s IH]; intros n Hs Hn.
  - simpl. destruct (Z.leb_spec n max_uint64); [done|lia].
  - simpl in Hs. apply andb_true_iff in Hs as [Hc Hs].
    cbn [parse_loop]. rewrite Hc. cbn [negb].
    pose proof (is_digit_range c Hc) as Hd.
    pose proof (value_from_mono s (10 * n + (code c - 48)) Hs ltac:(lia)) as Hmono.
    change (value_from n (c :: s)) with (value_from (10 * n + (code c - 48)) s).
    unfold cutoff, max_uint64 in *.
    destruct (Z.leb_spec (18446744073709551615 / 10 + 1) n) as [Hcut|Hcut].
    { destruct (Z.leb_spec (value_from (10 * n + (code c - 48)) s) 18446744073709551615); [|done].
      change (18446744073709551615 / 10 + 1) with 1844674407370955162 in Hcut. lia. }
    change (18446744073709551615 / 10 + 1) with 1844674407370955162 in Hcut.
    rewrite (u64_id (n * 10)) by (unfold is_u64, max_uint64; lia).
    destruct (Z.le_gt_cases (n * 10 + (code c - 48)) 18446744073709551615) as [Hfit|Hover].
    + rewrite (u64_id (n * 10 + _)) by (unfold is_u64, max_uint64; lia).
      destruct (Z.ltb_spec (n * 10 + (code c - 48)) (n * 10)); [lia|].
      destruct (Z.ltb_spec 18446744073709551615 (n * 10 + (code c - 48))); [lia|].
      cbn [orb]. rewrite IH by (try done; lia).
      replace (n * 10 + (code c - 48)) with (10 * n + (code c - 48)) by lia. done.
    + assert (u64 (n * 10 + (code c - 48)) = n * 10 + (code c - 48) - 2 ^ 64) as ->.
      { unfold u64. symmetry. apply (Z.mod_unique _ _ 1); lia. }
      destruct (Z.ltb_spec (n * 10 + (code c - 48) - 2 ^ 64) (n * 10)); [|lia].
      cbn [orb].
      destruct (Z.leb_spec (value_from (10 * n + (code c - 48)) s) 18446744073709551615); [lia|done].
Qed.

Lemma ParseUint_spec s :
  s <> [] -> forallb is_digit s = true ->
  ParseUint s =
    if digits_value s <=? max_uint64 then (digits_value s, None)
    else (max_uint64, Some ErrRange).
Proof.
  intros Hne Hs. unfold ParseUint. destruct s as [|c s]; [done|].
  apply (parse_loop_spec (c :: s) 0 Hs). unfold max_uint64. lia.
Qed.

Definition number_value (t : list ascii) : Z := digits_value (remove_underscores t).

(** The switch on [siunit]. *)
Definition scale (u : list ascii) (a b : Z) : Z * Z :=
  if decide (u = ["k"%char]) then (u64 (u64 (a * 1000) + 1), u64 (b * 1000))
  else if decide (u = ["M"%char]) then (u64 (u64 (a * 1000000) + 1), u64 (b * 1000000))
  else (a, b).

(** What [ParseBlockSegment] does with the texts of the three groups. *)
Definition parse_groups (f l u : list ascii)
    : option BlockSegment * option ParseError :=
  let a := number_value f in
  if max_uint64 <? a then (None, Some (ErrInvalidFirst ErrRange))
  else
    let b := match l with [] => a | _ :: _ => number_value l end in
    if max_uint64 <? b then (None, Some (ErrInvalidLast ErrRange))
    else
      let '(a', b') := scale u a b in
      if a' >? b' then (None, Some (ErrFirstLargerThanLast a' b'))
      else (Some {| First := a'; Last := b' |}, None).

Lemma remove_underscores_number f :
  is_number f ->
  remove_underscores f <> [] /\ forallb is_digit (remove_underscores f) = true.
Proof.
  intros (d & r & -> & Hd & Hr). unfold remove_underscores. simpl.
  assert (Ascii.eqb d "_" = false) as ->.
  { destruct (Ascii.eqb_spec d "_") as [->|]; [done|done]. }
  simpl. split; [done|]. rewrite Hd. simpl.
  induction r as [|c r IH]; simpl in *; [done|].
  apply andb_true_iff in Hr as [Hc Hr].
  destruct (Ascii.eqb_spec c "_") as [->|Hne]; simpl; [by apply IH|].
  unfold is_digit_or_underscore in Hc. apply orb_true_iff in Hc as [Hc|Hc].
  - rewrite Hc. by apply IH.
  - by apply Ascii.eqb_eq in Hc.
Qed.

Lemma ParseUint_number f :
  is_number f ->
  ParseUint (remove_underscores f) =
    if max_uint64 <? number_value f then (max_uint64, Some ErrRange)
    else (number_value f, None).
Proof.
  intros Hf. destruct (remove_underscores_number f Hf) as [Hne Hd].
  rewrite ParseUint_spec by done. fold (number_value f).
  destruct (Z.leb_spec (number_value f) max_uint64), (Z.ltb_spec max_uint64 (number_value f)); (done || lia).
Qed.

Lemma submatch_segment s f l u :
  segment_syntax s f l u ->
  MatchString segment_re s = true /\
  submatch segment_re s "first" = f /\
  submatch segment_re s "last" = l /\
  submatch segment_re s "siunit" = u.
Proof.
  intros Hsyn. pose proof Hsyn as Hscan. apply scan_segment_spec in Hscan.
  unfold MatchString, submatch. rewrite search_segment, Hscan.
  split; [apply bool_decide_eq_true; by eexists|]. cbn [fmap option_fmap option_map].
  destruct Hsyn as [f Hf | f sep l u Hf Hsep (d & r & -> & _) Hu]; simpl.
  - by rewrite lookup_insert_eq, !lookup_insert_ne, !lookup_empty.
  - rewrite lookup_insert_eq. rewrite !lookup_insert_ne by done.
    rewrite !lookup_insert_eq. rewrite lookup_insert_ne by done.
    by rewrite lookup_insert_eq.
Qed.

Lemma MatchString_segment s :
  MatchString segment_re s = true <-> exists f l u, segment_syntax s f l u.
Proof.
  split.
  - unfold MatchString. rewrite search_segment. intros H.
    apply bool_decide_eq_true in H as [caps H].
    destruct (scan_segment s) as [[[f l] u]|] eqn:E; [|done].
    exists f, l, u. by apply scan_segment_spec.
  - intros (f & l & u & H). by apply submatch_segment in H as [? _].
Qed.

Lemma ParseBlockSegment_syntax s f l u :
  segment_syntax (list_ascii_of_string s) f l u ->
  ParseBlockSegment s = parse_groups f l u.
Proof.
  intros Hsyn. unfold ParseBlockSegment, parse_groups.
  destruct (submatch_segment _ _ _ _ Hsyn) as (-> & -> & -> & ->). cbn [negb].
  assert (is_number f) as Hf by (by destruct Hsyn).
  rewrite (ParseUint_number f Hf).
  destruct (max_uint64 <? number_value f) eqn:Ea; [done|].
  destruct Hsyn as [f _ | f sep l u _ Hsep Hl Hu].
  - cbn [remove_underscores List.filter length Nat.eqb]. by rewrite Ea.
  - destruct (remove_underscores_number l Hl) as [Hne _].
    destruct (remove_underscores l) as [|c0 r0] eqn:El; [done|].
    cbn [length Nat.eqb]. rewrite <- El, (ParseUint_number l Hl).
    destruct Hl as (d & r & -> & _).
    destruct (max_uint64 <? number_value (d :: r)); [done|].
    unfold scale. repeat case_decide; done.
Qed.

Lemma ParseBlockSegment_no_syntax s :
  (forall f l u, ~ segment_syntax (list_ascii_of_string s) f l u) ->
  ParseBlockSegment s = (None, Some (ErrInvalidString s)).
Proof.
  intros Hno. unfold ParseBlockSegment.
  destruct (MatchString segment_re (list_ascii_of_string s)) eqn:E; [|done].
  apply MatchString_segment in E as (f & l & u & H). by destruct (Hno f l u).
Qed.

End Grammar.

Import Grammar.

(* ===================================================================== *)
(** * The parser: its results *)
(* ===================================================================== *)

Definition parses (p : string) : Prop := snd (ParseBlockSegment p) = None.

Lemma ParseBlockSegment_results s :
  (exists seg, ParseBlockSegment s = (Some seg, None) /\ First seg <= Last seg) \/
  (exists e, ParseBlockSegment s = (None, Some e)).
Proof.
  unfold ParseBlockSegment.
  destruct (negb _); [right; eauto|].
  destruct (ParseUint _) as [a [e|]]; [right; eauto|].
  destruct (if Nat.eqb _ _ then _ else _) as [b [e|]]; [right; eauto|].
  destruct (if decide _ then _ else _) as [a' b'].
  destruct (Z.gtb_spec a' b'); [right; eauto|left].
  eexists; split; [done|simpl; lia].
Qed.

Lemma parse_pieces_ok lxs done todo :
  length todo = length lxs -> Forall parses lxs ->
  parse_pieces lxs (length done) (done ++ todo) =
    (Some (done ++ ((fun p => fst (ParseBlockSegment p)) <$> lxs)), None).
Proof.
  revert done todo. induction lxs as [|lx lxs IH]; intros done todo Hlen Hok.
  - destruct todo; [|done]. done.
  - destruct todo as [|t todo]; [done|]. apply Forall_cons in Hok as [Hlx Hok].
    cbn [parse_pieces]. unfold parses in Hlx.
    destruct (ParseBlockSegment lx) as [seg err] eqn:E. simpl in Hlx. subst err.
    rewrite insert_app_r_alt by lia. rewrite Nat.sub_diag. cbn [insert list_insert].
    rewrite (cons_middle seg), app_assoc.
    replace (S (length done)) with (length (done ++ [seg])) by (rewrite length_app; simpl; lia).
    rewrite IH by (simpl in Hlen; (lia || done)).
    rewrite <- app_assoc. by rewrite fmap_cons, E.
Qed.

Lemma parse_pieces_error pre p post e i br :
  Forall parses pre -> snd (ParseBlockSegment p) = Some e ->
  parse_pieces (pre ++ p :: post) i br = (None, Some e).
Proof.
  revert i br. induction pre as [|q pre IH]; intros i br Hok He.
  - cbn [app parse_pieces]. destruct (ParseBlockSegment p) as [seg err]. simpl in He. by subst.
  - apply Forall_cons in Hok as [Hq Hok]. cbn [app parse_pieces]. unfold parses in Hq.
    destruct (ParseBlockSegment q) as [seg err]. simpl in Hq. subst err. by apply IH.
Qed.

Lemma Split_nonempty s sep : Split s sep <> [].
Proof. induction s as [|c s IH]; simpl; [done|]. destruct (Ascii.eqb c sep); [done|]. by destruct (Split s sep). Qed.

Lemma Split_concat s sep :
  String.concat (String sep EmptyString) (Split s sep) = s.
Proof.
  induction s as [|c s IH]; [done|]. cbn [Split].
  destruct (Ascii.eqb_spec c sep) as [->|Hne].
  - pose proof (Split_nonempty s sep). destruct (Split s sep) as [|p ps] eqn:E; [done|].
    cbn [String.concat]. simpl. by rewrite <- IH.
  - pose proof (Split_nonempty s sep). destruct (Split s sep) as [|p ps] eqn:E; [done|].
    destruct ps as [|p' ps]; simpl in *; by rewrite <- IH.
Qed.

Lemma Split_no_separator s sep :
  Forall (fun p => sep ∉ list_ascii_of_string p) (Split s sep).
Proof.
  induction s as [|c s IH]; cbn [Split].
  - constructor; [|done]. simpl. by intros ?%elem_of_nil.
  - destruct (Ascii.eqb_spec c sep) as [->|Hne].
    + constructor; [|done]. simpl. by intros ?%elem_of_nil.
    + destruct (Split s sep) as [|p ps]; [constructor; [|done]|].
      * simpl. intros [?|?%elem_of_nil]%elem_of_cons; done.
      * apply Forall_cons in IH as [Hp Hps]. constructor; [|done].
        simpl. intros [?|?]%elem_of_cons; done.
Qed.
(** The factor a unit stands for. *)
Definition unit_factor (u : list ascii) : Z :=
  if decide (u = ["k"%char]) then 1000
  else if decide (u = ["M"%char]) then 1000000
  else 1.

Lemma u64_add_l a b : u64 (u64 a + b) = u64 (a + b).
Proof. unfold u64. by rewrite Zplus_mod_idemp_l. Qed.

Lemma number_value_nonneg f : is_number f -> 0 <= number_value f.
Proof.
  intros Hf. destruct (remove_underscores_number f Hf) as [_ Hd].
  apply (value_from_mono _ 0 Hd). lia.
Qed.

(** C5. Every interval that [ParseBlockSegment] returns has
    [First <= Last]; the four strings of the specification parse to the
    intervals it lists; and a range with a unit [k] or [M] is scaled by
    [first' = first * unit + 1] and [last' = last * unit], computed in
    [uint64] arithmetic (exactly so whenever the products fit 64 bits). *)
Theorem ParseBlockSegment_interval :
  (forall s seg err, ParseBlockSegment s = (Some seg, err) -> First seg <= Last seg) /\
  ParseBlockSegment "1001" = (Some (NewBlockSegment 1001 1001), None) /\
  ParseBlockSegment "1_001-2_000" = (Some (NewBlockSegment 1001 2000), None) /\
  ParseBlockSegment "1-2k" = (Some (NewBlockSegment 1001 2000), None) /\
  ParseBlockSegment "1-2M" = (Some (NewBlockSegment 1000001 2000000), None) /\
  (forall s f l u seg err,
     segment_syntax (list_ascii_of_string s) f l u ->
     ParseBlockSegment s = (Some seg, err) ->
     u <> [] ->
     First seg = u64 (number_value f * unit_factor u + 1) /\
     Last seg = u64 (number_value l * unit_factor u) /\
     (number_value f * unit_factor u + 1 <= max_uint64 ->
        First seg = number_value f * unit_factor u + 1) /\
     (number_value l * unit_factor u <= max_uint64 ->
        Last seg = number_value l * unit_factor u)).
Proof.
  split.
  { intros s seg err H.
    destruct (ParseBlockSegment_results s) as [(seg' & E & Hle) | (e & E)];
      rewrite E in H; by simplify_eq. }
  do 4 (split; [vm_compute; reflexivity|]).
  - intros s f l u seg err Hsyn H Hu.
    rewrite (ParseBlockSegment_syntax _ _ _ _ Hsyn) in H.
    assert (is_number f /\ is_number l /\ exists c, u = [c] /\ is_siunit c = true)
      as (Hf & Hl & c & -> & Hc).
    { destruct Hsyn as [|? ? ? ? ? ? ? [->|?]]; done. }
    pose proof (number_value_nonneg f Hf). pose proof (number_value_nonneg l Hl).
    unfold parse_groups in H.
    destruct (max_uint64 <? number_value f); [done|].
    destruct Hl as (d & r & -> & _).
    destruct (max_uint64 <? number_value (d :: r)); [done|].
    assert (scale [c] (number_value f) (number_value (d :: r)) =
      (u64 (number_value f * unit_factor [c] + 1),
       u64 (number_value (d :: r) * unit_factor [c]))) as Hscale.
    { unfold scale, unit_factor, is_siunit in *. repeat case_decide; rewrite ?u64_add_l; try done.
      apply orb_true_iff in Hc as [Hc|Hc]; apply Ascii.eqb_eq in Hc; congruence. }
    rewrite Hscale in H.
    destruct (_ >? _); [done|]. simplify_eq. cbn [First Last].
    assert (1 <= unit_factor [c]) by (unfold unit_factor; repeat case_decide; lia).
    repeat split; try done; intros; apply u64_id; unfold is_u64; nia.
Qed.

Lemma ParseBlockSegment_interval_witness :
  First (NewBlockSegment 1001 2000) <= Last (NewBlockSegment 1001 2000).
Proof.
  apply (proj1 ParseBlockSegment_interval "1-2k" _ None).
  vm_compute. reflexivity.
Defined.

(** C5, counterexample to the scaling rule read over the integers: the
    string [0-18446744073709552k] is in the grammar and is accepted, but
    its last block is not [last * unit]: the product passes [2^64 - 1]
    and the unchecked [uint64] multiplication leaves 384. *)
Theorem ParseBlockSegment_interval_counterexample :
  segment_syntax (list_ascii_of_string "0-18446744073709552k")
    (list_ascii_of_string "0") (list_ascii_of_string "18446744073709552")
    ["k"%char] /\
  ParseBlockSegment "0-18446744073709552k" = (Some (NewBlockSegment 1 384), None) /\
  number_value (list_ascii_of_string "18446744073709552") * unit_factor ["k"%char]
    = 18446744073709552000 /\
  Last (NewBlockSegment 1 384) <> 18446744073709552000.
Proof.
  split; [apply scan_segment_spec; vm_compute; reflexivity|].
  split; [vm_compute; reflexivity|].
  split; [vm_compute; reflexivity|].
  vm_compute. discriminate.
Qed.

(** The error kinds of the specification. *)
Inductive ErrorKind : Type := InvalidFormat | InvalidNumber | RangeInverted.

Definition error_kind (e : ParseError) : ErrorKind :=
  match e with
  | ErrInvalidString _ => InvalidFormat
  | ErrInvalidFirst _ | ErrInvalidLast _ => InvalidNumber
  | ErrFirstLargerThanLast _ _ => RangeInverted
  end.

(** C6. A string outside the grammar fails with [InvalidFormat]; inside
    the grammar, an error of [ParseUint] on a numeric component as it is
    written (which is what happens when its value passes [2^64 - 1]) fails
    with [InvalidNumber]; numbers that fit and whose bounds after the
    scaling, computed in [uint64] arithmetic with its wrap-around, have
    [first > last] fail with [RangeInverted]; and no failure returns an
    interval. An overflow of the scaling itself is no error. *)
Theorem ParseBlockSegment_errors :
  (forall s,
     (forall f l u, ~ segment_syntax (list_ascii_of_string s) f l u) ->
     ParseBlockSegment s = (None, Some (ErrInvalidString s))) /\
  ParseBlockSegment "abc" = (None, Some (ErrInvalidString "abc")) /\
  (forall s f l u v e,
     segment_syntax (list_ascii_of_string s) f l u ->
     ParseUint (remove_underscores f) = (v, Some e) ->
     ParseBlockSegment s = (None, Some (ErrInvalidFirst e))) /\
  (forall s f l u a v e,
     segment_syntax (list_ascii_of_string s) f l u ->
     ParseUint (remove_underscores f) = (a, None) ->
     l <> [] ->
     ParseUint (remove_underscores l) = (v, Some e) ->
     ParseBlockSegment s = (None, Some (ErrInvalidLast e))) /\
  (forall s f l u,
     segment_syntax (list_ascii_of_string s) f l u ->
     (max_uint64 < number_value f ->
        ParseUint (remove_underscores f) = (max_uint64, Some ErrRange)) /\
     (l <> [] -> max_uint64 < number_value l ->
        ParseUint (remove_underscores l) = (max_uint64, Some ErrRange))) /\
  (forall s f l u first last,
     segment_syntax (list_ascii_of_string s) f l u ->
     number_value f <= max_uint64 ->
     number_value l <= max_uint64 ->
     scale u (number_value f)
       (match l with [] => number_value f | _ :: _ => number_value l end)
       = (first, last) ->
     first > last ->
     ParseBlockSegment s = (None, Some (ErrFirstLargerThanLast first last))) /\
  ParseBlockSegment "5-1" = (None, Some (ErrFirstLargerThanLast 5 1)) /\
  (forall s seg e, ParseBlockSegment s = (seg, Some e) -> seg = None) /\
  (forall s seg e, ParseBlockSegment s = (seg, Some e) ->
     match error_kind e with
     | InvalidFormat => forall f l u, ~ segment_syntax (list_ascii_of_string s) f l u
     | InvalidNumber => exists f l u, segment_syntax (list_ascii_of_string s) f l u /\
         (max_uint64 < number_value f \/ max_uint64 < number_value l)
     | RangeInverted => exists f l u, segment_syntax (list_ascii_of_string s) f l u
     end).
Proof.
  split; [exact ParseBlockSegment_no_syntax|].
  split; [vm_compute; reflexivity|].
  split.
  { intros s f l u v e Hsyn Hp. rewrite (ParseBlockSegment_syntax _ _ _ _ Hsyn).
    assert (is_number f) as Hf by (by destruct Hsyn).
    rewrite (ParseUint_number f Hf) in Hp. unfold parse_groups.
    destruct (max_uint64 <? number_value f); by simplify_eq. }
  split.
  { intros s f l u a v e Hsyn Hpf Hl Hpl. rewrite (ParseBlockSegment_syntax _ _ _ _ Hsyn).
    assert (is_number f /\ is_number l) as [Hf Hl'] by (by destruct Hsyn).
    rewrite (ParseUint_number f Hf) in Hpf. rewrite (ParseUint_number l Hl') in Hpl.
    unfold parse_groups.
    destruct (max_uint64 <? number_value f); [done|].
    destruct l; [done|].
    destruct (max_uint64 <? number_value _); by simplify_eq. }
  split.
  { intros s f l u Hsyn. split.
    - intros Hov. assert (is_number f) as Hf by (by destruct Hsyn).
      rewrite (ParseUint_number f Hf).
      destruct (Z.ltb_spec max_uint64 (number_value f)); [done|lia].
    - intros Hl Hov. assert (is_number l) as Hl' by (by destruct Hsyn).
      rewrite (ParseUint_number l Hl').
      destruct (Z.ltb_spec max_uint64 (number_value l)); [done|lia]. }
  split.
  { intros s f l u first last Hsyn Hf Hl Hscale Hgt.
    rewrite (ParseBlockSegment_syntax _ _ _ _ Hsyn). unfold parse_groups.
    destruct (Z.ltb_spec max_uint64 (number_value f)); [lia|].
    assert ((max_uint64 <? match l with [] => number_value f | _ :: _ => number_value l end) = false) as ->.
    { destruct l; apply Z.ltb_ge; lia. }
    rewrite Hscale. destruct (Z.gtb_spec first last); [done|lia]. }
  split; [vm_compute; reflexivity|].
  split.
  { intros s seg e H.
    destruct (ParseBlockSegment_results s) as [(seg' & E & Hle) | (e' & E)];
      rewrite E in H; by simplify_eq. }
  intros s seg e H.
  destruct (MatchString segment_re (list_ascii_of_string s)) eqn:Hm.
  - apply MatchString_segment in Hm as (f & l & u & Hsyn).
    rewrite (ParseBlockSegment_syntax _ _ _ _ Hsyn) in H. unfold parse_groups in H.
    destruct (Z.ltb_spec max_uint64 (number_value f)).
    { simplify_eq. simpl. exists f, l, u. split; [done|]. by left. }
    destruct l as [|d r].
    + destruct (Z.ltb_spec max_uint64 (number_value f)); [lia|].
      destruct (scale _ _ _) as [a' b']. destruct (_ >? _); simplify_eq. simpl. eauto.
    + destruct (Z.ltb_spec max_uint64 (number_value (d :: r))).
      { simplify_eq. simpl. exists f, (d :: r), u. split; [done|]. by right. }
      destruct (scale _ _ _) as [a' b']. destruct (_ >? _); simplify_eq. simpl. eauto.
  - unfold ParseBlockSegment in H. rewrite Hm in H. cbn [negb] in H. simplify_eq. simpl.
    intros f l u Hsyn. assert (MatchString segment_re (list_ascii_of_string s) = true).
    { apply MatchString_segment. eauto. }
    congruence.
Qed.

Lemma ParseBlockSegment_errors_witness :
  ParseBlockSegment "x1" = (None, Some (ErrInvalidString "x1")).
Proof.
  apply (proj1 ParseBlockSegment_errors "x1").
  intros f l u H. apply scan_segment_spec in H. vm_compute in H. discriminate.
Defined.

(** C6, counterexample to the errors read over the integers. The string
    [18446744073709552-1k] is accepted as [385..1000], although its first
    block scaled, [first * 1000 + 1], passes [2^64 - 1] and is above the
    last block scaled: neither [InvalidNumber] nor [RangeInverted] is
    reported. The string [18446744073709551-18446744073709552k] fails with
    [RangeInverted], although its bounds scaled over the integers are in
    order: the last one has wrapped to 384. *)
Theorem ParseBlockSegment_errors_counterexample :
  ParseBlockSegment "18446744073709552-1k" = (Some (NewBlockSegment 385 1000), None) /\
  number_value (list_ascii_of_string "18446744073709552") * unit_factor ["k"%char] + 1
    = 18446744073709552001 /\
  number_value (list_ascii_of_string "1") * unit_factor ["k"%char] = 1000 /\
  max_uint64 < 18446744073709552001 /\
  1000 < 18446744073709552001 /\
  ParseBlockSegment "18446744073709551-18446744073709552k"
    = (None, Some (ErrFirstLargerThanLast 18446744073709551001 384)) /\
  number_value (list_ascii_of_string "18446744073709551") * unit_factor ["k"%char] + 1
    <= number_value (list_ascii_of_string "18446744073709552") * unit_factor ["k"%char].
Proof.
  split; [vm_compute; reflexivity|].
  split; [vm_compute; reflexivity|].
  split; [vm_compute; reflexivity|].
  split; [reflexivity|].
  split; [reflexivity|].
  split; [vm_compute; reflexivity|].
  vm_compute. discriminate.
Qed.

(** C9. [ParseBlockSegmentList] cuts its input at the commas and parses
    the pieces from left to right: the error of the first piece that fails
    is returned with no list; when every piece parses, the list holds the
    interval of each piece, in the order of the pieces. *)
Theorem ParseBlockSegmentList_pieces :
  forall s,
    let pieces := Split s "," in
    String.concat "," pieces = s /\
    Forall (fun p => ","%char ∉ list_ascii_of_string p) pieces /\
    (forall pre p post e,
       pieces = pre ++ p :: post ->
       Forall parses pre ->
       snd (ParseBlockSegment p) = Some e ->
       ParseBlockSegmentList s = (None, Some e)) /\
    (Forall parses pieces ->
       exists segs,
         ParseBlockSegmentList s = (Some (Some <$> segs), None) /\
         length segs = length pieces /\
         forall i p, pieces !! i = Some p ->
           exists seg, segs !! i = Some seg /\
             ParseBlockSegment p = (Some seg, None)).
Proof.
  intros s pieces. split; [apply Split_concat|]. split; [apply Split_no_separator|].
  unfold ParseBlockSegmentList. fold pieces. split.
  - intros pre p post e -> Hpre He. by apply parse_pieces_error.
  - intros Hok.
    pose proof (parse_pieces_ok pieces [] (replicate (length pieces) None)
      (length_replicate _ _) Hok) as Hrun.
    cbn [app length] in Hrun. rewrite Hrun.
    assert (exists segs, (fun p => fst (ParseBlockSegment p)) <$> pieces = Some <$> segs /\
      forall i p, pieces !! i = Some p -> exists seg, segs !! i = Some seg /\
        ParseBlockSegment p = (Some seg, None)) as (segs & Heq & Hsegs).
    { clear -Hok. induction Hok as [|p ps Hp Hps (segs & Heq & Hsegs)].
      - exists []. split; [done|]. intros i p H. by rewrite lookup_nil in H.
      - destruct (ParseBlockSegment_results p) as [(seg & E & _) | (e & E)].
        + exists (seg :: segs). split; [by rewrite !fmap_cons, E, Heq|].
          intros [|i] q H; simpl in *; [simplify_eq; eauto|by apply Hsegs].
        + unfold parses in Hp. by rewrite E in Hp. }
    exists segs. rewrite Heq. split; [done|]. split; [|done].
    apply (f_equal length) in Heq. by rewrite !length_fmap in Heq.
Qed.

Lemma ParseBlockSegmentList_pieces_witness :
  ParseBlockSegmentList "1-2k,7,x" = (None, Some (ErrInvalidString "x")).
Proof.
  apply (proj1 (proj2 (proj2 (ParseBlockSegmentList_pieces "1-2k,7,x")))
           ["1-2k"; "7"]%string "x"%string [] (ErrInvalidString "x")).
  - vm_compute. reflexivity.
  - repeat constructor.
  - vm_compute. reflexivity.
Defined.

(* ===================================================================== *)
(** * Substates, task configuration and the task pool *)
(* ===================================================================== *)

(** Modelled from the spec: the types [Substate], [SubstateAccount] and
    [SubstateDB] of package research are declared outside
    [substate_task.go]. Only what [ExecuteBlock] reads of them is kept: the
    destination of the message ([nil] for a contract creation), the code of
    the accounts of the input state, and, for a block number, the
    transactions that [GetBlockSubstates] yields, in the order the [range]
    loop visits them. Addresses are numbers. *)
Record SubstateAccount : Type := { Code : list Z }.

Record SubstateMessage : Type := { To : option Z }.

Record Substate : Type := {
  InputAlloc : gmap Z SubstateAccount;
  Message : SubstateMessage
}.

Record SubstateDB : Type := {
  GetBlockSubstates : Z -> list (Z * Substate)
}.

(** [type SubstateTaskConfig struct] *)
Record SubstateTaskConfig : Type := {
  Workers : Z;
  SkipTransferTxs : bool;
  SkipCallTxs : bool;
  SkipCreateTxs : bool
}.

(** [type SubstateTaskPool struct]. The task function works on a world
    [W] (its side effects: the destination database of [db-clone], say)
    and fails with an error of [E]; the pool it is handed in Go is the
    pool it is stored in. *)
Record SubstateTaskPool (W E : Type) : Type := {
  Name : string;
  TaskFunc : Z -> Z -> Substate -> W -> W * option E;
  Config : SubstateTaskConfig;
  DB : SubstateDB
}.

Arguments Name {W E} _.
Arguments TaskFunc {W E} _ _ _ _ _.
Arguments Config {W E} _.
Arguments DB {W E} _.

(** [fmt.Errorf("%s: %v_%v: %v", pool.Name, block, tx, err)] *)
Record TaskError (E : Type) : Type := {
  err_pool : string;
  err_block : Z;
  err_tx : Z;
  err_cause : E
}.

Arguments err_pool {E} _.
Arguments err_block {E} _.
Arguments err_tx {E} _.
Arguments err_cause {E} _.

(** [NumWorkers]: the configured number when positive, else the number of
    physical cores when [cpu.Counts(false)] reports one ([cores] is its
    result, [None] for an error), else [runtime.NumCPU()]. *)
Definition NumWorkers {W E} (pool : SubstateTaskPool W E)
    (cores : option Z) (num_cpu : Z) : Z :=
  if Workers (Config pool) >? 0 then Workers (Config pool)
  else
    match cores with
    | Some n => n
    | None => num_cpu
    end.

(* ===================================================================== *)
(** * ExecuteBlock *)
(* ===================================================================== *)

Section ExecuteBlock.

Context {W E : Type}.
Variable pool : SubstateTaskPool W E.

(** [account, exist := alloc[*to]; !exist || len(account.Code) == 0] *)
Definition no_code (alloc : gmap Z SubstateAccount) (to : Z) : bool :=
  match alloc !! to with
  | Some account => Nat.eqb (length (Code account)) 0
  | None => true
  end.

(** [account, exist := alloc[*to]; exist && len(account.Code) > 0] *)
Definition has_code (alloc : gmap Z SubstateAccount) (to : Z) : bool :=
  match alloc !! to with
  | Some account => Nat.ltb 0 (length (Code account))
  | None => false
  end.

(** The three filters, each the condition under which its [continue] is
    reached. *)
Definition skip_transfer (substate : Substate) : bool :=
  match To (Message substate) with
  | Some to => SkipTransferTxs (Config pool) && no_code (InputAlloc substate) to
  | None => false
  end.

Definition skip_call (substate : Substate) : bool :=
  match To (Message substate) with
  | Some to => SkipCallTxs (Config pool) && has_code (InputAlloc substate) to
  | None => false
  end.

Definition skip_create (substate : Substate) : bool :=
  match To (Message substate) with
  | Some _ => false
  | None => SkipCreateTxs (Config pool)
  end.

(** The filters in the order of the source. *)
Definition skipped (substate : Substate) : bool :=
  if skip_transfer substate then true
  else if skip_call substate then true
  else if skip_create substate then true
  else false.

(** What one pass through the body of the loop does. *)
Inductive Iteration : Type :=
| Continue (numTx : Z) (w : W)
| Return (numTx : Z) (err : TaskError E) (w : W).

Definition loop_body (block : Z) (entry : Z * Substate) (numTx : Z) (w : W)
    : Iteration :=
  let '(tx, substate) := entry in
  if skipped substate then Continue numTx w
  else
    match TaskFunc pool block tx substate w with
    | (w', Some err) =>
        Return numTx
          {| err_pool := Name pool; err_block := block; err_tx := tx;
             err_cause := err |} w'
    | (w', None) => Continue (i64 (numTx + 1)) w'
    end.

Fixpoint execute_loop (block : Z) (entries : list (Z * Substate))
    (numTx : Z) (w : W) : Z * option (TaskError E) * W :=
  match entries with
  | [] => (numTx, None, w)
  | entry :: entries' =>
      match loop_body block entry numTx w with
      | Continue numTx' w' => execute_loop block entries' numTx' w'
      | Return numTx' err w' => (numTx', Some err, w')
      end
  end.

(** [ExecuteBlock]: the count of processed transactions, the error if
    any, and the world the callbacks leave. *)
Definition ExecuteBlock (block : Z) (w : W) : Z * option (TaskError E) * W :=
  execute_loop block (GetBlockSubstates (DB pool) block) 0 w.

(** The callbacks that a run over [entries] makes when none of them
    fails: the world they leave, or [None] when one fails. *)
Fixpoint calls_succeed (block : Z) (entries : list (Z * Substate)) (w : W)
    : option W :=
  match entries with
  | [] => Some w
  | (tx, substate) :: entries' =>
      if skipped substate then calls_succeed block entries' w
      else
        match TaskFunc pool block tx substate w with
        | (w', None) => calls_succeed block entries' w'
        | (_, Some _) => None
        end
  end.

(** The transactions of [entries] that no filter skips. *)
Definition processed (entries : list (Z * Substate)) : list (Z * Substate) :=
  List.filter (fun entry => negb (skipped (snd entry))) entries.

End ExecuteBlock.

(* ===================================================================== *)
(** * ExecuteBlock: its results *)
(* ===================================================================== *)

Section ExecuteBlockFacts.

Context {W E : Type}.
Variable pool : SubstateTaskPool W E.

(** The task function on every entry of a list in turn, none skipped:
    the world left when all succeed. *)
Fixpoint run_tasks (block : Z) (entries : list (Z * Substate)) (w : W)
    : option W :=
  match entries with
  | [] => Some w
  | (tx, substate) :: entries' =>
      match TaskFunc pool block tx substate w with
      | (w', None) => run_tasks block entries' w'
      | (_, Some _) => None
      end
  end.

Lemma calls_succeed_processed block entries w :
  calls_succeed pool block entries w = run_tasks block (processed pool entries) w.
Proof.
  revert w. induction entries as [|[tx substate] entries IH]; intros w; [done|].
  unfold processed in *. cbn [calls_succeed List.filter snd].
  destruct (skipped pool substate); cbn [negb]; [apply IH|].
  cbn [run_tasks]. destruct (TaskFunc pool block tx substate w) as [w' [e|]]; [done|apply IH].
Qed.

Lemma processed_app l1 l2 :
  processed pool (l1 ++ l2) = processed pool l1 ++ processed pool l2.
Proof. unfold processed. apply List.filter_app. Qed.

Lemma length_processed_le entries :
  (length (processed pool entries) <= length entries)%nat.
Proof. unfold processed. apply List.filter_length_le. Qed.

Lemma execute_loop_app block pre rest n w w1 :
  calls_succeed pool block pre w = Some w1 ->
  is_i64 n ->
  execute_loop pool block (pre ++ rest) n w =
  execute_loop pool block rest (i64 (n + Z.of_nat (length (processed pool pre)))) w1.
Proof.
  revert n w. induction pre as [|[tx substate] pre IH]; intros n w Hok Hn.
  - cbn in Hok. simplify_eq. cbn [app processed List.filter length Z.of_nat].
    by rewrite Z.add_0_r, i64_id.
  - cbn [calls_succeed] in Hok. cbn [app execute_loop loop_body].
    unfold processed. cbn [List.filter snd].
    destruct (skipped pool substate); cbn [negb].
    + by apply IH.
    + destruct (TaskFunc pool block tx substate w) as [w' [e|]]; [done|].
      rewrite (IH _ _ Hok) by apply i64_range.
      rewrite i64_add_l. cbn [length]. rewrite Nat2Z.inj_succ.
      replace (n + Z.succ (Z.of_nat (length (List.filter (λ entry : Z * Substate, negb (skipped pool entry.2)) pre))))
        with (n + 1 + Z.of_nat (length (List.filter (λ entry : Z * Substate, negb (skipped pool entry.2)) pre))) by lia.
      done.
Qed.

Lemma execute_loop_range block entries n w :
  is_i64 n -> is_i64 (execute_loop pool block entries n w).1.1.
Proof.
  revert n w. induction entries as [|[tx substate] entries IH]; intros n w Hn; [done|].
  cbn [execute_loop loop_body]. destruct (skipped pool substate); [by apply IH|].
  destruct (TaskFunc pool block tx substate w) as [w' [e|]]; [done|].
  apply IH, i64_range.
Qed.

(** Every way [execute_loop] can end. *)
Lemma execute_loop_cases block entries n w :
  is_i64 n ->
  (exists w', calls_succeed pool block entries w = Some w' /\
     execute_loop pool block entries n w =
       (i64 (n + Z.of_nat (length (processed pool entries))), None, w')) \/
  (exists pre tx substate post w1 w2 e,
     entries = pre ++ (tx, substate) :: post /\
     skipped pool substate = false /\
     calls_succeed pool block pre w = Some w1 /\
     TaskFunc pool block tx substate w1 = (w2, Some e) /\
     execute_loop pool block entries n w =
       (i64 (n + Z.of_nat (length (processed pool pre))),
        Some {| err_pool := Name pool; err_block := block; err_tx := tx;
                err_cause := e |}, w2)).
Proof.
  revert n w. induction entries as [|[tx substate] entries IH]; intros n w Hn.
  - left. exists w. split; [done|]. cbn. by rewrite Z.add_0_r, i64_id.
  - destruct (skipped pool substate) eqn:Hskip.
    + destruct (IH n w Hn) as [(w' & Hok & Hrun) | (pre & tx' & s' & post & w1 & w2 & e & -> & Hs & Hok & Hf & Hrun)].
      * left. exists w'. cbn [calls_succeed execute_loop loop_body]. rewrite Hskip.
        split; [done|]. rewrite Hrun. unfold processed. cbn [List.filter snd]. by rewrite Hskip.
      * right. exists ((tx, substate) :: pre), tx', s', post, w1, w2, e.
        cbn [calls_succeed execute_loop loop_body app]. rewrite Hskip.
        repeat split; try done. rewrite Hrun. unfold processed. cbn [List.filter snd]. by rewrite Hskip.
    + destruct (TaskFunc pool block tx substate w) as [wt [e|]] eqn:Ht.
      * right. exists [], tx, substate, entries, w, wt, e.
        cbn [calls_succeed execute_loop loop_body app]. rewrite Hskip, Ht.
        repeat split; try done. cbn. by rewrite Z.add_0_r, i64_id.
      * assert (forall l, i64 (n + 1 + Z.of_nat (length (processed pool l))) =
            i64 (n + Z.of_nat (length (processed pool ((tx, substate) :: l))))) as Hlen.
        { intros l. unfold processed. cbn [List.filter snd]. rewrite Hskip. cbn [negb length].
          f_equal. lia. }
        destruct (IH (i64 (n + 1)) wt (i64_range _)) as [(w' & Hok & Hrun) | (pre & tx' & s' & post & w1 & w2 & e & -> & Hs & Hok & Hf & Hrun)].
        -- left. exists w'. cbn [calls_succeed execute_loop loop_body]. rewrite Hskip, Ht.
           split; [done|]. rewrite Hrun, i64_add_l. by rewrite Hlen.
        -- right. exists ((tx, substate) :: pre), tx', s', post, w1, w2, e.
           cbn [calls_succeed execute_loop loop_body app]. rewrite Hskip, Ht.
           repeat split; try done. rewrite Hrun, i64_add_l. by rewrite Hlen.
Qed.

End ExecuteBlockFacts.

Section ExecuteBlockTheorems.

Context {W E : Type}.
Variable pool : SubstateTaskPool W E.

(** X1. When the callback fails on a transaction of the block, after it
    succeeded on every earlier transaction that no filter skips,
    [ExecuteBlock] returns the number of those earlier transactions, the
    error wrapped with the pool's name, the block and the index of the
    failing transaction, and the world as the failing call left it: no
    later transaction of the block is touched. *)
Theorem ExecuteBlock_first_error block w pre tx substate post w1 w2 e :
  GetBlockSubstates (DB pool) block = pre ++ (tx, substate) :: post ->
  Z.of_nat (length (GetBlockSubstates (DB pool) block)) <= max_int64 ->
  skipped pool substate = false ->
  run_tasks pool block (processed pool pre) w = Some w1 ->
  TaskFunc pool block tx substate w1 = (w2, Some e) ->
  ExecuteBlock pool block w =
    (Z.of_nat (length (processed pool pre)),
     Some {| err_pool := Name pool; err_block := block; err_tx := tx;
             err_cause := e |},
     w2).
Proof.
  intros Hdb Hlen Hskip Hpre Hfail. unfold ExecuteBlock. rewrite Hdb in *.
  rewrite <- calls_succeed_processed in Hpre.
  rewrite (execute_loop_app pool block pre _ 0 w w1 Hpre)
    by (unfold is_i64, max_int64; lia).
  cbn [execute_loop loop_body]. rewrite Hskip, Hfail. cbn [Z.add].
  rewrite i64_id; [done|].
  pose proof (length_processed_le pool pre). rewrite length_app in Hlen.
  unfold is_i64, max_int64 in *. lia.
Qed.

(** X2. [ExecuteBlock] returns no error exactly when the callback
    succeeds on every transaction of the block that no filter skips, taken
    in the order of the block; it then returns the number of those
    transactions and the world that the calls leave. *)
Theorem ExecuteBlock_success block w :
  Z.of_nat (length (GetBlockSubstates (DB pool) block)) <= max_int64 ->
  forall n w',
    ExecuteBlock pool block w = (n, None, w') <->
    run_tasks pool block (processed pool (GetBlockSubstates (DB pool) block)) w
      = Some w' /\
    n = Z.of_nat (length (processed pool (GetBlockSubstates (DB pool) block))).
Proof.
  intros Hlen n w'. unfold ExecuteBlock. rewrite <- calls_succeed_processed.
  pose proof (length_processed_le pool (GetBlockSubstates (DB pool) block)) as Hle.
  assert (i64 (0 + Z.of_nat (length (processed pool (GetBlockSubstates (DB pool) block))))
          = Z.of_nat (length (processed pool (GetBlockSubstates (DB pool) block)))) as Hn.
  { apply i64_id. unfold is_i64, max_int64 in *. lia. }
  destruct (execute_loop_cases pool block (GetBlockSubstates (DB pool) block) 0 w)
    as [(w0 & Hok & Hrun) | (pre & tx & s & post & w1 & w2 & e & Hdb & Hs & Hok & Hf & Hrun)].
  { unfold is_i64, max_int64. lia. }
  - rewrite Hrun, Hok, Hn. split.
    + intros [= <- <-]. done.
    + intros [[= <-] ->]. done.
  - rewrite Hrun. split; [done|]. intros [Hall _]. exfalso.
    rewrite Hdb in Hall. clear -Hall Hs Hok Hf.
    revert w Hall Hok. induction pre as [|[tx0 s0] pre IH]; intros w Hall Hok.
    + cbn in Hok. simplify_eq. cbn [app calls_succeed] in Hall. by rewrite Hs, Hf in Hall.
    + cbn [app calls_succeed] in *. destruct (skipped pool s0); [by eapply IH|].
      destruct (TaskFunc pool block tx0 s0 w) as [wt [e0|]]; [done|]. by eapply IH.
Qed.

(** X3. An error of [ExecuteBlock] always names the pool, the block it
    was called for and the index of a transaction of that block which no
    filter skips; the count returned with it never exceeds the number of
    transactions of the block. *)
Theorem ExecuteBlock_error_origin block w n err w' :
  Z.of_nat (length (GetBlockSubstates (DB pool) block)) <= max_int64 ->
  ExecuteBlock pool block w = (n, Some err, w') ->
  err_pool err = Name pool /\
  err_block err = block /\
  (exists substate,
     (err_tx err, substate) ∈ GetBlockSubstates (DB pool) block /\
     skipped pool substate = false) /\
  0 <= n < Z.of_nat (length (GetBlockSubstates (DB pool) block)).
Proof.
  intros Hlen. unfold ExecuteBlock.
  destruct (execute_loop_cases pool block (GetBlockSubstates (DB pool) block) 0 w)
    as [(w0 & Hok & Hrun) | (pre & tx & s & post & w1 & w2 & e & Hdb & Hs & Hok & Hf & Hrun)].
  { unfold is_i64, max_int64. lia. }
  - rewrite Hrun. done.
  - rewrite Hrun. intros [= <- <- <-]. cbn. repeat split; try done.
    + exists s. split; [|done]. rewrite Hdb. apply elem_of_app. right. apply elem_of_cons. by left.
    + pose proof (i64_range (Z.of_nat (length (processed pool pre)))).
      pose proof (length_processed_le pool pre). rewrite Hdb, length_app in Hlen.
      rewrite i64_id; unfold is_i64, max_int64 in *; lia.
    + pose proof (length_processed_le pool pre). rewrite Hdb, length_app in *. cbn [length] in *.
      rewrite i64_id; unfold is_i64, max_int64 in *; lia.
Qed.

End ExecuteBlockTheorems.

(** The three content filters by name, and the shapes of transaction they
    tell apart. *)
Inductive Filter : Type := TransferFilter | CallFilter | CreateFilter.

Inductive TxKind : Type := TransferTx | CallTx | CreateTx.

Definition source_order : list Filter := [TransferFilter; CallFilter; CreateFilter].

Section Filters.

Context {W E : Type}.
Variable pool : SubstateTaskPool W E.

Definition applies (f : Filter) (substate : Substate) : bool :=
  match f with
  | TransferFilter => skip_transfer pool substate
  | CallFilter => skip_call pool substate
  | CreateFilter => skip_create pool substate
  end.

(** The filters tried one after the other in a given order. *)
Definition skipped_in (order : list Filter) (substate : Substate) : bool :=
  existsb (fun f => applies f substate) order.

(** A transaction is a creation when it has no destination, a call when
    the destination has code in the input state, a transfer otherwise. *)
Definition kind_of (substate : Substate) : TxKind :=
  match To (Message substate) with
  | None => CreateTx
  | Some to => if has_code (InputAlloc substate) to then CallTx else TransferTx
  end.

Definition enabled (k : TxKind) : bool :=
  match k with
  | TransferTx => SkipTransferTxs (Config pool)
  | CallTx => SkipCallTxs (Config pool)
  | CreateTx => SkipCreateTxs (Config pool)
  end.

Lemma no_code_has_code alloc to : no_code alloc to = negb (has_code alloc to).
Proof.
  unfold no_code, has_code. destruct (alloc !! to) as [account|]; [|done].
  by destruct (length (Code account)).
Qed.

Lemma skipped_kind substate : skipped pool substate = enabled (kind_of substate).
Proof.
  unfold skipped, skip_transfer, skip_call, skip_create, kind_of, enabled.
  destruct (To (Message substate)) as [to|].
  - rewrite no_code_has_code.
    destruct (has_code (InputAlloc substate) to), (SkipTransferTxs (Config pool)),
      (SkipCallTxs (Config pool)); done.
  - by destruct (SkipCreateTxs (Config pool)).
Qed.

Lemma existsb_Permutation {A} (p : A -> bool) l1 l2 :
  l1 ≡ₚ l2 -> existsb p l1 = existsb p l2.
Proof.
  induction 1 as [|x l1 l2 _ IH|x y l|l1 l2 l3 _ IH1 _ IH2]; simpl.
  - done.
  - by rewrite IH.
  - destruct (p x), (p y); done.
  - congruence.
Qed.

(** X4. The skip decision does not depend on the order of the three
    filters: at most one of them applies to a transaction, the one of its
    kind (transfer, call or creation), and a transaction is skipped exactly
    when the flag of its kind is set. *)
Theorem filters_order_independent :
  (forall order substate,
     order ≡ₚ source_order ->
     skipped_in order substate = skipped pool substate) /\
  (forall f g substate,
     f <> g -> applies f substate = true -> applies g substate = false) /\
  (forall substate, skipped pool substate = enabled (kind_of substate)).
Proof.
  split; [|split].
  - intros order substate Hperm. unfold skipped_in.
    rewrite (existsb_Permutation _ _ _ Hperm). unfold source_order, skipped. cbn.
    destruct (skip_transfer pool substate), (skip_call pool substate),
      (skip_create pool substate); done.
  - intros f g substate Hne. unfold applies, skip_transfer, skip_call, skip_create.
    destruct (To (Message substate)) as [to|]; [rewrite no_code_has_code|];
      destruct f, g; try done;
      destruct (has_code (InputAlloc substate) to); rewrite ?andb_false_r; done.
  - apply skipped_kind.
Qed.

(** X5. With the three filters enabled every transaction is skipped:
    [ExecuteBlock] returns a count of zero and no error, and leaves the
    world as it found it, whatever the task function would do. *)
Theorem ExecuteBlock_all_filters block w :
  SkipTransferTxs (Config pool) = true ->
  SkipCallTxs (Config pool) = true ->
  SkipCreateTxs (Config pool) = true ->
  ExecuteBlock pool block w = (0, None, w).
Proof.
  intros Ht Hc Hcr. unfold ExecuteBlock.
  assert (forall substate, skipped pool substate = true) as Hall.
  { intros s. rewrite skipped_kind. unfold enabled. destruct (kind_of s); done. }
  induction (GetBlockSubstates (DB pool) block) as [|[tx s] entries IH]; [done|].
  cbn [execute_loop loop_body]. by rewrite Hall.
Qed.

End Filters.

(* ===================================================================== *)
(** * A small pool to run the model on *)
(* ===================================================================== *)

Module Example.

Definition contract : SubstateAccount := {| Code := [96; 0; 243] |}.
Definition wallet : SubstateAccount := {| Code := [] |}.

Definition alloc : gmap Z SubstateAccount := <[1 := contract]> (<[2 := wallet]> ∅).

Definition transfer_tx : Substate :=
  {| InputAlloc := alloc; Message := {| To := Some 2 |} |}.
Definition call_tx : Substate :=
  {| InputAlloc := alloc; Message := {| To := Some 1 |} |}.
Definition create_tx : Substate :=
  {| InputAlloc := alloc; Message := {| To := None |} |}.

(** Block 7 holds a transfer, a call, a creation and a call; every other
    block one call. *)
Definition db : SubstateDB :=
  {| GetBlockSubstates := fun block =>
       if block =? 7 then [(0, transfer_tx); (1, call_tx); (2, create_tx); (3, call_tx)]
       else [(0, call_tx)] |}.

(** A task that records its calls and fails on creations. *)
Definition task (block tx : Z) (substate : Substate) (w : list (Z * Z))
    : list (Z * Z) * option string :=
  (w ++ [(block, tx)],
   match To (Message substate) with
   | None => Some "creation"%string
   | Some _ => None
   end).

Definition pool (skip_transfer skip_call skip_create : bool)
    : SubstateTaskPool (list (Z * Z)) string :=
  {| Name := "example";
     TaskFunc := task;
     Config := {| Workers := 2; SkipTransferTxs := skip_transfer;
                  SkipCallTxs := skip_call; SkipCreateTxs := skip_create |};
     DB := db |}.

End Example.

Lemma ExecuteBlock_first_error_witness :
  ExecuteBlock (Example.pool true false false) 7 [] =
    (1, Some {| err_pool := "example"; err_block := 7; err_tx := 2;
                err_cause := "creation"%string |}, [(7, 1); (7, 2)]).
Proof.
  apply (ExecuteBlock_first_error (Example.pool true false false) 7 []
           [(0, Example.transfer_tx); (1, Example.call_tx)] 2 Example.create_tx
           [(3, Example.call_tx)] [(7, 1)] [(7, 1); (7, 2)] "creation"%string).
  - reflexivity.
  - vm_compute. discriminate.
  - reflexivity.
  - reflexivity.
  - reflexivity.
Defined.

Lemma ExecuteBlock_success_witness :
  ExecuteBlock (Example.pool false false true) 7 [] = (3, None, [(7, 0); (7, 1); (7, 3)]).
Proof.
  apply (ExecuteBlock_success (Example.pool false false true) 7 []).
  - vm_compute. discriminate.
  - split; reflexivity.
Defined.

Lemma ExecuteBlock_error_origin_witness :
  err_block {| err_pool := "example"%string; err_block := 7; err_tx := 2;
               err_cause := "creation"%string |} = 7.
Proof.
  apply (ExecuteBlock_error_origin (Example.pool true false false) 7 [] 1 _ [(7, 1); (7, 2)]).
  - vm_compute. discriminate.
  - reflexivity.
Defined.

Lemma ExecuteBlock_all_filters_witness :
  ExecuteBlock (Example.pool true true true) 7 [] = (0, None, []).
Proof. apply (ExecuteBlock_all_filters (Example.pool true true true) 7 []); reflexivity. Defined.

Lemma filters_order_independent_witness :
  skipped_in (Example.pool false true false) [CreateFilter; TransferFilter; CallFilter]
    Example.call_tx = skipped (Example.pool false true false) Example.call_tx.
Proof.
  apply (proj1 (filters_order_independent (Example.pool false true false))).
  unfold source_order.
  apply (Permutation_cons_append [TransferFilter; CallFilter] CreateFilter).
Defined.

(* ===================================================================== *)
(** * Durations and rates (package time, float64) *)
(* ===================================================================== *)

Module Clock.

(** [time.Second], in nanoseconds. *)
Definition Second : Z := 1000000000.

(** [float64(z)] for an [int64], rounded to the nearest float. *)
Definition float64_of_int64 (z : Z) : float :=
  if z <? 0 then
    if z =? - 2 ^ 63 then (- 9223372036854775808)%float
    else (- PrimFloat.of_uint63 (Uint63.of_Z (- z)))%float
  else PrimFloat.of_uint63 (Uint63.of_Z z).

(** [d.Seconds()]: whole seconds plus the rest over [1e9]. *)
Definition Seconds (d : Z) : float :=
  (float64_of_int64 (Z.quot d Second)
   + float64_of_int64 (Z.rem d Second) / 1e9)%float.

(** [a > b] on [float64]. *)
Definition gt (a b : float) : bool := PrimFloat.ltb b a.

End Clock.

(* ===================================================================== *)
(** * ExecuteSegment: goroutines and channels as a transition system *)
(* ===================================================================== *)

(** The throughput report is due: the test of the source before the
    coordinator waits on [doneChan]. *)
Definition should_report (block last : Z) (sec lastSec : float) : bool :=
  (block =? last)
  || ((block mod 10000 =? 0) && Clock.gt sec (lastSec + 5)%float)
  || ((block mod 1000 =? 0) && Clock.gt sec (lastSec + 10)%float)
  || ((block mod 100 =? 0) && Clock.gt sec (lastSec + 20)%float)
  || ((block mod 10 =? 0) && Clock.gt sec (lastSec + 40)%float)
  || Clock.gt sec (lastSec + 60)%float.

Section Scheduler.

Context {W E : Type}.

(** What the run prints. Durations are in nanoseconds, as [time.Duration]
    counts them; the rounding of their display is left out. *)
Inductive Output : Type :=
| OutSegment (first last : Z)
| OutWorkers (n : Z)
| OutProgress (elapsed number : Z) (blkPerSec txPerSec : float)
| OutSummary (first last nb nt : Z) (blkPerSec txPerSec : float) (duration : Z).

(** A value on [doneChan]: a block number or an error. *)
Inductive Done : Type :=
| DoneBlock (block : Z)
| DoneErr (err : TaskError E).

(** The log of a run: what was printed, and the events that the
    properties of a run speak about. The log is not read by any step. *)
Inductive Event : Type :=
| EvPrint (line : Output)
| EvProduced (block : Z)
| EvExecuted (block numTx : Z) (err : option (TaskError E))
| EvReceived (data : Done)
| EvAdvanced (block : Z).

(** The producer goroutine: at the head of its loop with [block], or
    returned. *)
Inductive Producer : Type :=
| PLoop (block : Z)
| PExited.

(** A worker goroutine: waiting in its [select]; inside [ExecuteBlock]
    with the transactions not yet visited and the count so far; before
    each of the two [atomic.AddInt64]; before the send on [doneChan];
    returned. *)
Inductive Worker : Type :=
| WIdle
| WExec (block : Z) (entries : list (Z * Substate)) (numTx : Z)
| WAddTx (block nt : Z) (err : option (TaskError E))
| WAddBlock (block : Z) (err : option (TaskError E))
| WSend (block : Z) (err : option (TaskError E))
| WExited.

(** The calling goroutine: at the head of the counting loop; waiting on
    [doneChan]; in the deferred shutdown with [sent] stop signals sent
    (waiting for the goroutines once all are sent); before the deferred
    summary; returned. [result] is what [ExecuteSegment] returns. *)
Inductive Coord : Type :=
| CLoop
| CRecv
| CStop (sent : Z) (result : option (TaskError E))
| CSummary (result : option (TaskError E))
| CDone (result : option (TaskError E)).

Record Sys : Type := {
  world : W;
  producer : Producer;
  workers : list Worker;
  workChan : list Z;
  doneChan : list Done;
  stopChan : Z;
  totalNumBlock : Z;
  totalNumTx : Z;
  coord : Coord;
  block : Z;
  waitMap : gset Z;
  lastSec : float;
  lastNumBlock : Z;
  lastNumTx : Z;
  trace : list Event
}.

Definition set_world (v : W) (s : Sys) : Sys :=
  {| world := v;
     producer := producer s;
     workers := workers s;
     workChan := workChan s;
     doneChan := doneChan s;
     stopChan := stopChan s;
     totalNumBlock := totalNumBlock s;
     totalNumTx := totalNumTx s;
     coord := coord s;
     block := block s;
     waitMap := waitMap s;
     lastSec := lastSec s;
     lastNumBlock := lastNumBlock s;
     lastNumTx := lastNumTx s;
     trace := trace s |}.

Definition set_producer (v : Producer) (s : Sys) : Sys :=
  {| world := world s;
     producer := v;
     workers := workers s;
     workChan := workChan s;
     doneChan := doneChan s;
     stopChan := stopChan s;
     totalNumBlock := totalNumBlock s;
     totalNumTx := totalNumTx s;
     coord := coord s;
     block := block s;
     waitMap := waitMap s;
     lastSec := lastSec s;
     lastNumBlock := lastNumBlock s;
     lastNumTx := lastNumTx s;
     trace := trace s |}.

Definition set_workers (v : list Worker) (s : Sys) : Sys :=
  {| world := world s;
     producer := producer s;
     workers := v;
     workChan := workChan s;
     doneChan := doneChan s;
     stopChan := stopChan s;
     totalNumBlock := totalNumBlock s;
     totalNumTx := totalNumTx s;
     coord := coord s;
     block := block s;
     waitMap := waitMap s;
     lastSec := lastSec s;
     lastNumBlock := lastNumBlock s;
     lastNumTx := lastNumTx s;
     trace := trace s |}.

Definition set_workChan (v : list Z) (s : Sys) : Sys :=
  {| world := world s;
     producer := producer s;
     workers := workers s;
     workChan := v;
     doneChan := doneChan s;
     stopChan := stopChan s;
     totalNumBlock := totalNumBlock s;
     totalNumTx := totalNumTx s;
     coord := coord s;
     block := block s;
     waitMap := waitMap s;
     lastSec := lastSec s;
     lastNumBlock := lastNumBlock s;
     lastNumTx := lastNumTx s;
     trace := trace s |}.

Definition set_doneChan (v : list Done) (s : Sys) : Sys :=
  {| world := world s;
     producer := producer s;
     workers := workers s;
     workChan := workChan s;
     doneChan := v;
     stopChan := stopChan s;
     totalNumBlock := totalNumBlock s;
     totalNumTx := totalNumTx s;
     coord := coord s;
     block := block s;
     waitMap := waitMap s;
     lastSec := lastSec s;
     lastNumBlock := lastNumBlock s;
     lastNumTx := lastNumTx s;
     trace := trace s |}.

Definition set_stopChan (v : Z) (s : Sys) : Sys :=
  {| world := world s;
     producer := producer s;
     workers := workers s;
     workChan := workChan s;
     doneChan := doneChan s;
     stopChan := v;
     totalNumBlock := totalNumBlock s;
     totalNumTx := totalNumTx s;
     coord := coord s;
     block := block s;
     waitMap := waitMap s;
     lastSec := lastSec s;
     lastNumBlock := lastNumBlock s;
     lastNumTx := lastNumTx s;
     trace := trace s |}.

Definition set_totalNumBlock (v : Z) (s : Sys) : Sys :=
  {| world := world s;
     producer := producer s;
     workers := workers s;
     workChan := workChan s;
     doneChan := doneChan s;
     stopChan := stopChan s;
     totalNumBlock := v;
     totalNumTx := totalNumTx s;
     coord := coord s;
     block := block s;
     waitMap := waitMap s;
     lastSec := lastSec s;
     lastNumBlock := lastNumBlock s;
     lastNumTx := lastNumTx s;
     trace := trace s |}.

Definition set_totalNumTx (v : Z) (s : Sys) : Sys :=
  {| world := world s;
     producer := producer s;
     workers := workers s;
     workChan := workChan s;
     doneChan := doneChan s;
     stopChan := stopChan s;
     totalNumBlock := totalNumBlock s;
     totalNumTx := v;
     coord := coord s;
     block := block s;
     waitMap := waitMap s;
     lastSec := lastSec s;
     lastNumBlock := lastNumBlock s;
     lastNumTx := lastNumTx s;
     trace := trace s |}.

Definition set_coord (v : Coord) (s : Sys) : Sys :=
  {| world := world s;
     producer := producer s;
     workers := workers s;
     workChan := workChan s;
     doneChan := doneChan s;
     stopChan := stopChan s;
     totalNumBlock := totalNumBlock s;
     totalNumTx := totalNumTx s;
     coord := v;
     block := block s;
     waitMap := waitMap s;
     lastSec := lastSec s;
     lastNumBlock := lastNumBlock s;
     lastNumTx := lastNumTx s;
     trace := trace s |}.

Definition set_block (v : Z) (s : Sys) : Sys :=
  {| world := world s;
     producer := producer s;
     workers := workers s;
     workChan := workChan s;
     doneChan := doneChan s;
     stopChan := stopChan s;
     totalNumBlock := totalNumBlock s;
     totalNumTx := totalNumTx s;
     coord := coord s;
     block := v;
     waitMap := waitMap s;
     lastSec := lastSec s;
     lastNumBlock := lastNumBlock s;
     lastNumTx := lastNumTx s;
     trace := trace s |}.

Definition set_waitMap (v : gset Z) (s : Sys) : Sys :=
  {| world := world s;
     producer := producer s;
     workers := workers s;
     workChan := workChan s;
     doneChan := doneChan s;
     stopChan := stopChan s;
     totalNumBlock := totalNumBlock s;
     totalNumTx := totalNumTx s;
     coord := coord s;
     block := block s;
     waitMap := v;
     lastSec := lastSec s;
     lastNumBlock := lastNumBlock s;
     lastNumTx := lastNumTx s;
     trace := trace s |}.

Definition set_lastSec (v : float) (s : Sys) : Sys :=
  {| world := world s;
     producer := producer s;
     workers := workers s;
     workChan := workChan s;
     doneChan := doneChan s;
     stopChan := stopChan s;
     totalNumBlock := totalNumBlock s;
     totalNumTx := totalNumTx s;
     coord := coord s;
     block := block s;
     waitMap := waitMap s;
     lastSec := v;
     lastNumBlock := lastNumBlock s;
     lastNumTx := lastNumTx s;
     trace := trace s |}.

Definition set_lastNumBlock (v : Z) (s : Sys) : Sys :=
  {| world := world s;
     producer := producer s;
     workers := workers s;
     workChan := workChan s;
     doneChan := doneChan s;
     stopChan := stopChan s;
     totalNumBlock := totalNumBlock s;
     totalNumTx := totalNumTx s;
     coord := coord s;
     block := block s;
     waitMap := waitMap s;
     lastSec := lastSec s;
     lastNumBlock := v;
     lastNumTx := lastNumTx s;
     trace := trace s |}.

Definition set_lastNumTx (v : Z) (s : Sys) : Sys :=
  {| world := world s;
     producer := producer s;
     workers := workers s;
     workChan := workChan s;
     doneChan := doneChan s;
     stopChan := stopChan s;
     totalNumBlock := totalNumBlock s;
     totalNumTx := totalNumTx s;
     coord := coord s;
     block := block s;
     waitMap := waitMap s;
     lastSec := lastSec s;
     lastNumBlock := lastNumBlock s;
     lastNumTx := v;
     trace := trace s |}.

Definition set_trace (v : list Event) (s : Sys) : Sys :=
  {| world := world s;
     producer := producer s;
     workers := workers s;
     workChan := workChan s;
     doneChan := doneChan s;
     stopChan := stopChan s;
     totalNumBlock := totalNumBlock s;
     totalNumTx := totalNumTx s;
     coord := coord s;
     block := block s;
     waitMap := waitMap s;
     lastSec := lastSec s;
     lastNumBlock := lastNumBlock s;
     lastNumTx := lastNumTx s;
     trace := v |}.

(** One atomic action of one goroutine. Workers are numbered from 0;
    [d] is what [time.Since(start) + 1*time.Nanosecond] yields when the
    action reads the clock. *)
Inductive Action : Type :=
| AProduce
| AProducerStop
| AProducerExit
| AWorkerRecv (i : nat)
| AWorkerTx (i : nat)
| AWorkerReturn (i : nat)
| AWorkerAddTx (i : nat)
| AWorkerAddBlock (i : nat)
| AWorkerSend (i : nat)
| AWorkerStop (i : nat)
| ACoordAdvance
| ACoordCheck (d : Z)
| ACoordRecv
| ACoordExit
| ACoordSendStop
| ACoordWait
| ACoordSummary (d : Z).

Variable pool : SubstateTaskPool W E.
Variable segment : BlockSegment.

(** The result of [pool.NumWorkers()]. *)
Variable numWorkers : Z.

Definition log (ev : Event) (s : Sys) : Sys := set_trace (ev :: trace s) s.

Definition set_worker (i : nat) (wk : Worker) (s : Sys) : Sys :=
  set_workers (<[i := wk]> (workers s)) s.

(** The capacity of [workChan] and of [doneChan]; [stopChan] holds
    [numWorkers] signals. *)
Definition chan_cap : Z := numWorkers * 1000.

Definition exited (wk : Worker) : bool :=
  match wk with
  | WExited => true
  | _ => false
  end.

(** The progress lines and the new baseline, when the report is due. *)
Definition report (d : Z) (s : Sys) : Sys :=
  let sec := Clock.Seconds d in
  if should_report (block s) (Last segment) sec (lastSec s) then
    let nb := totalNumBlock s in
    let nt := totalNumTx s in
    let blkPerSec :=
      (Clock.float64_of_int64 (i64 (nb - lastNumBlock s)) / (sec - lastSec s))%float in
    let txPerSec :=
      (Clock.float64_of_int64 (i64 (nt - lastNumTx s)) / (sec - lastSec s))%float in
    set_lastSec sec (set_lastNumBlock nb (set_lastNumTx nt
      (log (EvPrint (OutProgress d (block s) blkPerSec txPerSec)) s)))
  else s.

(** The deferred summary. *)
Definition summary (d : Z) (s : Sys) : Sys :=
  let sec := Clock.Seconds d in
  let nb := totalNumBlock s in
  let nt := totalNumTx s in
  log (EvPrint (OutSummary (First segment) (Last segment) nb nt
                  (Clock.float64_of_int64 nb / sec)%float
                  (Clock.float64_of_int64 nt / sec)%float d)) s.

Definition step (s : Sys) (a : Action) : option Sys :=
  match a with
  (* producer: [case workChan <- block: continue], then [block++] *)
  | AProduce =>
      match producer s with
      | PLoop b =>
          if (b <=? Last segment) && (Z.of_nat (length (workChan s)) <? chan_cap)
          then Some (set_producer (PLoop (u64 (b + 1)))
                       (set_workChan (workChan s ++ [b]) (log (EvProduced b) s)))
          else None
      | PExited => None
      end
  (* producer: [case <-stopChan: return] *)
  | AProducerStop =>
      match producer s with
      | PLoop b =>
          if (b <=? Last segment) && (0 <? stopChan s)
          then Some (set_producer PExited (set_stopChan (stopChan s - 1) s))
          else None
      | PExited => None
      end
  (* producer: the loop condition fails *)
  | AProducerExit =>
      match producer s with
      | PLoop b =>
          if b <=? Last segment then None else Some (set_producer PExited s)
      | PExited => None
      end
  (* worker: [case block := <-workChan], entering [ExecuteBlock] *)
  | AWorkerRecv i =>
      match workers s !! i, workChan s with
      | Some WIdle, b :: rest =>
          Some (set_worker i (WExec b (GetBlockSubstates (DB pool) b) 0)
                  (set_workChan rest s))
      | _, _ => None
      end
  (* worker: one pass through the loop of [ExecuteBlock] *)
  | AWorkerTx i =>
      match workers s !! i with
      | Some (WExec b (entry :: entries) n) =>
          match loop_body pool b entry n (world s) with
          | Continue n' w' =>
              Some (set_worker i (WExec b entries n') (set_world w' s))
          | Return n' err w' =>
              Some (set_worker i (WAddTx b n' (Some err))
                      (set_world w' (log (EvExecuted b n' (Some err)) s)))
          end
      | _ => None
      end
  (* worker: [ExecuteBlock] returns [numTx, nil] *)
  | AWorkerReturn i =>
      match workers s !! i with
      | Some (WExec b [] n) =>
          Some (set_worker i (WAddTx b n None) (log (EvExecuted b n None) s))
      | _ => None
      end
  (* worker: [atomic.AddInt64(&totalNumTx, nt)] *)
  | AWorkerAddTx i =>
      match workers s !! i with
      | Some (WAddTx b nt err) =>
          Some (set_worker i (WAddBlock b err)
                  (set_totalNumTx (i64 (totalNumTx s + nt)) s))
      | _ => None
      end
  (* worker: [atomic.AddInt64(&totalNumBlock, 1)] *)
  | AWorkerAddBlock i =>
      match workers s !! i with
      | Some (WAddBlock b err) =>
          Some (set_worker i (WSend b err)
                  (set_totalNumBlock (i64 (totalNumBlock s + 1)) s))
      | _ => None
      end
  (* worker: [doneChan <- err] or [doneChan <- block] *)
  | AWorkerSend i =>
      match workers s !! i with
      | Some (WSend b err) =>
          if Z.of_nat (length (doneChan s)) <? chan_cap then
            let data := match err with
                        | Some e => DoneErr e
                        | None => DoneBlock b
                        end in
            Some (set_worker i WIdle (set_doneChan (doneChan s ++ [data]) s))
          else None
      | _ => None
      end
  (* worker: [case <-stopChan: return] *)
  | AWorkerStop i =>
      match workers s !! i with
      | Some WIdle =>
          if 0 <? stopChan s
          then Some (set_worker i WExited (set_stopChan (stopChan s - 1) s))
          else None
      | _ => None
      end
  (* coordinator: the cursor's block is in [waitMap] *)
  | ACoordAdvance =>
      match coord s with
      | CLoop =>
          if (block s <=? Last segment) && bool_decide (block s ∈ waitMap s)
          then Some (set_block (u64 (block s + 1))
                       (set_waitMap (waitMap s ∖ {[block s]})
                          (log (EvAdvanced (block s)) s)))
          else None
      | _ => None
      end
  (* coordinator: the report, then on to [<-doneChan] *)
  | ACoordCheck d =>
      match coord s with
      | CLoop =>
          if (block s <=? Last segment) && negb (bool_decide (block s ∈ waitMap s))
             && (0 <? d)
          then Some (set_coord CRecv (report d s))
          else None
      | _ => None
      end
  (* coordinator: [data := <-doneChan] and the type switch *)
  | ACoordRecv =>
      match coord s, doneChan s with
      | CRecv, data :: rest =>
          let s := set_doneChan rest (log (EvReceived data) s) in
          match data with
          | DoneBlock b =>
              Some (set_coord CLoop (set_waitMap ({[b]} ∪ waitMap s) s))
          | DoneErr err => Some (set_coord (CStop 0 (Some err)) s)
          end
      | _, _ => None
      end
  (* coordinator: the loop condition fails, [return nil] *)
  | ACoordExit =>
      match coord s with
      | CLoop =>
          if block s <=? Last segment then None
          else Some (set_coord (CStop 0 None) s)
      | _ => None
      end
  (* coordinator, deferred: [stopChan <- struct{}{}], [numWorkers + 1] times *)
  | ACoordSendStop =>
      match coord s with
      | CStop sent result =>
          if (sent <? numWorkers + 1) && (stopChan s <? numWorkers)
          then Some (set_coord (CStop (sent + 1) result)
                       (set_stopChan (stopChan s + 1) s))
          else None
      | _ => None
      end
  (* coordinator, deferred: [wg.Wait()] and the two [close] *)
  | ACoordWait =>
      match coord s, producer s with
      | CStop sent result, PExited =>
          if (sent <? numWorkers + 1) then None
          else if forallb exited (workers s)
          then Some (set_coord (CSummary result) s)
          else None
      | _, _ => None
      end
  (* coordinator, deferred: the summary; [ExecuteSegment] has returned *)
  | ACoordSummary d =>
      match coord s with
      | CSummary result =>
          if 0 <? d then Some (set_coord (CDone result) (summary d s)) else None
      | _ => None
      end
  end.

(** The state in which the coordinator enters its loop. *)
Definition init (w : W) : Sys :=
  {| world := w;
     producer := PLoop (First segment);
     workers := replicate (Z.to_nat numWorkers) WIdle;
     workChan := [];
     doneChan := [];
     stopChan := 0;
     totalNumBlock := 0;
     totalNumTx := 0;
     coord := CLoop;
     block := First segment;
     waitMap := ∅;
     lastSec := 0%float;
     lastNumBlock := 0;
     lastNumTx := 0;
     trace := [EvPrint (OutWorkers numWorkers);
               EvPrint (OutSegment (First segment) (Last segment))] |}.

Fixpoint run_actions (s : Sys) (acts : list Action) : option Sys :=
  match acts with
  | [] => Some s
  | a :: acts' =>
      match step s a with
      | Some s' => run_actions s' acts'
      | None => None
      end
  end.

(** The states of the runs that start in [init w]. *)
Definition reachable (w : W) (s : Sys) : Prop :=
  exists acts, run_actions (init w) acts = Some s.

End Scheduler.

Arguments world {W E} _.
Arguments producer {W E} _.
Arguments workers {W E} _.
Arguments workChan {W E} _.
Arguments doneChan {W E} _.
Arguments stopChan {W E} _.
Arguments totalNumBlock {W E} _.
Arguments totalNumTx {W E} _.
Arguments coord {W E} _.
Arguments block {W E} _.
Arguments waitMap {W E} _.
Arguments lastSec {W E} _.
Arguments lastNumBlock {W E} _.
Arguments lastNumTx {W E} _.
Arguments trace {W E} _.

(** Sums over lists. *)
Definition sumZ {A} (f : A -> Z) (l : list A) : Z :=
  foldr (fun x acc => f x + acc) 0 l.

Global Arguments sumZ : simpl never.

Lemma sumZ_nil {A} (f : A -> Z) : sumZ f [] = 0.
Proof. done. Qed.

Lemma sumZ_cons {A} (f : A -> Z) x l : sumZ f (x :: l) = f x + sumZ f l.
Proof. done. Qed.

Lemma sumZ_app {A} (f : A -> Z) l1 l2 : sumZ f (l1 ++ l2) = sumZ f l1 + sumZ f l2.
Proof.
  induction l1 as [|x l1 IH]; cbn [app].
  - rewrite sumZ_nil. lia.
  - rewrite !sumZ_cons, IH. lia.
Qed.

Lemma sumZ_insert {A} (f : A -> Z) (l : list A) i x y :
  l !! i = Some x -> sumZ f (<[i := y]> l) = sumZ f l - f x + f y.
Proof.
  revert i. induction l as [|a l IH]; intros [|i] H; simpl in *; simplify_eq.
  - rewrite !sumZ_cons. lia.
  - rewrite !sumZ_cons, (IH i H). lia.
Qed.

Lemma sumZ_nonneg {A} (f : A -> Z) l : (forall x, 0 <= f x) -> 0 <= sumZ f l.
Proof.
  intros Hf. induction l as [|x l IH]; [by rewrite sumZ_nil|].
  rewrite sumZ_cons. specialize (Hf x). lia.
Qed.

Lemma sumZ_ext {A} (f g : A -> Z) l :
  (forall x, x ∈ l -> f x = g x) -> sumZ f l = sumZ g l.
Proof.
  induction l as [|x l IH]; intros H; [done|]. rewrite !sumZ_cons.
  rewrite (H x) by (by left). rewrite IH; [done|]. intros y Hy. apply H. by right.
Qed.

Lemma sumZ_replicate {A} (f : A -> Z) n x :
  sumZ f (replicate n x) = Z.of_nat n * f x.
Proof.
  induction n as [|n IH]; cbn [replicate].
  - rewrite sumZ_nil. lia.
  - rewrite sumZ_cons, IH. lia.
Qed.

Section Runs.

Context {W E : Type}.
Variable pool : SubstateTaskPool W E.
Variable segment : BlockSegment.
Variable numWorkers : Z.

Local Abbreviation step := (step pool segment numWorkers).
Local Abbreviation run := (run_actions pool segment numWorkers).
Local Abbreviation init := (init (E:=E) segment numWorkers).
Local Abbreviation reachable := (reachable pool segment numWorkers).

Lemma run_app s acts1 acts2 :
  run s (acts1 ++ acts2) =
    match run s acts1 with
    | Some s' => run s' acts2
    | None => None
    end.
Proof.
  revert s. induction acts1 as [|a acts1 IH]; intros s; simpl; [done|].
  destruct (step s a); [apply IH|done].
Qed.

Lemma reachable_init w : reachable w (init w).
Proof. by exists []. Qed.

Lemma reachable_step w s a s' :
  reachable w s -> step s a = Some s' -> reachable w s'.
Proof.
  intros [acts Hrun] Hstep. exists (acts ++ [a]).
  rewrite run_app, Hrun. simpl. by rewrite Hstep.
Qed.

(** Induction over the runs: a property of the initial state that every
    step preserves holds of every reachable state. *)
Lemma reachable_ind w (P : Sys -> Prop) :
  P (init w) ->
  (forall s a s', reachable w s -> P s -> step s a = Some s' -> P s') ->
  forall s, reachable w s -> P s.
Proof.
  intros Hinit Hstep s [acts Hrun]. revert s Hrun.
  induction acts as [|a acts IH] using rev_ind; intros s Hrun.
  - simpl in Hrun. by simplify_eq.
  - rewrite run_app in Hrun. destruct (run (init w) acts) as [s0|] eqn:Hs0; [|done].
    simpl in Hrun. destruct (step s0 a) as [s1|] eqn:Hs1; [|done]. simplify_eq.
    eapply Hstep; [by exists acts|by apply IH|done].
Qed.

End Runs.

Section Frames.

Context {W E : Type}.

Lemma report_world (s : Sys (W:=W) (E:=E)) last d : world (report last d s) = world s.
Proof. unfold report. by destruct (should_report _ _ _ _). Qed.

Lemma report_producer (s : Sys (W:=W) (E:=E)) last d : producer (report last d s) = producer s.
Proof. unfold report. by destruct (should_report _ _ _ _). Qed.

Lemma report_workers (s : Sys (W:=W) (E:=E)) last d : workers (report last d s) = workers s.
Proof. unfold report. by destruct (should_report _ _ _ _). Qed.

Lemma report_workChan (s : Sys (W:=W) (E:=E)) last d : workChan (report last d s) = workChan s.
Proof. unfold report. by destruct (should_report _ _ _ _). Qed.

Lemma report_doneChan (s : Sys (W:=W) (E:=E)) last d : doneChan (report last d s) = doneChan s.
Proof. unfold report. by destruct (should_report _ _ _ _). Qed.

Lemma report_stopChan (s : Sys (W:=W) (E:=E)) last d : stopChan (report last d s) = stopChan s.
Proof. unfold report. by destruct (should_report _ _ _ _). Qed.

Lemma report_totalNumBlock (s : Sys (W:=W) (E:=E)) last d : totalNumBlock (report last d s) = totalNumBlock s.
Proof. unfold report. by destruct (should_report _ _ _ _). Qed.

Lemma report_totalNumTx (s : Sys (W:=W) (E:=E)) last d : totalNumTx (report last d s) = totalNumTx s.
Proof. unfold report. by destruct (should_report _ _ _ _). Qed.

Lemma report_coord (s : Sys (W:=W) (E:=E)) last d : coord (report last d s) = coord s.
Proof. unfold report. by destruct (should_report _ _ _ _). Qed.

Lemma report_block (s : Sys (W:=W) (E:=E)) last d : block (report last d s) = block s.
Proof. unfold report. by destruct (should_report _ _ _ _). Qed.

Lemma report_waitMap (s : Sys (W:=W) (E:=E)) last d : waitMap (report last d s) = waitMap s.
Proof. unfold report. by destruct (should_report _ _ _ _). Qed.

Lemma summary_world (s : Sys (W:=W) (E:=E)) seg d : world (summary seg d s) = world s.
Proof. done. Qed.

Lemma summary_producer (s : Sys (W:=W) (E:=E)) seg d : producer (summary seg d s) = producer s.
Proof. done. Qed.

Lemma summary_workers (s : Sys (W:=W) (E:=E)) seg d : workers (summary seg d s) = workers s.
Proof. done. Qed.

Lemma summary_workChan (s : Sys (W:=W) (E:=E)) seg d : workChan (summary seg d s) = workChan s.
Proof. done. Qed.

Lemma summary_doneChan (s : Sys (W:=W) (E:=E)) seg d : doneChan (summary seg d s) = doneChan s.
Proof. done. Qed.

Lemma summary_stopChan (s : Sys (W:=W) (E:=E)) seg d : stopChan (summary seg d s) = stopChan s.
Proof. done. Qed.

Lemma summary_totalNumBlock (s : Sys (W:=W) (E:=E)) seg d : totalNumBlock (summary seg d s) = totalNumBlock s.
Proof. done. Qed.

Lemma summary_totalNumTx (s : Sys (W:=W) (E:=E)) seg d : totalNumTx (summary seg d s) = totalNumTx s.
Proof. done. Qed.

Lemma summary_coord (s : Sys (W:=W) (E:=E)) seg d : coord (summary seg d s) = coord s.
Proof. done. Qed.

Lemma summary_block (s : Sys (W:=W) (E:=E)) seg d : block (summary seg d s) = block s.
Proof. done. Qed.

Lemma summary_waitMap (s : Sys (W:=W) (E:=E)) seg d : waitMap (summary seg d s) = waitMap s.
Proof. done. Qed.

Lemma summary_lastSec (s : Sys (W:=W) (E:=E)) seg d : lastSec (summary seg d s) = lastSec s.
Proof. done. Qed.

Lemma summary_lastNumBlock (s : Sys (W:=W) (E:=E)) seg d : lastNumBlock (summary seg d s) = lastNumBlock s.
Proof. done. Qed.

Lemma summary_lastNumTx (s : Sys (W:=W) (E:=E)) seg d : lastNumTx (summary seg d s) = lastNumTx s.
Proof. done. Qed.

Lemma report_trace (s : Sys (W:=W) (E:=E)) last d :
  trace (report last d s) = trace s \/
  exists r1 r2,
    should_report (block s) (Last last) (Clock.Seconds d) (lastSec s) = true /\
    trace (report last d s) = EvPrint (OutProgress d (block s) r1 r2) :: trace s.
Proof.
  unfold report. destruct (should_report _ _ _ _); [|by left].
  right. eexists _, _. split; [done|]. done.
Qed.

End Frames.

Create Rewrite HintDb sched.
#[export] Hint Rewrite @report_world @report_producer @report_workers @report_workChan
  @report_doneChan @report_stopChan @report_totalNumBlock @report_totalNumTx
  @report_coord @report_block @report_waitMap
  @summary_world @summary_producer @summary_workers @summary_workChan
  @summary_doneChan @summary_stopChan @summary_totalNumBlock @summary_totalNumTx
  @summary_coord @summary_block @summary_waitMap : sched.

(** The guards of a step, as propositions. *)
Ltac guards :=
  repeat match goal with
  | H : _ && _ = true |- _ => apply andb_true_iff in H as [? ?]
  | H : bool_decide _ = true |- _ => apply bool_decide_eq_true in H
  | H : negb (bool_decide _) = true |- _ =>
      apply negb_true_iff, bool_decide_eq_false in H
  | H : (_ <=? _) = true |- _ => apply Z.leb_le in H
  | H : (_ <=? _) = false |- _ => apply Z.leb_gt in H
  | H : (_ <? _) = true |- _ => apply Z.ltb_lt in H
  | H : (_ <? _) = false |- _ => apply Z.ltb_ge in H
  end.

(** Case analysis of a step: one goal per way the action can fire. *)
Ltac step_cases H :=
  match type of H with
  | step _ _ _ ?s ?a = Some ?s' =>
      unfold step in H; destruct a;
      repeat (case_match; try discriminate H);
      simplify_eq; cbn -[report] in *; autorewrite with sched in *; guards
  end.

(** Case analysis of a lookup in an updated list of workers. *)
Ltac lookup_cases :=
  repeat match goal with
  | H : <[?i := _]> ?l !! ?j = Some _, Hi : ?l !! ?i = Some _ |- _ =>
      destruct (decide (i = j)) as [?|?];
      [subst; rewrite list_lookup_insert_eq in H by (by eapply lookup_lt_Some);
       simplify_eq
      |rewrite list_lookup_insert_ne in H by done]
  end.

Ltac report_cases :=
  repeat match goal with
  | |- context [trace (report ?seg ?d ?s)] =>
      let H := fresh "Hdue" in let Heq := fresh "Heq" in
      destruct (report_trace s seg d) as [Heq|(? & ? & H & Heq)];
      rewrite Heq in *; clear Heq
  | H : context [trace (report ?seg ?d ?s)] |- _ =>
      let H := fresh "Hdue" in let Heq := fresh "Heq" in
      destruct (report_trace s seg d) as [Heq|(? & ? & H & Heq)];
      rewrite Heq in *; clear Heq
  end.

Ltac inv_simpl :=
  cbn -[report] in *; autorewrite with sched in *;
  report_cases; lookup_cases;
  repeat match goal with
  | H : _ ∈ _ :: _ |- _ => apply elem_of_cons in H as [H|H]
  | H : _ ∈ _ ++ _ |- _ => apply elem_of_app in H as [H|H]
  | H : _ ∈ [] |- _ => by apply elem_of_nil in H
  | H : _ ∈ {[ _ ]} ∪ _ |- _ => apply elem_of_union in H as [H%elem_of_singleton|H]
  | H : _ ∈ _ ∖ _ |- _ => apply elem_of_difference in H as [H ?]
  end; simplify_eq.

Section Invariants.

Context {W E : Type}.
Variable pool : SubstateTaskPool W E.
Variable segment : BlockSegment.
Variable numWorkers : Z.

Local Abbreviation step := (step pool segment numWorkers).
Local Abbreviation run := (run_actions pool segment numWorkers).
Local Abbreviation init := (init (E:=E) segment numWorkers).
Local Abbreviation reachable := (reachable pool segment numWorkers).

Hypothesis First_u64 : is_u64 (First segment).

Lemma u64_succ b : is_u64 b -> u64 (b + 1) = b + 1 \/ (b = max_uint64 /\ u64 (b + 1) = 0).
Proof.
  unfold is_u64, u64, max_uint64. intros Hb.
  destruct (decide (b + 1 < 2 ^ 64)).
  - left. apply Z.mod_small. lia.
  - right. split; [lia|]. assert (b + 1 = 2 ^ 64) as -> by lia. apply Z_mod_same_full.
Qed.

Lemma block_u64 w s : reachable w s -> is_u64 (block s).
Proof.
  intros Hr. pattern s. revert s Hr. apply reachable_ind; [done|].
  intros s0 a s' _ IH Hstep. step_cases Hstep; try done.
  apply u64_range.
Qed.

(** The block a worker is about to report as done. *)
Definition reporting (wk : Worker (E:=E)) : option Z :=
  match wk with
  | WAddTx b _ None | WAddBlock b None | WSend b None => Some b
  | _ => None
  end.

Definition executed_ok (s : Sys (W:=W) (E:=E)) (b : Z) : Prop :=
  exists n, EvExecuted b n None ∈ trace s.

Record trace_inv (s : Sys (W:=W) (E:=E)) : Prop := {
  ti_cursor : forall b, First segment <= b < block s ->
    EvReceived (DoneBlock b) ∈ trace s;
  ti_wait : forall b, b ∈ waitMap s -> EvReceived (DoneBlock b) ∈ trace s;
  ti_received : forall b, EvReceived (DoneBlock b) ∈ trace s -> executed_ok s b;
  ti_done : forall b, DoneBlock b ∈ doneChan s -> executed_ok s b;
  ti_worker : forall i wk b, workers s !! i = Some wk -> reporting wk = Some b ->
    executed_ok s b
}.

Lemma elem_of_trace_report (ev : Event (E:=E)) (s : Sys (W:=W) (E:=E)) d :
  ev ∈ trace s -> ev ∈ trace (report segment d s).
Proof.
  intros H. destruct (report_trace s segment d) as [->|(r1 & r2 & _ & ->)]; [done|].
  by right.
Qed.

Lemma executed_ok_mono (s s' : Sys (W:=W) (E:=E)) b :
  (forall ev, ev ∈ trace s -> ev ∈ trace s') -> executed_ok s b -> executed_ok s' b.
Proof. intros Hm [n Hn]. exists n. by apply Hm. Qed.

Lemma trace_inv_reachable w s : reachable w s -> trace_inv s.
Proof.
  intros Hr. pattern s. revert s Hr. apply reachable_ind.
  { split; simpl.
    - intros b Hb. lia.
    - set_solver.
    - intros b Hb. set_solver.
    - intros b Hb. set_solver.
    - intros i wk b Hi Hwk. apply lookup_replicate in Hi as [-> _]. done. }
  intros s0 a s' Hr0 [I1 I2 I3 I4 I5] Hstep.
  pose proof (block_u64 w s0 Hr0) as Hu.
  step_cases Hstep.
  all: split; unfold executed_ok in *; intros; inv_simpl.
  all: try (by eauto using list_elem_of_further, list_elem_of_here).
  all: try (edestruct I3 as [? ?]; [by eauto|]; by eauto using list_elem_of_further, list_elem_of_here).
  all: try (edestruct I4 as [? ?]; [by eauto using list_elem_of_further, list_elem_of_here|]; by eauto using list_elem_of_further, list_elem_of_here).
  all: try (edestruct I5 as [? ?]; [by eauto|by eauto|]; by eauto using list_elem_of_further, list_elem_of_here).
  - simpl in *. simplify_eq. eexists. by left.
  - destruct (decide (b = block s0)) as [->|]; [right; by apply I2|].
    right. apply I1. unfold is_u64 in First_u64.
    destruct (u64_succ _ Hu) as [Heq|[_ Heq]]; rewrite Heq in *; lia.
  - edestruct I4 as [? ?]; [by right|]. eexists. by right.
Qed.

(** What a step adds to the log. *)
Lemma step_trace (s : Sys (W:=W) (E:=E)) a s' :
  step s a = Some s' ->
  trace s' = trace s \/
  exists ev, trace s' = ev :: trace s /\
    match ev with
    | EvPrint (OutProgress _ c _ _) => c = block s
    | EvAdvanced c => c = block s /\ c ∈ waitMap s
    | _ => True
    end.
Proof.
  intros Hstep. step_cases Hstep; report_cases; eauto.
  all: right; eexists; split; [done|]; done.
Qed.

(** Every progress line and every move of the cursor comes after the
    completions of all the blocks below. *)
Definition ordered_log (tr : list (Event (E:=E))) : Prop :=
  (forall newer older el c r1 r2,
     tr = newer ++ EvPrint (OutProgress el c r1 r2) :: older ->
     forall b, First segment <= b < c -> EvReceived (DoneBlock b) ∈ older) /\
  (forall newer older c,
     tr = newer ++ EvAdvanced c :: older ->
     forall b, First segment <= b <= c -> EvReceived (DoneBlock b) ∈ older).

Lemma ordered_log_reachable w s : reachable w s -> ordered_log (trace s).
Proof.
  intros Hr. pattern s. revert s Hr. apply reachable_ind.
  { split.
    - intros [|? [|? [|? ?]]] older el c r1 r2 Heq; simplify_eq.
    - intros [|? [|? [|? ?]]] older c Heq; simplify_eq. }
  intros s0 a s' Hr0 [IH1 IH2] Hstep.
  destruct (trace_inv_reachable w s0 Hr0) as [I1 I2 _ _ _].
  destruct (step_trace s0 a s' Hstep) as [->|(ev & -> & Hev)]; [done|].
  split.
  - intros [|ev' newer] older el c r1 r2 Heq b Hb; simpl in Heq; simplify_eq.
    + by apply I1.
    + by eapply IH1.
  - intros [|ev' newer] older c Heq b Hb; simpl in Heq; simplify_eq.
    + destruct Hev as [-> Hin].
      destruct (decide (b = block s0)) as [->|]; [by apply I2|]. apply I1. lia.
    + by eapply IH2.
Qed.

(** What [ExecuteSegment] returns, once its loop is left. *)
Definition result (s : Sys (W:=W) (E:=E)) : option (option (TaskError E)) :=
  match coord s with
  | CStop _ r | CSummary r | CDone r => Some r
  | CLoop | CRecv => None
  end.

(** The error a worker is about to report. *)
Definition failing (wk : Worker (E:=E)) : option (Z * TaskError E) :=
  match wk with
  | WAddTx b _ (Some e) | WAddBlock b (Some e) | WSend b (Some e) => Some (b, e)
  | _ => None
  end.

(** An error as [ExecuteBlock] builds it for a failing callback on a
    transaction of [b] that no filter skips. *)
Definition error_of_block (b : Z) (e : TaskError E) : Prop :=
  err_pool e = Name pool /\ err_block e = b /\
  exists substate w0 w1,
    (err_tx e, substate) ∈ GetBlockSubstates (DB pool) b /\
    skipped pool substate = false /\
    TaskFunc pool b (err_tx e) substate w0 = (w1, Some (err_cause e)).

Definition failed (s : Sys (W:=W) (E:=E)) (e : TaskError E) : Prop :=
  exists b n, EvExecuted b n (Some e) ∈ trace s.

Record error_inv (s : Sys (W:=W) (E:=E)) : Prop := {
  ei_suffix : forall i b entries n, workers s !! i = Some (WExec b entries n) ->
    exists pre, GetBlockSubstates (DB pool) b = pre ++ entries;
  ei_executed : forall b n e, EvExecuted b n (Some e) ∈ trace s -> error_of_block b e;
  ei_worker : forall i wk b e, workers s !! i = Some wk -> failing wk = Some (b, e) ->
    failed s e;
  ei_done : forall e, DoneErr e ∈ doneChan s -> failed s e;
  ei_received : forall e, EvReceived (DoneErr e) ∈ trace s -> failed s e;
  ei_result : forall e, result s = Some (Some e) -> EvReceived (DoneErr e) ∈ trace s
}.

Lemma loop_body_return b entry n w n' e w' :
  loop_body pool b entry n w = Return n' e w' ->
  n' = n /\ err_pool e = Name pool /\ err_block e = b /\ err_tx e = entry.1 /\
  skipped pool entry.2 = false /\
  TaskFunc pool b entry.1 entry.2 w = (w', Some (err_cause e)).
Proof.
  unfold loop_body. destruct entry as [tx substate].
  destruct (skipped pool substate) eqn:Hs; [done|].
  destruct (TaskFunc pool b tx substate w) as [w1 [e1|]] eqn:Ht; [|done].
  intros [= <- <- <-]. cbn. by repeat split.
Qed.

Lemma error_inv_reachable w s : reachable w s -> error_inv s.
Proof.
  intros Hr. pattern s. revert s Hr. apply reachable_ind.
  { split; simpl; unfold failed; try set_solver.
    - intros i b entries n Hi. by apply lookup_replicate in Hi as [? _].
    - intros i wk b e Hi. apply lookup_replicate in Hi as [-> _]. done. }
  intros s0 a s' Hr0 [I1 I2 I3 I4 I5 I6] Hstep.
  split; unfold failed in *.
  - (* suffix *)
    step_cases Hstep; intros; inv_simpl; eauto.
    all: try (by exists []).
    all: edestruct I1 as [pre Hpre]; [done|]; exists (pre ++ [p]); by rewrite <- app_assoc.
  - (* executed *)
    step_cases Hstep; intros; inv_simpl; eauto.
    match goal with H : loop_body _ _ _ _ _ = Return _ _ _ |- _ =>
      apply loop_body_return in H as (-> & Hp & Hb & Htx & Hskip & Hcall) end.
    edestruct I1 as [pre Hpre]; [done|].
    split; [done|]. split; [done|]. destruct p as [tx substate]. simpl in *.
    exists substate, (world s0), w1. rewrite Htx, Hpre. split; [|done].
    apply elem_of_app. right. by left.
  - (* worker *)
    step_cases Hstep; intros; inv_simpl; eauto using list_elem_of_further, list_elem_of_here.
    all: try (edestruct I3 as (? & ? & ?); [by eauto|by eauto|]; by eauto using list_elem_of_further, list_elem_of_here).
    simpl in *. simplify_eq. eexists _, _. by left.
  - (* done *)
    step_cases Hstep; intros; inv_simpl; eauto using list_elem_of_further, list_elem_of_here.
    all: try (edestruct I4 as (? & ? & ?); [by eauto using list_elem_of_further, list_elem_of_here|]; by eauto using list_elem_of_further, list_elem_of_here).
    all: try (edestruct I3 as (? & ? & ?); [by eauto|by eauto|]; by eauto using list_elem_of_further, list_elem_of_here).
    all: edestruct (I4 e) as (? & ? & ?); [by right|]; eexists _, _; by right.
  - (* received *)
    step_cases Hstep; intros; inv_simpl; eauto using list_elem_of_further, list_elem_of_here.
    all: try (edestruct I5 as (? & ? & ?); [by eauto|]; by eauto using list_elem_of_further, list_elem_of_here).
    all: try (edestruct I4 as (? & ? & ?); [by eauto using list_elem_of_further, list_elem_of_here|]; by eauto using list_elem_of_further, list_elem_of_here).
  - (* result *)
    step_cases Hstep; intros e Hres; unfold result in *; inv_simpl;
      repeat match goal with H : coord _ = _ |- _ => rewrite H in * end;
      simplify_eq; eauto using list_elem_of_further, list_elem_of_here.
Qed.

End Invariants.

Section Counters.

Context {W E : Type}.
Variable pool : SubstateTaskPool W E.
Variable segment : BlockSegment.
Variable numWorkers : Z.

Local Abbreviation step := (step pool segment numWorkers).
Local Abbreviation reachable := (reachable pool segment numWorkers).

(** The calls of [ExecuteBlock] that have returned, with or without an
    error, and the transactions they counted. *)
Definition executed_blocks (tr : list (Event (E:=E))) : Z :=
  sumZ (fun ev => match ev with EvExecuted _ _ _ => 1 | _ => 0 end) tr.

Definition executed_txs (tr : list (Event (E:=E))) : Z :=
  sumZ (fun ev => match ev with EvExecuted _ n _ => n | _ => 0 end) tr.

(** What a worker has still to add to the counters for the block it has
    executed. *)
Definition pending_block (wk : Worker (E:=E)) : Z :=
  match wk with
  | WAddTx _ _ _ | WAddBlock _ _ => 1
  | _ => 0
  end.

Definition pending_tx (wk : Worker (E:=E)) : Z :=
  match wk with
  | WAddTx _ nt _ => nt
  | _ => 0
  end.

Lemma i64_congr a b c : i64 a = i64 b -> i64 (a + c) = i64 (b + c).
Proof. intros H. by rewrite <- (i64_add_l a), <- (i64_add_l b), H. Qed.

Lemma i64_shift a b x y : i64 a = i64 b -> x - a = y - b -> i64 x = i64 y.
Proof.
  intros H Hd. replace x with (a + (x - a)) by lia. replace y with (b + (x - a)) by lia.
  by apply i64_congr.
Qed.

Record counter_inv (s : Sys (W:=W) (E:=E)) : Prop := {
  ci_block : i64 (totalNumBlock s + sumZ pending_block (workers s))
             = i64 (executed_blocks (trace s));
  ci_tx : i64 (totalNumTx s + sumZ pending_tx (workers s))
          = i64 (executed_txs (trace s));
  ci_block_range : is_i64 (totalNumBlock s);
  ci_tx_range : is_i64 (totalNumTx s)
}.

Ltac sum_simpl :=
  repeat match goal with
  | H : ?l !! ?i = Some _ |- context [sumZ ?f (<[?i := _]> ?l)] =>
      rewrite (sumZ_insert f l i _ _ H)
  | |- context [sumZ _ (_ ++ _)] => rewrite sumZ_app
  end; cbn [sumZ foldr].

Lemma counter_inv_reachable w s : reachable w s -> counter_inv s.
Proof.
  intros Hr. pattern s. revert s Hr. apply reachable_ind.
  { split; simpl; try (unfold is_i64, max_int64; lia).
    - by rewrite sumZ_replicate, Z.mul_0_r.
    - by rewrite sumZ_replicate, Z.mul_0_r. }
  intros s0 a s' Hr0 [I1 I2 I3 I4] Hstep.
  split.
  - step_cases Hstep; report_cases; unfold executed_blocks in *;
      sum_simpl; cbn [pending_block]; rewrite ?sumZ_cons, ?i64_add_l;
      (eapply i64_shift; [exact I1|lia]).
  - step_cases Hstep; report_cases; unfold executed_txs in *;
      sum_simpl; cbn [pending_tx]; rewrite ?sumZ_cons, ?i64_add_l;
      (eapply i64_shift; [exact I2|lia]).
  - step_cases Hstep; try done; apply i64_range.
  - step_cases Hstep; try done; apply i64_range.
Qed.

Lemma exited_lookup (l : list (Worker (E:=E))) i wk :
  forallb exited l = true -> l !! i = Some wk -> wk = WExited.
Proof.
  intros Hall Hi. rewrite forallb_forall in Hall.
  assert (exited wk = true) as Hwk.
  { apply Hall. apply list_elem_of_In. apply list_elem_of_lookup. eauto. }
  by destruct wk.
Qed.

Lemma forallb_exited_pending (l : list (Worker (E:=E))) :
  forallb exited l = true ->
  sumZ pending_block l = 0 /\ sumZ pending_tx l = 0.
Proof.
  induction l as [|wk l IH]; [done|]. cbn [forallb]. intros [Hwk Hl]%andb_true_iff.
  rewrite !sumZ_cons. destruct (IH Hl) as [-> ->]. by destruct wk.
Qed.

(** Once the coordinator is past [wg.Wait()] every goroutine has
    returned, and nothing moves after the summary. *)
Lemma final_inv_reachable w s :
  reachable w s ->
  (forall r, coord s = CSummary r \/ coord s = CDone r ->
     producer s = PExited /\ forallb exited (workers s) = true) /\
  (forall r, coord s = CDone r ->
     exists d bps tps older,
       trace s = EvPrint (OutSummary (First segment) (Last segment)
                   (totalNumBlock s) (totalNumTx s) bps tps d) :: older).
Proof.
  intros Hr. pattern s. revert s Hr. apply reachable_ind.
  { split; intros r; simpl; [intros [?|?]|]; done. }
  intros s0 a s' Hr0 [I1 I2] Hstep. split.
  - intros r Hc.
    step_cases Hstep;
      try (destruct Hc; congruence);
      try (destruct (I1 r) as [Hp Hw]; [done|];
           first [congruence
                 |match goal with H : workers _ !! _ = Some _ |- _ =>
                    apply (exited_lookup _ _ _ Hw) in H; discriminate
                  end
                 |done]).
    all: try done.
    all: eapply I1; by left.
  - intros r Hc.
    step_cases Hstep; try congruence.
    all: try (destruct (I1 r) as [Hp Hw]; [by right|];
           first [congruence
                 |match goal with H : workers _ !! _ = Some _ |- _ =>
                    apply (exited_lookup _ _ _ Hw) in H; discriminate
                  end]).
    all: try (destruct (I2 r Hc) as (? & ? & ? & ? & ?); congruence).
    by eexists _, _, _, _.
Qed.

End Counters.

Ltac sum_simpl :=
  repeat match goal with
  | H : ?l !! ?i = Some _ |- context [sumZ ?f (<[?i := _]> ?l)] =>
      rewrite (sumZ_insert f l i _ _ H)
  | |- context [sumZ _ (_ ++ _)] => rewrite sumZ_app
  | |- context [sumZ _ (_ :: _)] => rewrite sumZ_cons
  | |- context [sumZ _ []] => rewrite sumZ_nil
  end.

Section Ranges.

Context {W E : Type}.
Variable pool : SubstateTaskPool W E.
Variable segment : BlockSegment.
Variable numWorkers : Z.

Local Abbreviation step := (step pool segment numWorkers).
Local Abbreviation reachable := (reachable pool segment numWorkers).

Local Abbreviation State := (Sys (W:=W) (E:=E)).

Hypothesis First_u64 : is_u64 (First segment).
Hypothesis Last_below_max : Last segment < max_uint64.

(** The indicator of a proposition. *)
Definition ind (P : Prop) `{Decision P} : Z := if decide P then 1 else 0.

(** The block a worker holds. *)
Definition held (wk : Worker (E:=E)) : option Z :=
  match wk with
  | WExec b _ _ | WAddTx b _ _ | WAddBlock b _ | WSend b _ => Some b
  | WIdle | WExited => None
  end.

Definition done_block (data : Done (E:=E)) : option Z :=
  match data with
  | DoneBlock b => Some b
  | DoneErr _ => None
  end.

(** How often block [b] is on its way: in [workChan], with a worker, in
    [doneChan] or in [waitMap]. *)
Definition occ (s : Sys (W:=W) (E:=E)) (b : Z) : Z :=
  sumZ (fun x => ind (x = b)) (workChan s)
  + sumZ (fun wk => ind (held wk = Some b)) (workers s)
  + sumZ (fun data => ind (done_block data = Some b)) (doneChan s)
  + ind (b ∈ waitMap s).

Lemma occ_nonneg (s : State) b : 0 <= occ s b.
Proof.
  unfold occ, ind.
  pose proof (sumZ_nonneg (fun x => if decide (x = b) then 1 else 0) (workChan s)
    ltac:(intros; cbv beta; case_decide; lia)).
  pose proof (sumZ_nonneg (fun wk : Worker (E:=E) => if decide (held wk = Some b) then 1 else 0) (workers s)
    ltac:(intros; cbv beta; case_decide; lia)).
  pose proof (sumZ_nonneg (fun data : Done (E:=E) => if decide (done_block data = Some b) then 1 else 0) (doneChan s)
    ltac:(intros; cbv beta; case_decide; lia)).
  case_decide; lia.
Qed.

Lemma sumZ_ge_1 {A} (f : A -> Z) l x :
  (forall y, 0 <= f y) -> x ∈ l -> 1 <= f x -> 1 <= sumZ f l.
Proof.
  intros Hf Hx H1. induction l as [|a l IH]; [by apply elem_of_nil in Hx|].
  rewrite sumZ_cons. pose proof (sumZ_nonneg f l Hf). specialize (Hf a).
  apply elem_of_cons in Hx as [->|Hx]; [lia|]. specialize (IH Hx). lia.
Qed.

Lemma ind_nonneg (P : Prop) `{Decision P} : 0 <= ind P.
Proof. unfold ind. case_decide; lia. Qed.

Lemma ind_true (P : Prop) `{Decision P} : P -> ind P = 1.
Proof. unfold ind. by case_decide. Qed.

Lemma ind_false (P : Prop) `{Decision P} : ~ P -> ind P = 0.
Proof. unfold ind. by case_decide. Qed.

Lemma ind_difference (wm : gset Z) b x :
  ind (b ∈ wm ∖ {[x]}) = if decide (b = x) then 0 else ind (b ∈ wm).
Proof.
  clear First_u64 Last_below_max.
  unfold ind. repeat case_decide; try done; exfalso; set_solver.
Qed.

Lemma ind_union (wm : gset Z) b x :
  ind (b ∈ {[x]} ∪ wm) = if decide (b = x) then 1 else ind (b ∈ wm).
Proof.
  clear First_u64 Last_below_max.
  unfold ind. repeat case_decide; try done; exfalso; set_solver.
Qed.

Lemma occ_parts (s : State) b :
  0 <= sumZ (fun x => ind (x = b)) (workChan s) /\
  0 <= sumZ (fun wk : Worker (E:=E) => ind (held wk = Some b)) (workers s) /\
  0 <= sumZ (fun data : Done (E:=E) => ind (done_block data = Some b)) (doneChan s) /\
  0 <= ind (b ∈ waitMap s).
Proof.
  repeat split; try apply sumZ_nonneg; intros; apply ind_nonneg.
Qed.

Lemma occ_wait (s : State) b : b ∈ waitMap s -> 1 <= occ s b.
Proof.
  intros Hb. unfold occ. destruct (occ_parts s b) as (? & ? & ? & ?).
  rewrite (ind_true (b ∈ waitMap s)) by done. lia.
Qed.

Lemma occ_work (s : State) b : b ∈ workChan s -> 1 <= occ s b.
Proof.
  intros Hb. unfold occ. destruct (occ_parts s b) as (? & ? & ? & ?).
  pose proof (sumZ_ge_1 (fun x => ind (x = b)) (workChan s) b
    ltac:(intros; apply ind_nonneg) Hb ltac:(cbv beta; by rewrite ind_true)). lia.
Qed.

Lemma occ_held (s : State) i wk b : workers s !! i = Some wk -> held wk = Some b -> 1 <= occ s b.
Proof.
  intros Hi Hb. unfold occ. destruct (occ_parts s b) as (? & ? & ? & ?).
  pose proof (sumZ_ge_1 (fun wk : Worker (E:=E) => ind (held wk = Some b)) (workers s) wk
    ltac:(intros; apply ind_nonneg) ltac:(apply list_elem_of_lookup; eauto)
    ltac:(cbv beta; by rewrite ind_true)). lia.
Qed.

Lemma occ_done (s : State) b : DoneBlock b ∈ doneChan s -> 1 <= occ s b.
Proof.
  intros Hb. unfold occ. destruct (occ_parts s b) as (? & ? & ? & ?).
  pose proof (sumZ_ge_1 (fun data : Done (E:=E) => ind (done_block data = Some b)) (doneChan s)
    (DoneBlock b) ltac:(intros; apply ind_nonneg) Hb ltac:(cbv beta; by rewrite ind_true)). lia.
Qed.

Lemma u64_succ_small x : 0 <= x -> x < max_uint64 -> u64 (x + 1) = x + 1.
Proof. intros. apply u64_id. unfold is_u64. lia. Qed.

Record range_inv (s : Sys (W:=W) (E:=E)) : Prop := {
  ri_producer : forall p, producer s = PLoop p ->
    First segment <= p <= Z.max (First segment) (Last segment + 1) /\
    block s <= p;
  ri_block : First segment <= block s <= Z.max (First segment) (Last segment + 1);
  ri_produced : forall b, EvProduced b ∈ trace s ->
    First segment <= b <= Last segment /\
    forall p, producer s = PLoop p -> b < p;
  ri_once : forall b, occ s b <= 1;
  ri_ahead : forall b, 1 <= occ s b -> block s <= b /\ EvProduced b ∈ trace s
}.

Lemma range_inv_reachable w s : reachable w s -> range_inv s.
Proof.
  intros Hr. pattern s. revert s Hr. apply reachable_ind.
  { split; simpl.
    - intros p [= <-]. lia.
    - lia.
    - intros b Hb. inv_simpl.
    - intros b. unfold occ, ind. simpl. rewrite sumZ_replicate. simpl.
      repeat case_decide; try set_solver; rewrite ?sumZ_nil; lia.
    - intros b. unfold occ, ind. simpl. rewrite sumZ_replicate. simpl.
      repeat case_decide; try set_solver; rewrite ?sumZ_nil; lia. }
  intros s0 a s' Hr0 [I1 I2 I3 I4 I5] Hstep.
  split.
  - intros p0 Hp0. unfold is_u64 in First_u64.
    step_cases Hstep; simplify_eq; eauto; try congruence.
    + destruct (I1 _ eq_refl). rewrite u64_succ_small by lia. lia.
    + destruct (I1 _ Hp0). rewrite u64_succ_small by lia.
      match goal with H : _ ∈ waitMap _ |- _ =>
        apply occ_wait, I5 in H as [_ Hprod]; apply I3 in Hprod as [_ Hlt] end.
      specialize (Hlt _ Hp0). lia.
  - unfold is_u64 in First_u64. step_cases Hstep; simplify_eq; eauto.
    rewrite u64_succ_small by lia. lia.
  - intros b Hb. unfold is_u64 in First_u64.
    step_cases Hstep; report_cases; inv_simpl; eauto; try congruence.
    + destruct (I1 _ eq_refl) as [? ?]. split; [lia|].
      intros p [= <-]. rewrite u64_succ_small by lia. lia.
    + destruct (I3 _ Hb) as [? Hlt]. split; [done|].
      destruct (I1 _ eq_refl) as [? ?]. specialize (Hlt _ eq_refl).
      intros p [= <-]. rewrite u64_succ_small by lia. lia.
    + destruct (I3 _ Hb) as [? Hlt]. split; [done|]. intros p [=].
    + destruct (I3 _ Hb) as [? Hlt]. split; [done|]. intros p [=].
    + destruct (I3 _ Hb) as [? Hlt]. split; [done|]. intros p Hp. congruence.
  - (* once *)
    assert (forall p, producer s0 = PLoop p -> occ s0 p = 0) as Hfresh.
    { intros p Hp. pose proof (occ_nonneg s0 p).
      destruct (decide (1 <= occ s0 p)) as [Hocc|]; [|lia].
      destruct (I5 p Hocc) as [_ Hprod]. destruct (I3 p Hprod) as [_ Hlt].
      specialize (Hlt p Hp). lia. }
    intros b. pose proof (I4 b) as Hb. pose proof (I5 b) as Hb'.
    unfold is_u64 in First_u64.
    step_cases Hstep; eauto.
    all: try specialize (Hfresh _ eq_refl).
    all: unfold occ in *; cbn -[report sumZ] in *; autorewrite with sched in *.
    all: repeat match goal with H : workChan _ = _ |- _ => rewrite H in * end.
    all: repeat match goal with H : doneChan _ = _ |- _ => rewrite H in * end.
    all: sum_simpl; rewrite ?sumZ_cons, ?sumZ_nil, ?ind_difference, ?ind_union in *;
      unfold ind in *;
      cbn [held done_block] in *; repeat case_decide; simplify_eq; try lia; try done.
  - (* ahead *)
    assert (forall p, producer s0 = PLoop p -> occ s0 p = 0) as Hfresh.
    { intros p Hp. pose proof (occ_nonneg s0 p).
      destruct (decide (1 <= occ s0 p)) as [Hocc|]; [|lia].
      destruct (I5 p Hocc) as [_ Hprod]. destruct (I3 p Hprod) as [_ Hlt].
      specialize (Hlt p Hp). lia. }
    intros b Hocc. pose proof (I4 b) as Hb. pose proof (I5 b) as Hb'.
    pose proof I2 as Hcur.
    assert (forall p, producer s0 = PLoop p -> block s0 <= p) as Hprod.
    { intros p Hp. by destruct (I1 p Hp). }
    unfold is_u64 in First_u64.
    step_cases Hstep; eauto.
    all: try specialize (Hfresh _ eq_refl); try specialize (Hprod _ eq_refl).
    all: report_cases.
    all: unfold occ in *; cbn -[report sumZ] in *; autorewrite with sched in *.
    all: repeat match goal with H : workChan _ = _ |- _ => rewrite H in * end.
    all: repeat match goal with H : doneChan _ = _ |- _ => rewrite H in * end.
    all: repeat match goal with
         | H : ?l !! ?i = Some _, H' : context [sumZ ?f (<[?i := _]> ?l)] |- _ =>
             rewrite (sumZ_insert f l i _ _ H) in H'
         end.
    all: rewrite ?sumZ_app, ?sumZ_cons, ?sumZ_nil, ?ind_difference, ?ind_union in *;
      unfold ind in *;
      cbn [held done_block] in *; repeat case_decide; simplify_eq;
      try (exfalso; lia); try done.
    all: try (destruct Hb' as [Hle Hin]; [lia|]; split;
              [rewrite ?u64_succ_small by lia; lia
              |by eauto using list_elem_of_further, list_elem_of_here]).
    all: try (split; [lia|by left]).
Qed.

End Ranges.

Section Exit.

Context {W E : Type}.
Variable pool : SubstateTaskPool W E.
Variable segment : BlockSegment.
Variable numWorkers : Z.

Local Abbreviation step := (step pool segment numWorkers).
Local Abbreviation reachable := (reachable pool segment numWorkers).
Local Abbreviation State := (Sys (W:=W) (E:=E)).

Hypothesis First_u64 : is_u64 (First segment).
Hypothesis Last_u64 : is_u64 (Last segment).

(** The loop is left without an error only with the cursor past the
    last block. *)
Lemma exit_inv w (s : State) :
  reachable w s -> result s = Some None -> Last segment < block s.
Proof.
  intros Hr. pattern s. revert s Hr. apply reachable_ind; [done|].
  intros s0 a s' Hr0 IH Hstep Hres. unfold result in *.
  step_cases Hstep;
    repeat match goal with H : coord _ = _ |- _ => rewrite H in * end;
    simplify_eq; eauto.
Qed.

Lemma result_none_below_max w (s : State) :
  reachable w s -> result s = Some None -> Last segment < max_uint64.
Proof.
  intros Hr Hres. pose proof (exit_inv w s Hr Hres).
  pose proof (block_u64 pool segment numWorkers First_u64 w s Hr) as Hb.
  unfold is_u64 in *. lia.
Qed.

End Exit.

Section Measure.

Context {W E : Type}.
Variable pool : SubstateTaskPool W E.
Variable segment : BlockSegment.
Variable numWorkers : Z.

Local Abbreviation step := (step pool segment numWorkers).
Local Abbreviation reachable := (reachable pool segment numWorkers).
Local Abbreviation State := (Sys (W:=W) (E:=E)).

Hypothesis First_u64 : is_u64 (First segment).
Hypothesis Last_below_max : Last segment < max_uint64.

(** The steps that a block still costs, by where it is: every step of
    every goroutine uses up at least one. *)
Definition block_cost (b : Z) : Z :=
  8 + Z.of_nat (length (GetBlockSubstates (DB pool) b)).

Definition worker_cost (wk : Worker (E:=E)) : Z :=
  match wk with
  | WExited => 0
  | WIdle => 1
  | WSend _ _ => 5
  | WAddBlock _ _ => 6
  | WAddTx _ _ _ => 7
  | WExec _ entries _ => 8 + Z.of_nat (length entries)
  end.

Definition producer_cost (p : Producer) : Z :=
  match p with
  | PLoop b => 1 + sumZ (fun b => block_cost b + 1) (seqZ b (Last segment + 1 - b))
  | PExited => 0
  end.

Definition coord_cost (c : Coord (E:=E)) : Z :=
  match c with
  | CLoop => Z.max 0 (numWorkers + 1) + 4
  | CRecv => Z.max 0 (numWorkers + 1) + 3
  | CStop sent _ => Z.max 0 (numWorkers + 1 - sent) + 2
  | CSummary _ => 1
  | CDone _ => 0
  end.

Definition cost (s : State) : Z :=
  producer_cost (producer s)
  + sumZ block_cost (workChan s)
  + sumZ worker_cost (workers s)
  + 3 * Z.of_nat (length (doneChan s))
  + Z.of_nat (size (waitMap s))
  + coord_cost (coord s).

Lemma block_cost_pos b : 0 < block_cost b.
Proof. unfold block_cost. lia. Qed.

Lemma worker_cost_nonneg wk : 0 <= worker_cost wk.
Proof. destruct wk; simpl; lia. Qed.

Lemma producer_cost_nonneg p : 0 <= producer_cost p.
Proof.
  destruct p as [b|]; simpl; [|lia].
  pose proof (sumZ_nonneg (fun b => block_cost b + 1) (seqZ b (Last segment + 1 - b))
    ltac:(intros x; pose proof (block_cost_pos x); lia)). lia.
Qed.

Lemma coord_cost_nonneg c : 0 <= coord_cost c.
Proof. destruct c; simpl; lia. Qed.

Lemma cost_nonneg s : 0 <= cost s.
Proof.
  unfold cost.
  pose proof (producer_cost_nonneg (producer s)).
  pose proof (sumZ_nonneg block_cost (workChan s)
    ltac:(intros x; pose proof (block_cost_pos x); lia)).
  pose proof (sumZ_nonneg worker_cost (workers s) worker_cost_nonneg).
  pose proof (coord_cost_nonneg (coord s)). lia.
Qed.

Lemma size_insert_le (wm : gset Z) b : (size ({[b]} ∪ wm) <= S (size wm))%nat.
Proof.
  rewrite size_union_alt, size_singleton.
  pose proof (subseteq_size (wm ∖ {[b]}) wm ltac:(set_solver)). lia.
Qed.

Lemma size_remove (wm : gset Z) b : b ∈ wm -> S (size (wm ∖ {[b]})) = size wm.
Proof.
  intros Hb. rewrite size_difference by set_solver. rewrite size_singleton.
  assert (size wm <> 0%nat); [|lia].
  intros H0. apply size_empty_inv in H0. set_solver.
Qed.

(** Every step uses up cost. *)
Lemma step_cost w (s : State) a s' :
  reachable w s -> step s a = Some s' -> cost s' < cost s.
Proof.
  intros Hr Hstep.
  destruct (range_inv_reachable pool segment numWorkers First_u64 Last_below_max w s Hr)
    as [I1 _ _ _ _].
  unfold is_u64 in First_u64. unfold cost.
  step_cases Hstep.
  all: repeat match goal with H : workChan _ = _ |- _ => rewrite H in * end.
  all: repeat match goal with H : doneChan _ = _ |- _ => rewrite H in * end.
  all: repeat match goal with H : producer _ = _ |- _ => rewrite H in * end.
  all: repeat match goal with H : coord _ = _ |- _ => rewrite H in * end.
  all: sum_simpl; rewrite ?length_app; cbn [length producer_cost worker_cost coord_cost].
  all: try lia.
  - match goal with H : producer _ = PLoop ?p |- _ =>
      destruct (I1 _ eq_refl) as [[? _] _]; rewrite u64_succ_small by lia;
      rewrite (seqZ_cons p) by lia; rewrite sumZ_cons;
      replace (Z.succ p) with (p + 1) by lia;
      replace (Z.pred (Last segment + 1 - p)) with (Last segment + 1 - (p + 1)) by lia
    end.
    lia.
  - match goal with H : producer _ = PLoop ?p |- _ =>
      pose proof (sumZ_nonneg (fun b => block_cost b + 1) (seqZ p (Last segment + 1 - p))
        ltac:(intros x; pose proof (block_cost_pos x); lia))
    end. lia.
  - match goal with H : producer _ = PLoop ?p |- _ =>
      pose proof (sumZ_nonneg (fun b => block_cost b + 1) (seqZ p (Last segment + 1 - p))
        ltac:(intros x; pose proof (block_cost_pos x); lia))
    end. lia.
  - unfold block_cost. lia.
  - match goal with H : _ ∈ waitMap _ |- _ => apply size_remove in H end. lia.
  - match goal with |- context [size ({[?b]} ∪ waitMap ?s)] =>
      pose proof (size_insert_le (waitMap s) b) end. lia.
Qed.

(** No run is longer than the cost of the state it starts in. *)
Lemma run_cost w (s : State) acts s' :
  reachable w s -> run_actions pool segment numWorkers s acts = Some s' ->
  Z.of_nat (length acts) <= cost s - cost s'.
Proof.
  revert s. induction acts as [|a acts IH]; intros s Hr Hrun; simpl in *.
  - simplify_eq. lia.
  - destruct (step s a) as [s1|] eqn:Hstep; [|done].
    pose proof (step_cost w s a s1 Hr Hstep).
    pose proof (IH s1 (reachable_step _ _ _ _ _ _ _ Hr Hstep) Hrun). lia.
Qed.

End Measure.

(* ===================================================================== *)
(** * Two runs of the model *)
(* ===================================================================== *)

Module Demo.

(** Blocks 7 and 8 on two workers. *)
Definition segment : BlockSegment := NewBlockSegment 7 8.

(** Creations are skipped: no call fails. *)
Definition pool_ok := Example.pool false false true.

(** Nothing is skipped: the creation of block 7 fails. *)
Definition pool_failing := Example.pool false false false.

(** Worker 0 takes block 7 and worker 1 block 8; block 7 is done first
    and the cursor reaches the last block before block 8 is done. *)
Definition schedule_ok : list Action :=
  [AProduce; AProduce; AProducerExit; AWorkerRecv 0; AWorkerRecv 1;
   AWorkerTx 0; AWorkerTx 1; AWorkerTx 0; AWorkerTx 0; AWorkerTx 0;
   AWorkerReturn 0; AWorkerAddTx 0; AWorkerAddBlock 0; AWorkerSend 0;
   ACoordCheck 5; ACoordRecv; ACoordAdvance;
   AWorkerReturn 1; AWorkerAddTx 1; AWorkerAddBlock 1;
   ACoordCheck 8000000000; AWorkerSend 1; ACoordRecv; ACoordAdvance;
   ACoordExit;
   ACoordSendStop; ACoordSendStop; AWorkerStop 0; ACoordSendStop; AWorkerStop 1;
   ACoordWait; ACoordSummary 16000000000].

(** Worker 0 fails on block 7; the producer is stopped before block 8. *)
Definition schedule_failing : list Action :=
  [AProduce; AWorkerRecv 0; AWorkerTx 0; AWorkerTx 0; AWorkerTx 0;
   AWorkerAddTx 0; AWorkerAddBlock 0; AWorkerSend 0;
   ACoordCheck 5; ACoordRecv;
   ACoordSendStop; ACoordSendStop; AWorkerStop 0; AProducerStop;
   ACoordSendStop; AWorkerStop 1;
   ACoordWait; ACoordSummary 8000000000].

Definition start : Sys (W:=list (Z * Z)) (E:=string) := init segment 2 [].

Definition final_ok : Sys :=
  default start (run_actions pool_ok segment 2 start schedule_ok).

Definition final_failing : Sys :=
  default start (run_actions pool_failing segment 2 start schedule_failing).

(** The segment of the largest block alone: the producer wraps around
    and goes on with block 0. *)
Definition segment_max : BlockSegment := NewBlockSegment max_uint64 max_uint64.

Definition wrapped : Sys (W:=list (Z * Z)) (E:=string) :=
  default start
    (run_actions pool_ok segment_max 2 (init segment_max 2 []) [AProduce; AProduce]).

Lemma reachable_ok : reachable pool_ok segment 2 [] final_ok.
Proof. exists schedule_ok. vm_compute. reflexivity. Qed.

Lemma reachable_failing : reachable pool_failing segment 2 [] final_failing.
Proof. exists schedule_failing. vm_compute. reflexivity. Qed.

Lemma First_u64 : is_u64 (First segment).
Proof. unfold is_u64, max_uint64. simpl. lia. Qed.

Lemma Last_below_max : Last segment < max_uint64.
Proof. reflexivity. Qed.

End Demo.

(* ===================================================================== *)
(** * ExecuteSegment: what every run keeps *)
(* ===================================================================== *)

Section Progress.

Context {W E : Type}.
Variable pool : SubstateTaskPool W E.
Variable segment : BlockSegment.
Variable numWorkers : Z.

Local Abbreviation step := (step pool segment numWorkers).
Local Abbreviation reachable := (reachable pool segment numWorkers).
Local Abbreviation State := (Sys (W:=W) (E:=E)).

Hypothesis First_u64 : is_u64 (First segment).

(** A completion is received after the block was executed without an
    error. *)
Lemma received_after_executed w (s : State) :
  reachable w s ->
  forall newer older b,
    trace s = newer ++ EvReceived (DoneBlock b) :: older ->
    exists n, EvExecuted b n None ∈ older.
Proof.
  intros Hr. pattern s. revert s Hr. apply reachable_ind.
  { intros [|? [|? [|? ?]]] older b Heq; simplify_eq. }
  intros s0 a s' Hr0 IH Hstep.
  destruct (trace_inv_reachable pool segment numWorkers First_u64 w s0 Hr0)
    as [_ _ _ I4 _].
  intros [|ev newer] older b Heq; simpl in Heq.
  - step_cases Hstep; report_cases; simplify_eq; try (by eapply (IH [])).
    apply I4. by left.
  - destruct (step_trace pool segment numWorkers s0 a s' Hstep) as [Htr|(ev' & Htr & _)];
      rewrite Htr in Heq.
    + by eapply (IH (ev :: newer)).
    + simplify_eq. by eapply IH.
Qed.

(** The cursor never moves back and no progress line carries a number
    above it. *)
Lemma progress_below_cursor w (s : State) :
  Last segment < max_uint64 ->
  reachable w s ->
  forall el c r1 r2, EvPrint (OutProgress el c r1 r2) ∈ trace s -> c <= block s.
Proof.
  intros Hmax Hr. pattern s. revert s Hr. apply reachable_ind.
  { intros el c r1 r2 Hin. inv_simpl. }
  intros s0 a s' Hr0 IH Hstep el c r1 r2 Hin.
  destruct (range_inv_reachable pool segment numWorkers First_u64 Hmax w s0 Hr0)
    as [_ I2 _ _ _].
  unfold is_u64 in First_u64.
  step_cases Hstep; inv_simpl; eauto; try lia.
  rewrite u64_succ_small by lia. specialize (IH _ _ _ _ Hin). lia.
Qed.

(** Progress lines carry blocks of the segment, in ascending order. *)
Lemma progress_ordered w (s : State) :
  Last segment < max_uint64 ->
  reachable w s ->
  forall newer older el c r1 r2,
    trace s = newer ++ EvPrint (OutProgress el c r1 r2) :: older ->
    First segment <= c <= Last segment /\
    forall el' c' r1' r2', EvPrint (OutProgress el' c' r1' r2') ∈ older -> c' <= c.
Proof.
  intros Hmax Hr. pattern s. revert s Hr. apply reachable_ind.
  { intros [|? [|? [|? ?]]] older el c r1 r2 Heq; simplify_eq. }
  intros s0 a s' Hr0 IH Hstep newer older el c r1 r2 Heq.
  destruct (range_inv_reachable pool segment numWorkers First_u64 Hmax w s0 Hr0)
    as [_ I2 _ _ _].
  pose proof (progress_below_cursor w s0 Hmax Hr0) as Hbelow.
  destruct (step_trace pool segment numWorkers s0 a s' Hstep) as [Htr|(ev & Htr & Hev)];
    rewrite Htr in Heq; [by eapply IH|].
  destruct newer as [|ev' newer]; simpl in Heq; simplify_eq; [|by eapply IH].
  split; [|intros; by eapply Hbelow].
  step_cases Hstep; report_cases; simplify_eq;
    try match goal with H : trace ?s = _ :: trace ?s |- _ =>
          apply (f_equal length) in H; simpl in H; lia end.
  lia.
Qed.

End Progress.

Section Theorems.

Context {W E : Type}.
Variable pool : SubstateTaskPool W E.
Variable segment : BlockSegment.
Variable numWorkers : Z.

Local Abbreviation step := (step pool segment numWorkers).
Local Abbreviation reachable := (reachable pool segment numWorkers).
Local Abbreviation State := (Sys (W:=W) (E:=E)).

(** X6. At every moment of every run of [ExecuteSegment], the completion
    of each block below the cursor has been received by the coordinator; a
    progress line with number [c] is printed only after the completions of
    all the blocks of the segment below [c] were received; and a
    completion is received only after [ExecuteBlock] returned without an
    error for that block. *)
Theorem ExecuteSegment_progress_in_order w (s : State) :
  is_u64 (First segment) ->
  reachable w s ->
  (forall b, First segment <= b < block s -> EvReceived (DoneBlock b) ∈ trace s) /\
  (forall newer older el c r1 r2,
     trace s = newer ++ EvPrint (OutProgress el c r1 r2) :: older ->
     forall b, First segment <= b < c -> EvReceived (DoneBlock b) ∈ older) /\
  (forall newer older b,
     trace s = newer ++ EvReceived (DoneBlock b) :: older ->
     exists n, EvExecuted b n None ∈ older).
Proof.
  intros HF Hr. split; [|split].
  - by destruct (trace_inv_reachable pool segment numWorkers HF w s Hr).
  - by destruct (ordered_log_reachable pool segment numWorkers HF w s Hr).
  - by apply (received_after_executed pool segment numWorkers HF w).
Qed.

(** X7. When the last block is below the largest [uint64], the cursor of
    the coordinator never moves back, and the numbers of the progress
    lines are blocks of the segment in ascending order. *)
Theorem ExecuteSegment_progress_monotone w (s : State) :
  is_u64 (First segment) ->
  Last segment < max_uint64 ->
  reachable w s ->
  (forall a s', step s a = Some s' -> block s <= block s') /\
  (forall newer older el c r1 r2,
     trace s = newer ++ EvPrint (OutProgress el c r1 r2) :: older ->
     First segment <= c <= Last segment /\
     forall el' c' r1' r2', EvPrint (OutProgress el' c' r1' r2') ∈ older -> c' <= c).
Proof.
  intros HF Hmax Hr. split.
  - intros a s' Hstep.
    destruct (range_inv_reachable pool segment numWorkers HF Hmax w s Hr)
      as [_ I2 _ _ _].
    unfold is_u64 in HF.
    step_cases Hstep; try lia. rewrite u64_succ_small by lia. lia.
  - by apply (progress_ordered pool segment numWorkers HF w).
Qed.

(** X8. The two counters count every return of [ExecuteBlock], with or
    without an error: at every moment they are, up to the additions that
    the workers are about to make, the number of calls that returned and
    the sum of the counts they returned, in [int64] arithmetic. When
    [ExecuteSegment] has returned, the summary is the last thing printed
    and shows these two totals. *)
Theorem ExecuteSegment_counts_every_return w (s : State) :
  reachable w s ->
  i64 (totalNumBlock s + sumZ pending_block (workers s))
    = i64 (executed_blocks (trace s)) /\
  i64 (totalNumTx s + sumZ pending_tx (workers s))
    = i64 (executed_txs (trace s)) /\
  forall r, coord s = CDone r ->
    exists d bps tps older,
      trace s = EvPrint (OutSummary (First segment) (Last segment)
                  (i64 (executed_blocks older)) (i64 (executed_txs older))
                  bps tps d) :: older.
Proof.
  intros Hr.
  destruct (counter_inv_reachable pool segment numWorkers w s Hr) as [I1 I2 I3 I4].
  split; [done|]. split; [done|]. intros r Hc.
  destruct (final_inv_reachable pool segment numWorkers w s Hr) as [F1 F2].
  destruct (F1 r (or_intror Hc)) as [_ Hall].
  destruct (forallb_exited_pending _ Hall) as [Hb Ht].
  destruct (F2 r Hc) as (d & bps & tps & older & Htr).
  exists d, bps, tps, older.
  rewrite Hb, Z.add_0_r, i64_id in I1 by done.
  rewrite Ht, Z.add_0_r, i64_id in I2 by done.
  rewrite Htr in I1, I2. unfold executed_blocks, executed_txs in *.
  rewrite sumZ_cons, Z.add_0_l in I1, I2.
  rewrite Htr. by rewrite <- I1, <- I2.
Qed.

(** X9. When the last block is below the largest [uint64], every run of
    [ExecuteSegment] is finite: the number of steps that its goroutines
    take together is bounded by the number of blocks and transactions of
    the segment and the number of workers. *)
Theorem ExecuteSegment_terminates w acts (s : State) :
  is_u64 (First segment) ->
  Last segment < max_uint64 ->
  run_actions pool segment numWorkers (init segment numWorkers w) acts = Some s ->
  Z.of_nat (length acts) <=
    5 + Z.max 0 numWorkers + Z.max 0 (numWorkers + 1)
    + sumZ (fun b => 9 + Z.of_nat (length (GetBlockSubstates (DB pool) b)))
        (seqZ (First segment) (Last segment + 1 - First segment)).
Proof.
  intros HF Hmax Hrun.
  pose proof (run_cost pool segment numWorkers HF Hmax w _ acts s
                (reachable_init pool segment numWorkers w) Hrun) as Hlen.
  pose proof (cost_nonneg pool segment numWorkers s) as Hs.
  assert (cost pool segment numWorkers (init segment numWorkers w) =
    5 + Z.max 0 numWorkers + Z.max 0 (numWorkers + 1)
    + sumZ (fun b => 9 + Z.of_nat (length (GetBlockSubstates (DB pool) b)))
        (seqZ (First segment) (Last segment + 1 - First segment))) as Hinit.
  { unfold cost. cbn -[sumZ seqZ]. rewrite sumZ_replicate, sumZ_nil. cbn [worker_cost].
    rewrite size_empty.
    rewrite (sumZ_ext (fun b => block_cost pool b + 1)
               (fun b => 9 + Z.of_nat (length (GetBlockSubstates (DB pool) b))))
      by (intros; unfold block_cost; lia).
    lia. }
  lia.
Qed.

(** X10. When the last block is the largest [uint64], [ExecuteSegment]
    never returns [nil]: the cursor wraps around before it can pass the
    last block. *)
Theorem ExecuteSegment_wrap_never_nil w (s : State) :
  is_u64 (First segment) ->
  Last segment = max_uint64 ->
  reachable w s ->
  result s <> Some None /\ block s <= Last segment.
Proof.
  intros HF Hmax Hr. pose proof (block_u64 pool segment numWorkers HF w s Hr) as Hb.
  split.
  - intros Hres.
    pose proof (result_none_below_max pool segment numWorkers HF w s Hr Hres). lia.
  - unfold is_u64 in Hb. lia.
Qed.

End Theorems.

Lemma ExecuteSegment_progress_in_order_witness :
  EvReceived (DoneBlock 7) ∈ trace Demo.final_ok /\
  EvReceived (E:=string) (DoneBlock 7)
    ∈ [EvExecuted 8 1 None; EvAdvanced 7; EvReceived (DoneBlock 7);
       EvExecuted 7 3 None; EvProduced 8; EvProduced 7;
       EvPrint (OutWorkers 2); EvPrint (OutSegment 7 8)].
Proof.
  assert (reachable Demo.pool_ok Demo.segment 2 [] Demo.final_ok) as Hr.
  { exists Demo.schedule_ok. vm_compute. reflexivity. }
  assert (is_u64 (First Demo.segment)) as HF.
  { unfold is_u64, max_uint64. simpl. lia. }
  destruct (ExecuteSegment_progress_in_order Demo.pool_ok Demo.segment 2 []
              Demo.final_ok HF Hr) as (Hcursor & Hlines & _).
  split.
  - apply Hcursor. vm_compute. split; [discriminate|reflexivity].
  - apply (Hlines [EvPrint (OutSummary 7 8 2 4 0.125%float 0.25%float 16000000000);
                   EvAdvanced 8; EvReceived (DoneBlock 8)]
             _ 8000000000 8 0.25%float 0.5%float).
    + vm_compute. reflexivity.
    + simpl. lia.
Defined.

Lemma ExecuteSegment_progress_monotone_witness :
  First Demo.segment <= 8 <= Last Demo.segment.
Proof.
  assert (reachable Demo.pool_ok Demo.segment 2 [] Demo.final_ok) as Hr.
  { exists Demo.schedule_ok. vm_compute. reflexivity. }
  assert (is_u64 (First Demo.segment)) as HF.
  { unfold is_u64, max_uint64. simpl. lia. }
  assert (Last Demo.segment < max_uint64) as Hmax by reflexivity.
  destruct (ExecuteSegment_progress_monotone Demo.pool_ok Demo.segment 2 []
              Demo.final_ok HF Hmax Hr) as [_ Hlines].
  apply (Hlines [EvPrint (OutSummary 7 8 2 4 0.125%float 0.25%float 16000000000);
                 EvAdvanced 8; EvReceived (DoneBlock 8)]
           [EvExecuted 8 1 None; EvAdvanced 7; EvReceived (DoneBlock 7);
            EvExecuted 7 3 None; EvProduced 8; EvProduced 7;
            EvPrint (OutWorkers 2); EvPrint (OutSegment 7 8)]
           8000000000 8 0.25%float 0.5%float).
  vm_compute. reflexivity.
Defined.

Lemma ExecuteSegment_counts_every_return_witness :
  exists d bps tps older,
    trace Demo.final_failing =
      EvPrint (OutSummary 7 8 (i64 (executed_blocks older))
                 (i64 (executed_txs older)) bps tps d) :: older.
Proof.
  assert (reachable Demo.pool_failing Demo.segment 2 [] Demo.final_failing) as Hr.
  { exists Demo.schedule_failing. vm_compute. reflexivity. }
  destruct (ExecuteSegment_counts_every_return Demo.pool_failing Demo.segment 2 []
              Demo.final_failing Hr) as (_ & _ & Hsum).
  apply (Hsum (Some {| err_pool := "example"%string; err_block := 7; err_tx := 2;
                       err_cause := "creation"%string |})).
  vm_compute. reflexivity.
Defined.

Lemma ExecuteSegment_terminates_witness :
  Z.of_nat (length Demo.schedule_ok) <= 33.
Proof.
  assert (is_u64 (First Demo.segment)) as HF.
  { unfold is_u64, max_uint64. simpl. lia. }
  assert (Last Demo.segment < max_uint64) as Hmax by reflexivity.
  assert (run_actions Demo.pool_ok Demo.segment 2 (init Demo.segment 2 [])
            Demo.schedule_ok = Some Demo.final_ok) as Hrun.
  { vm_compute. reflexivity. }
  exact (ExecuteSegment_terminates Demo.pool_ok Demo.segment 2 []
           Demo.schedule_ok Demo.final_ok HF Hmax Hrun).
Defined.

Lemma ExecuteSegment_wrap_never_nil_witness :
  result Demo.wrapped <> Some None /\ block Demo.wrapped <= max_uint64.
Proof.
  apply (ExecuteSegment_wrap_never_nil Demo.pool_ok Demo.segment_max 2 [] Demo.wrapped).
  - vm_compute. split; discriminate.
  - reflexivity.
  - exists [AProduce; AProduce]. vm_compute. reflexivity.
Defined.

(* ===================================================================== *)
(** * ExecuteSegment: where the blocks go *)
(* ===================================================================== *)

Section Flow.

Context {W E : Type}.
Variable pool : SubstateTaskPool W E.
Variable segment : BlockSegment.
Variable numWorkers : Z.

Local Abbreviation step := (step pool segment numWorkers).
Local Abbreviation reachable := (reachable pool segment numWorkers).
Local Abbreviation State := (Sys (W:=W) (E:=E)).

(** How often block [b] was sent to the workers, and how often
    [ExecuteBlock] has returned for it. *)
Definition produced_n (tr : list (Event (E:=E))) (b : Z) : Z :=
  sumZ (fun ev => match ev with EvProduced x => ind (x = b) | _ => 0 end) tr.

Definition executed_n (tr : list (Event (E:=E))) (b : Z) : Z :=
  sumZ (fun ev => match ev with EvExecuted x _ _ => ind (x = b) | _ => 0 end) tr.

(** A worker is inside [ExecuteBlock] for block [b]. *)
Definition executing (b : Z) (wk : Worker (E:=E)) : Z :=
  match wk with
  | WExec x _ _ => ind (x = b)
  | _ => 0
  end.

Lemma produced_n_nonneg tr b : 0 <= produced_n tr b.
Proof. apply sumZ_nonneg. intros [| | | |]; try lia; intros; apply ind_nonneg. Qed.


Lemma executing_nonneg b wk : 0 <= executing b wk.
Proof. destruct wk; simpl; try lia; apply ind_nonneg. Qed.

Lemma produced_n_pos tr b : EvProduced b ∈ tr -> 1 <= produced_n tr b.
Proof.
  intros Hin. unfold produced_n.
  eapply (sumZ_ge_1 _ tr (EvProduced b)); [|done|].
  - intros [| | | |]; try lia; intros; apply ind_nonneg.
  - cbv beta. by rewrite ind_true.
Qed.

Lemma produced_n_zero tr b : EvProduced b ∉ tr -> produced_n tr b = 0.
Proof.
  unfold produced_n. induction tr as [|ev tr IH]; intros Hnot; [done|].
  rewrite sumZ_cons, IH by (intros Hin; apply Hnot; by right).
  destruct ev; try done. rewrite ind_false; [done|].
  intros ->. apply Hnot. by left.
Qed.

Lemma executed_n_pos tr b n e : EvExecuted b n e ∈ tr -> 1 <= executed_n tr b.
Proof.
  intros Hin. unfold executed_n.
  eapply (sumZ_ge_1 _ tr (EvExecuted b n e)); [|done|].
  - intros [| | | |]; try lia; intros; apply ind_nonneg.
  - cbv beta. by rewrite ind_true.
Qed.

(** Two returns of [ExecuteBlock] for one block count twice. *)
Lemma executed_n_two tr b n1 e1 n2 e2 :
  EvExecuted b n1 e1 ∈ tr -> EvExecuted b n2 e2 ∈ tr ->
  (n1, e1) <> (n2, e2) -> 2 <= executed_n tr b.
Proof.
  induction tr as [|ev tr IH]; intros H1 H2 Hne; [by apply elem_of_nil in H1|].
  unfold executed_n in *. rewrite sumZ_cons.
  apply elem_of_cons in H1 as [<-|H1]; apply elem_of_cons in H2 as [H2|H2].
  - congruence.
  - rewrite ind_true by done. pose proof (executed_n_pos tr b n2 e2 H2).
    unfold executed_n in *. lia.
  - subst ev. rewrite ind_true by done. pose proof (executed_n_pos tr b n1 e1 H1).
    unfold executed_n in *. lia.
  - specialize (IH H1 H2 Hne).
    assert (0 <= match ev with EvExecuted x _ _ => ind (x = b) | _ => 0 end).
    { destruct ev; try lia; apply ind_nonneg. }
    lia.
Qed.

(** Every block sent to the workers is waiting in [workChan], being
    executed, or executed; and nothing else is. *)
Definition flow (s : State) (b : Z) : Z :=
  sumZ (fun x => ind (x = b)) (workChan s)
  + sumZ (executing b) (workers s)
  + executed_n (trace s) b.

Lemma flow_conserved w (s : State) :
  reachable w s -> forall b, flow s b = produced_n (trace s) b.
Proof.
  intros Hr. pattern s. revert s Hr. apply reachable_ind.
  { intros b. unfold flow, produced_n, executed_n. simpl.
    rewrite sumZ_replicate. simpl. rewrite !sumZ_cons, !sumZ_nil. lia. }
  intros s0 a s' Hr0 IH Hstep b. specialize (IH b).
  unfold flow, produced_n, executed_n in *.
  step_cases Hstep; report_cases; eauto.
  all: repeat match goal with H : workChan _ = _ |- _ => rewrite H in * end.
  all: sum_simpl; rewrite ?sumZ_cons in IH; cbn [executing];
    unfold ind in *; repeat case_decide; simplify_eq; lia.
Qed.

End Flow.

Section Completion.

Context {W E : Type}.
Variable pool : SubstateTaskPool W E.
Variable segment : BlockSegment.
Variable numWorkers : Z.

Local Abbreviation step := (step pool segment numWorkers).
Local Abbreviation reachable := (reachable pool segment numWorkers).
Local Abbreviation State := (Sys (W:=W) (E:=E)).

(** The transactions of a block that [ExecuteBlock] counts when every
    call succeeds. *)
Definition block_txs (b : Z) : Z :=
  Z.of_nat (length (processed pool (GetBlockSubstates (DB pool) b))).

Lemma loop_body_continue b entry n w n' w' :
  loop_body pool b entry n w = Continue n' w' ->
  (skipped pool entry.2 = true /\ n' = n /\ w' = w) \/
  (skipped pool entry.2 = false /\ n' = i64 (n + 1) /\
   TaskFunc pool b entry.1 entry.2 w = (w', None)).
Proof.
  unfold loop_body. destruct entry as [tx substate]. simpl.
  destruct (skipped pool substate) eqn:Hs.
  - intros [= <- <-]. by left.
  - destruct (TaskFunc pool b tx substate w) as [w1 [e1|]] eqn:Ht; [done|].
    intros [= <- <-]. by right.
Qed.

Lemma processed_snoc pre (entry : Z * Substate) :
  processed pool (pre ++ [entry]) =
  processed pool pre ++ (if skipped pool entry.2 then [] else [entry]).
Proof.
  rewrite processed_app. f_equal. unfold processed. simpl.
  by destruct (skipped pool entry.2).
Qed.

(** The count of a worker inside [ExecuteBlock] is the number of the
    transactions it has passed and not skipped; without an error the
    count returned is that of the whole block. *)
Lemma count_inv w (s : State) :
  reachable w s ->
  (forall i b entries n, workers s !! i = Some (WExec b entries n) ->
     exists pre, GetBlockSubstates (DB pool) b = pre ++ entries /\
       n = i64 (Z.of_nat (length (processed pool pre)))) /\
  (forall b n, EvExecuted b n None ∈ trace s -> n = i64 (block_txs b)).
Proof.
  intros Hr. pattern s. revert s Hr. apply reachable_ind.
  { split.
    - intros i b entries n Hi. by apply lookup_replicate in Hi as [? _].
    - intros b n Hin. inv_simpl. }
  intros s0 a s' Hr0 [I1 I2] Hstep. split.
  - step_cases Hstep; intros; inv_simpl; eauto.
    + by exists [].
    + edestruct I1 as (pre & Hpre & Hn); [done|].
      match goal with H : loop_body _ _ ?p _ _ = Continue _ _ |- _ =>
        exists (pre ++ [p]); apply loop_body_continue in H
          as [(Hs & -> & ->)|(Hs & -> & Hc)] end.
      all: split; [by rewrite <- app_assoc|].
      all: rewrite processed_snoc, Hs.
      * by rewrite app_nil_r.
      * rewrite length_app. simpl. rewrite Hn, i64_add_l. f_equal. lia.
  - step_cases Hstep; intros; inv_simpl; eauto.
    edestruct I1 as (pre & Hpre & Hn); [done|].
    rewrite app_nil_r in Hpre. unfold block_txs. by rewrite Hpre.
Qed.

Hypothesis First_u64 : is_u64 (First segment).
Hypothesis Last_below_max : Last segment < max_uint64.

Lemma produced_n_elem tr b : 1 <= produced_n (E:=E) tr b -> EvProduced b ∈ tr.
Proof.
  unfold produced_n. induction tr as [|ev tr IH]; [rewrite sumZ_nil; lia|].
  rewrite sumZ_cons. intros Hn.
  destruct ev; try (right; apply IH; lia).
  unfold ind in *. case_decide; [subst; by left|right; apply IH; lia].
Qed.

(** No block is sent to the workers twice. *)
Lemma produced_once w (s : State) :
  reachable w s -> forall b, produced_n (trace s) b <= 1.
Proof.
  intros Hr. pattern s. revert s Hr. apply reachable_ind.
  { intros b. unfold produced_n. simpl. rewrite !sumZ_cons, sumZ_nil. lia. }
  intros s0 a s' Hr0 IH Hstep b. specialize (IH b).
  destruct (range_inv_reachable pool segment numWorkers First_u64 Last_below_max w s0 Hr0)
    as [_ _ I3 _ _].
  unfold produced_n in *.
  step_cases Hstep; report_cases; eauto.
  all: rewrite ?sumZ_cons; try lia.
  match goal with H : producer _ = PLoop ?p |- _ =>
    destruct (decide (p = b)) as [Heq|Hne] end.
  - subst. assert (produced_n (E:=E) (trace s0) b = 0) as Hz.
    { apply produced_n_zero. intros Hin. apply I3 in Hin as [_ Hlt].
      specialize (Hlt _ eq_refl). lia. }
    unfold produced_n in Hz. rewrite Hz, ind_true by done. lia.
  - rewrite ind_false by done. lia.
Qed.

(** [ExecuteBlock] is called for the blocks of the segment only, and at
    most once for each. *)
Lemma executed_once w (s : State) :
  reachable w s ->
  forall b, executed_n (trace s) b <= 1 /\
    (1 <= executed_n (trace s) b -> First segment <= b <= Last segment).
Proof.
  intros Hr b.
  pose proof (flow_conserved pool segment numWorkers w s Hr b) as Hflow.
  pose proof (produced_once w s Hr b) as Honce.
  destruct (range_inv_reachable pool segment numWorkers First_u64 Last_below_max w s Hr)
    as [_ _ I3 _ _].
  unfold flow in Hflow.
  pose proof (sumZ_nonneg (fun x => ind (x = b)) (workChan s)
    ltac:(intros; apply ind_nonneg)).
  pose proof (sumZ_nonneg (executing (E:=E) b) (workers s) (executing_nonneg b)).
  split; [lia|]. intros Hex. apply I3, produced_n_elem. lia.
Qed.

(** What holds when the loop of the coordinator was left without an
    error. *)
Lemma nil_result_state w (s : State) :
  reachable w s -> result s = Some None ->
  block s = Z.max (First segment) (Last segment + 1) /\
  (forall b, occ s b = 0) /\
  (forall b, First segment <= b <= Last segment ->
     EvExecuted b (i64 (block_txs b)) None ∈ trace s /\
     executed_n (trace s) b = 1) /\
  (forall b n e, EvExecuted b n e ∈ trace s ->
     First segment <= b <= Last segment /\ n = i64 (block_txs b) /\ e = None).
Proof.
  intros Hr Hres.
  destruct (range_inv_reachable pool segment numWorkers First_u64 Last_below_max w s Hr)
    as [_ I2 I3 _ I5].
  destruct (trace_inv_reachable pool segment numWorkers First_u64 w s Hr)
    as [T1 _ T3 _ _].
  destruct (count_inv w s Hr) as [_ C2].
  assert (Last segment < block s) as Hexit.
  { apply (exit_inv pool segment numWorkers w s Hr Hres). }
  assert (forall b, First segment <= b <= Last segment ->
            EvExecuted b (i64 (block_txs b)) None ∈ trace s) as Hok.
  { intros b Hb. destruct (T3 b) as [n Hn]; [apply T1; lia|].
    by rewrite <- (C2 b n Hn). }
  assert (forall b n e, EvExecuted b n e ∈ trace s ->
            First segment <= b <= Last segment) as Hrange.
  { intros b n e Hin. apply (executed_once w s Hr b).
    by eapply executed_n_pos. }
  split; [lia|]. split; [|split].
  - intros b. pose proof (occ_nonneg s b).
    destruct (decide (1 <= occ s b)) as [Hocc|]; [|lia].
    destruct (I5 b Hocc) as [? Hp]. apply I3 in Hp as [? _]. lia.
  - intros b Hb. split; [by apply Hok|].
    destruct (executed_once w s Hr b) as [? _].
    pose proof (executed_n_pos _ _ _ _ (Hok b Hb)). lia.
  - intros b n e Hin. pose proof (Hrange b n e Hin) as Hb. split; [done|].
    destruct e as [e|]; [exfalso|split; [by apply C2|done]].
    destruct (executed_once w s Hr b) as [? _].
    pose proof (executed_n_two _ _ _ _ _ _ Hin (Hok b Hb) ltac:(congruence)). lia.
Qed.

End Completion.

(** Sums over the blocks of a list without repetitions. *)
Lemma sumZ_add {A} (f g : A -> Z) l :
  sumZ (fun x => f x + g x) l = sumZ f l + sumZ g l.
Proof.
  induction l as [|x l IH]; [by rewrite !sumZ_nil|]. rewrite !sumZ_cons, IH. lia.
Qed.

Lemma sumZ_const {A} (c : Z) (l : list A) : sumZ (fun _ => c) l = Z.of_nat (length l) * c.
Proof.
  induction l as [|x l IH]; [by rewrite sumZ_nil|]. rewrite sumZ_cons, IH.
  cbn [length]. lia.
Qed.

Lemma sumZ_point (g : Z -> Z) l x :
  NoDup l -> x ∈ l -> sumZ (fun b => g b * ind (x = b)) l = g x.
Proof.
  induction 1 as [|y l Hy Hl IH]; intros Hx; [by apply elem_of_nil in Hx|].
  rewrite sumZ_cons. apply elem_of_cons in Hx as [->|Hx].
  - rewrite ind_true by done.
    rewrite (sumZ_ext _ (fun _ => 0)), sumZ_const; [lia|].
    intros b Hb. rewrite ind_false; [lia|]. by intros ->.
  - rewrite IH by done. rewrite ind_false; [lia|]. by intros ->.
Qed.

Lemma i64_sumZ {A} (f : A -> Z) l : i64 (sumZ (fun x => i64 (f x)) l) = i64 (sumZ f l).
Proof.
  induction l as [|x l IH]; [by rewrite !sumZ_nil|].
  rewrite !sumZ_cons, i64_add_l, <- i64_add_r, IH, i64_add_r. done.
Qed.

Section Totals.

Context {W E : Type}.
Variable pool : SubstateTaskPool W E.
Variable segment : BlockSegment.
Variable numWorkers : Z.

Local Abbreviation reachable := (reachable pool segment numWorkers).
Local Abbreviation State := (Sys (W:=W) (E:=E)).

(** A sum over the returns of [ExecuteBlock] by block. *)
Definition sum_executed (g : Z -> Z) (tr : list (Event (E:=E))) : Z :=
  sumZ (fun ev => match ev with EvExecuted b _ _ => g b | _ => 0 end) tr.

Lemma sum_executed_blocks g tr l :
  NoDup l ->
  (forall b n e, EvExecuted b n e ∈ tr -> b ∈ l) ->
  sum_executed g tr = sumZ (fun b => g b * executed_n tr b) l.
Proof.
  intros Hl. unfold sum_executed, executed_n.
  induction tr as [|ev tr IH]; intros Hin.
  - rewrite sumZ_nil. rewrite (sumZ_ext _ (fun _ => 0)), sumZ_const; [lia|].
    intros. rewrite sumZ_nil. lia.
  - rewrite sumZ_cons, IH by (intros; eapply Hin; by right).
    rewrite (sumZ_ext (fun b => g b * sumZ _ (ev :: tr))
               (fun b => g b * match ev with EvExecuted x _ _ => ind (x = b) | _ => 0 end
                         + g b * sumZ (fun ev => match ev with
                                                 | EvExecuted x _ _ => ind (x = b)
                                                 | _ => 0
                                                 end) tr))
      by (intros; rewrite sumZ_cons; lia).
    rewrite sumZ_add. f_equal.
    destruct ev as [| |b n e| |];
      try (rewrite (sumZ_ext _ (fun _ => 0)), sumZ_const; [lia|]; intros; lia).
    symmetry. apply sumZ_point; [done|]. eapply Hin. by left.
Qed.

Lemma executed_txs_by_block (g : Z -> Z) tr :
  (forall b n e, EvExecuted (E:=E) b n e ∈ tr -> n = g b) ->
  executed_txs tr = sum_executed g tr.
Proof.
  intros Hn. unfold executed_txs, sum_executed. apply sumZ_ext.
  intros [| |b n e| |] Hin; try done. by eapply Hn.
Qed.

Lemma idle_pending (l : list (Worker (E:=E))) :
  (forall i wk, l !! i = Some wk -> wk = WIdle \/ wk = WExited) ->
  sumZ pending_block l = 0 /\ sumZ pending_tx l = 0.
Proof.
  intros Hl. split.
  all: rewrite (sumZ_ext _ (fun _ => 0)), sumZ_const; [lia|].
  all: intros wk [i Hi]%list_elem_of_lookup; by destruct (Hl i wk Hi) as [->| ->].
Qed.

End Totals.

Section Results.

Context {W E : Type}.
Variable pool : SubstateTaskPool W E.
Variable segment : BlockSegment.
Variable numWorkers : Z.

Local Abbreviation reachable := (reachable pool segment numWorkers).
Local Abbreviation State := (Sys (W:=W) (E:=E)).

(** After a return without an error nothing is left on its way. *)
Lemma nil_result_quiet w (s : State) :
  is_u64 (First segment) ->
  Last segment < max_uint64 ->
  reachable w s ->
  result s = Some None ->
  waitMap s = ∅ /\ workChan s = [] /\ doneChan s = [] /\
  (forall i wk, workers s !! i = Some wk -> wk = WIdle \/ wk = WExited).
Proof.
  intros HF Hmax Hr Hres.
  destruct (nil_result_state pool segment numWorkers HF Hmax w s Hr Hres)
    as (Hblock & Hocc & Hall & Honly).
  destruct (error_inv_reachable pool segment numWorkers HF w s Hr)
    as [_ _ _ I4 _ _].
  repeat split.
  - apply elem_of_equiv_empty_L. intros b Hb%occ_wait. specialize (Hocc b). lia.
  - destruct (workChan s) as [|b l] eqn:Hw; [done|].
    assert (b ∈ workChan s) as Hb%occ_work by (rewrite Hw; by left).
    specialize (Hocc b). lia.
  - destruct (doneChan s) as [|[b|e] l] eqn:Hd; [done| |].
    + assert (DoneBlock b ∈ doneChan s) as Hb%occ_done by (rewrite Hd; by left).
      specialize (Hocc b). lia.
    + destruct (I4 e) as (b & n & Hex); [by left|].
      by destruct (Honly b n (Some e) Hex) as (_ & _ & ?).
  - intros i wk Hi. destruct (held wk) as [b|] eqn:Hh.
    + pose proof (occ_held s i wk b Hi Hh). specialize (Hocc b). lia.
    + destruct wk; simplify_eq; auto.
Qed.

(** X11. When the last block is below the largest [uint64], an error
    that [ExecuteSegment] returns is the error that one call of
    [ExecuteBlock] returned for a block of the segment: it names the pool,
    that block and a transaction of that block which no filter skips and on
    which the callback failed with the wrapped cause; the coordinator has
    received it from [doneChan]. *)
Theorem ExecuteSegment_error_origin w (s : State) e :
  is_u64 (First segment) ->
  Last segment < max_uint64 ->
  reachable w s ->
  result s = Some (Some e) ->
  First segment <= err_block e <= Last segment /\
  err_pool e = Name pool /\
  (exists substate w0 w1,
     (err_tx e, substate) ∈ GetBlockSubstates (DB pool) (err_block e) /\
     skipped pool substate = false /\
     TaskFunc pool (err_block e) (err_tx e) substate w0 = (w1, Some (err_cause e))) /\
  EvReceived (DoneErr e) ∈ trace s /\
  exists n, EvExecuted (err_block e) n (Some e) ∈ trace s.
Proof.
  intros HF Hmax Hr Hres.
  destruct (error_inv_reachable pool segment numWorkers HF w s Hr)
    as [_ I2 _ _ I5 I6].
  pose proof (I6 e Hres) as Hrecv.
  destruct (I5 e Hrecv) as (b & n & Hex).
  destruct (I2 b n e Hex) as (Hp & Hb & Hcall). subst b.
  split; [|by eauto].
  apply (executed_once pool segment numWorkers HF Hmax w s Hr).
  by eapply executed_n_pos.
Qed.

(** X12. When the last block is below the largest [uint64] and
    [ExecuteSegment] returns [nil], the cursor is one past the last block,
    [waitMap] and the channels of blocks and completions are empty, no
    worker holds a block, and [ExecuteBlock] has returned exactly once for
    every block of the segment, without an error and with the number of
    the transactions of the block that no filter skips; it was called for
    no other block. *)
Theorem ExecuteSegment_nil_complete w (s : State) :
  is_u64 (First segment) ->
  Last segment < max_uint64 ->
  reachable w s ->
  result s = Some None ->
  block s = Z.max (First segment) (Last segment + 1) /\
  waitMap s = ∅ /\ workChan s = [] /\ doneChan s = [] /\
  (forall i wk, workers s !! i = Some wk -> wk = WIdle \/ wk = WExited) /\
  (forall b, First segment <= b <= Last segment ->
     executed_n (trace s) b = 1 /\
     EvExecuted b (i64 (block_txs pool b)) None ∈ trace s) /\
  (forall b n e, EvExecuted b n e ∈ trace s ->
     First segment <= b <= Last segment /\ e = None).
Proof.
  intros HF Hmax Hr Hres.
  destruct (nil_result_state pool segment numWorkers HF Hmax w s Hr Hres)
    as (Hblock & Hocc & Hall & Honly).
  destruct (nil_result_quiet w s HF Hmax Hr Hres) as (Hwait & Hwork & Hdone & Hidle).
  repeat split; try done.
  - by apply Hall.
  - by apply Hall.
  - by eapply Honly.
  - by eapply Honly.
  - by destruct (Honly b n e) as (_ & _ & ?).
Qed.

(** X13. When the last block is below the largest [uint64] and
    [ExecuteSegment] returns [nil], the block counter is the number of
    blocks of the segment and the transaction counter is the number of
    transactions of those blocks that no filter skips, both in [int64]
    arithmetic; the summary printed last shows these totals. *)
Theorem ExecuteSegment_nil_totals w (s : State) :
  is_u64 (First segment) ->
  Last segment < max_uint64 ->
  reachable w s ->
  result s = Some None ->
  totalNumBlock s = i64 (Z.max 0 (Last segment + 1 - First segment)) /\
  totalNumTx s =
    i64 (sumZ (block_txs pool) (seqZ (First segment) (Last segment + 1 - First segment))) /\
  (coord s = CDone None ->
   exists d bps tps older,
     trace s = EvPrint (OutSummary (First segment) (Last segment)
                 (totalNumBlock s) (totalNumTx s) bps tps d) :: older).
Proof.
  intros HF Hmax Hr Hres.
  destruct (nil_result_state pool segment numWorkers HF Hmax w s Hr Hres)
    as (Hblock & Hocc & Hall & Honly).
  destruct (nil_result_quiet w s HF Hmax Hr Hres) as (_ & _ & _ & Hidle).
  destruct (counter_inv_reachable pool segment numWorkers w s Hr) as [I1 I2 I3 I4].
  destruct (idle_pending _ Hidle) as [Hb Ht].
  rewrite Hb, Z.add_0_r, i64_id in I1 by done.
  rewrite Ht, Z.add_0_r, i64_id in I2 by done.
  set (l := seqZ (First segment) (Last segment + 1 - First segment)).
  assert (forall b, b ∈ l <-> First segment <= b <= Last segment) as Hl.
  { intros b. unfold l. rewrite elem_of_seqZ. lia. }
  assert (forall g, sum_executed g (trace s) = sumZ g l) as Hsum.
  { intros g. rewrite (sum_executed_blocks g (trace s) l).
    - apply sumZ_ext. intros b Hb'%Hl. destruct (Hall b Hb') as [_ ->]. lia.
    - apply NoDup_seqZ.
    - intros b n e Hin. apply Hl. by eapply Honly. }
  split; [|split].
  - rewrite I1. f_equal.
    change (executed_blocks (trace s)) with (sum_executed (fun _ => 1) (trace s)).
    rewrite Hsum, sumZ_const. unfold l. rewrite length_seqZ. lia.
  - rewrite I2.
    rewrite (executed_txs_by_block (fun b => i64 (block_txs pool b)))
      by (intros b n e Hin; by eapply Honly).
    rewrite Hsum. apply i64_sumZ.
  - intros Hc.
    destruct (final_inv_reachable pool segment numWorkers w s Hr) as [_ F2].
    by apply (F2 None).
Qed.

End Results.


Lemma ExecuteSegment_error_origin_witness :
  First Demo.segment <= 7 <= Last Demo.segment.
Proof.
  assert (is_u64 (First Demo.segment)) as HF by (vm_compute; split; discriminate).
  assert (Last Demo.segment < max_uint64) as Hmax by reflexivity.
  assert (reachable Demo.pool_failing Demo.segment 2 [] Demo.final_failing) as Hr.
  { exists Demo.schedule_failing. vm_compute. reflexivity. }
  exact (proj1 (ExecuteSegment_error_origin Demo.pool_failing Demo.segment 2 []
                  Demo.final_failing
                  {| err_pool := "example"%string; err_block := 7; err_tx := 2;
                     err_cause := "creation"%string |} HF Hmax Hr eq_refl)).
Defined.

Lemma ExecuteSegment_nil_complete_witness :
  block Demo.final_ok = Z.max (First Demo.segment) (Last Demo.segment + 1).
Proof.
  assert (is_u64 (First Demo.segment)) as HF by (vm_compute; split; discriminate).
  assert (Last Demo.segment < max_uint64) as Hmax by reflexivity.
  assert (reachable Demo.pool_ok Demo.segment 2 [] Demo.final_ok) as Hr.
  { exists Demo.schedule_ok. vm_compute. reflexivity. }
  assert (result Demo.final_ok = Some None) as Hres by (vm_compute; reflexivity).
  exact (proj1 (ExecuteSegment_nil_complete Demo.pool_ok Demo.segment 2 []
                  Demo.final_ok HF Hmax Hr Hres)).
Defined.
Lemma ExecuteSegment_nil_totals_witness :
  totalNumBlock Demo.final_ok = i64 (Z.max 0 (Last Demo.segment + 1 - First Demo.segment)) /\
  totalNumTx Demo.final_ok =
    i64 (sumZ (block_txs Demo.pool_ok)
           (seqZ (First Demo.segment) (Last Demo.segment + 1 - First Demo.segment))).
Proof.
  assert (is_u64 (First Demo.segment)) as HF by (vm_compute; split; discriminate).
  assert (Last Demo.segment < max_uint64) as Hmax by reflexivity.
  assert (reachable Demo.pool_ok Demo.segment 2 [] Demo.final_ok) as Hr.
  { exists Demo.schedule_ok. vm_compute. reflexivity. }
  assert (result Demo.final_ok = Some None) as Hres by (vm_compute; reflexivity).
  destruct (ExecuteSegment_nil_totals Demo.pool_ok Demo.segment 2 [] Demo.final_ok
              HF Hmax Hr Hres) as (Hb & Ht & _).
  split; [exact Hb|exact Ht].
Defined.

(* ===================================================================== *)
(** * ExecuteSegment with a callback that does not fail *)
(* ===================================================================== *)

(** The coordinator is in its loop. *)
Definition running {E} (c : Coord (E:=E)) : bool :=
  match c with
  | CLoop | CRecv => true
  | _ => false
  end.

(** The workers that have returned. *)
Definition exited_n {E} (l : list (Worker (E:=E))) : Z :=
  sumZ (fun wk => if exited wk then 1 else 0) l.

Section Success.

Context {W E : Type}.
Variable pool : SubstateTaskPool W E.
Variable segment : BlockSegment.
Variable numWorkers : Z.

Local Abbreviation step := (step pool segment numWorkers).
Local Abbreviation reachable := (reachable pool segment numWorkers).
Local Abbreviation State := (Sys (W:=W) (E:=E)).

Lemma workers_length w (s : State) :
  reachable w s -> length (workers s) = Z.to_nat numWorkers.
Proof.
  intros Hr. pattern s. revert s Hr. apply reachable_ind.
  { simpl. by rewrite length_replicate. }
  intros s0 a s' Hr0 IH Hstep.
  step_cases Hstep; rewrite ?length_insert; done.
Qed.

(** While the coordinator is in its loop no stop signal has been sent
    and no worker has returned. *)
Lemma running_inv w (s : State) :
  reachable w s -> running (coord s) = true ->
  stopChan s = 0 /\ forall i wk, workers s !! i = Some wk -> wk <> WExited.
Proof.
  intros Hr. pattern s. revert s Hr. apply reachable_ind.
  { intros _. split; [done|]. intros i wk Hi. by apply lookup_replicate in Hi as [-> _]. }
  intros s0 a s' Hr0 IH Hstep Hrun.
  step_cases Hstep;
    repeat match goal with H : coord _ = _ |- _ => rewrite H in * end;
    try discriminate;
    destruct (IH ltac:(done)) as [I1 I2];
    try lia; (split; [done|]); intros; inv_simpl; eauto.
Qed.

Hypothesis First_u64 : is_u64 (First segment).
Hypothesis Last_below_max : Last segment < max_uint64.

(** Every block of the segment below the producer's has been sent. *)
Lemma produced_below w (s : State) :
  reachable w s ->
  forall p, producer s = PLoop p ->
  forall b, First segment <= b < p -> EvProduced b ∈ trace s.
Proof.
  intros Hr. pattern s. revert s Hr. apply reachable_ind.
  { intros p [= <-] b Hb. lia. }
  intros s0 a s' Hr0 IH Hstep p Hp b Hb.
  destruct (range_inv_reachable pool segment numWorkers First_u64 Last_below_max w s0 Hr0)
    as [I1 _ _ _ _].
  unfold is_u64 in First_u64.
  step_cases Hstep; report_cases; simplify_eq;
    eauto using list_elem_of_further, list_elem_of_here; try congruence.
  rewrite u64_succ_small in Hb by (destruct (I1 _ eq_refl); lia).
  match goal with |- EvProduced b ∈ EvProduced ?p :: _ =>
    destruct (decide (b = p)) as [->|]; [by left|right; eapply IH; [done|lia]] end.
Qed.

(** A producer that has returned while the coordinator is in its loop
    has sent every block of the segment. *)
Lemma produced_all w (s : State) :
  reachable w s -> running (coord s) = true -> producer s = PExited ->
  forall b, First segment <= b <= Last segment -> EvProduced b ∈ trace s.
Proof.
  intros Hr. pattern s. revert s Hr. apply reachable_ind.
  { done. }
  intros s0 a s' Hr0 IH Hstep Hrun Hp b Hb.
  pose proof (produced_below w s0 Hr0) as Hbelow.
  pose proof (running_inv w s0 Hr0) as Hrunning.
  step_cases Hstep; report_cases;
    repeat match goal with H : coord _ = _ |- _ => rewrite H in * end;
    simplify_eq; try discriminate;
    eauto using list_elem_of_further, list_elem_of_here.
  - destruct (Hrunning Hrun) as [? _]. lia.
  - eapply Hbelow; [done|lia].
Qed.

(** The coordinator waits on [doneChan] only for a block of the segment
    that is not in [waitMap]. *)
Lemma recv_inv w (s : State) :
  reachable w s -> coord s = CRecv ->
  block s <= Last segment /\ block s ∉ waitMap s.
Proof.
  intros Hr. pattern s. revert s Hr. apply reachable_ind.
  { done. }
  intros s0 a s' Hr0 IH Hstep Hc.
  step_cases Hstep; eauto; congruence.
Qed.

(** The callback succeeds on every transaction of the segment that no
    filter skips. *)
Hypothesis TaskFunc_succeeds : forall b tx substate w,
  First segment <= b <= Last segment ->
  (tx, substate) ∈ GetBlockSubstates (DB pool) b ->
  skipped pool substate = false ->
  (TaskFunc pool b tx substate w).2 = None.

Lemma never_fails w (s : State) :
  reachable w s ->
  (forall b n e, EvExecuted b n (Some e) ∉ trace s) /\
  (forall e, ~ failed s e) /\
  (forall e, DoneErr e ∉ doneChan s) /\
  (forall i wk p, workers s !! i = Some wk -> failing wk <> Some p) /\
  (forall e, result s <> Some (Some e)).
Proof.
  intros Hr.
  destruct (error_inv_reachable pool segment numWorkers First_u64 w s Hr)
    as [_ I2 I3 I4 I5 I6].
  assert (forall b n e, EvExecuted b n (Some e) ∉ trace s) as Hnever.
  { intros b n e Hin.
    destruct (I2 b n e Hin) as (_ & _ & substate & w0 & w1 & Hmem & Hskip & Hcall).
    assert (First segment <= b <= Last segment) as Hb.
    { apply (executed_once pool segment numWorkers First_u64 Last_below_max w s Hr).
      by eapply executed_n_pos. }
    pose proof (TaskFunc_succeeds b (err_tx e) substate w0 Hb Hmem Hskip) as Hok.
    by rewrite Hcall in Hok. }
  assert (forall e, ~ failed s e) as Hfailed.
  { intros e (b & n & Hin). by eapply Hnever. }
  split; [done|]. split; [done|]. split; [|split].
  - intros e Hin. by eapply Hfailed, I4.
  - intros i wk [b e] Hi Hf. by eapply Hfailed, I3.
  - intros e Hres. by eapply Hfailed, I5, I6.
Qed.

(** A block that was sent and that the cursor has not passed is on its
    way. *)
Lemma kept w (s : State) :
  reachable w s ->
  forall b, EvProduced b ∈ trace s -> block s <= b -> 1 <= occ s b.
Proof.
  intros Hr. pattern s. revert s Hr. apply reachable_ind.
  { intros b Hb. inv_simpl. }
  intros s0 a s' Hr0 IH Hstep b Hprod Hb.
  destruct (never_fails w s0 Hr0) as (_ & _ & Hdone & Hwk & _).
  destruct (range_inv_reachable pool segment numWorkers First_u64 Last_below_max w s0 Hr0)
    as [_ I2 _ I4 _].
  pose proof (occ_parts s0 b) as Hparts.
  pose proof (I4 b) as Honce.
  specialize (IH b).
  unfold is_u64 in First_u64.
  step_cases Hstep; eauto.
  all: report_cases; inv_simpl.
  all: unfold occ in *; cbn -[report sumZ] in *; autorewrite with sched in *.
  all: repeat match goal with H : workChan _ = _ |- _ => rewrite H in * end.
  all: repeat match goal with H : doneChan _ = _ |- _ => rewrite H in * end.
  all: sum_simpl.
  all: rewrite ?sumZ_app, ?sumZ_cons, ?sumZ_nil, ?ind_difference, ?ind_union in *.
  all: try match goal with H : workers _ !! _ = Some (WSend _ (Some _)) |- _ =>
             by eapply Hwk in H end.
  all: try match goal with H : DoneErr _ :: _ = DoneErr _ :: _ |- _ => clear H end.
  all: try rewrite u64_succ_small in Hb by lia.
  all: try (specialize (IH ltac:(done) ltac:(lia))).
  all: repeat match goal with
       | |- context [sumZ ?f ?l] =>
           lazymatch goal with
           | H : 0 <= sumZ f l |- _ => fail
           | _ => assert (0 <= sumZ f l)
                    by (apply sumZ_nonneg; intros; apply ind_nonneg)
           end
       end.
  all: cbn [held done_block] in *.
  all: try (unfold ind in *; repeat case_decide; simplify_eq; lia).
Qed.

Lemma exited_n_nonneg (l : list (Worker (E:=E))) : 0 <= exited_n l.
Proof. apply sumZ_nonneg. intros wk. destruct (exited wk); lia. Qed.

Lemma exited_n_zero (l : list (Worker (E:=E))) :
  (forall i wk, l !! i = Some wk -> wk <> WExited) -> exited_n l = 0.
Proof.
  intros Hl. unfold exited_n. rewrite (sumZ_ext _ (fun _ => 0)), sumZ_const; [lia|].
  intros wk [i Hi]%list_elem_of_lookup. specialize (Hl i wk Hi). by destruct wk.
Qed.

Lemma exited_n_le (l : list (Worker (E:=E))) i wk :
  l !! i = Some wk -> exited wk = false -> exited_n l <= Z.of_nat (length l) - 1.
Proof.
  revert i. induction l as [|x l IH]; intros i Hi Hwk; [done|].
  unfold exited_n in *. rewrite sumZ_cons. cbn [length].
  destruct i as [|i]; simpl in Hi.
  - simplify_eq. rewrite Hwk.
    assert (sumZ (fun wk => if exited wk then 1 else 0) l <= Z.of_nat (length l)); [|lia].
    clear. induction l as [|y l IH]; [by rewrite sumZ_nil|].
    rewrite sumZ_cons. cbn [length]. destruct (exited y); lia.
  - specialize (IH i Hi Hwk). destruct (exited x); lia.
Qed.

Lemma exited_n_pos (l : list (Worker (E:=E))) i :
  l !! i = Some WExited -> 1 <= exited_n l.
Proof.
  intros Hi. unfold exited_n. eapply (sumZ_ge_1 _ l WExited).
  - intros wk. destruct (exited wk); lia.
  - apply list_elem_of_lookup. eauto.
  - done.
Qed.

Lemma forallb_exited_false (l : list (Worker (E:=E))) :
  forallb exited l = false -> exists i wk, l !! i = Some wk /\ exited wk = false.
Proof.
  induction l as [|x l IH]; [done|]. cbn [forallb].
  destruct (exited x) eqn:Hx; cbn [andb].
  - intros (i & wk & Hi & Hwk)%IH. by exists (S i), wk.
  - intros _. by exists 0%nat, x.
Qed.

(** Either some worker holds a block or all of them wait or have
    returned. *)
Lemma busy_or_idle (l : list (Worker (E:=E))) :
  (exists i wk b, l !! i = Some wk /\ held wk = Some b) \/
  (forall i wk, l !! i = Some wk -> wk = WIdle \/ wk = WExited).
Proof.
  induction l as [|x l [(i & wk & b & Hi & Hb)|IH]].
  - right. intros i wk Hi. done.
  - left. by exists (S i), wk, b.
  - destruct (held x) as [b|] eqn:Hx.
    + left. by exists 0%nat, x, b.
    + right. intros [|i] wk Hi; simpl in Hi; [|by eapply IH].
      simplify_eq. destruct wk; simplify_eq; auto.
Qed.

Lemma occ_idle (s : State) b :
  workChan s = [] -> doneChan s = [] ->
  (forall i wk, workers s !! i = Some wk -> wk = WIdle \/ wk = WExited) ->
  b ∉ waitMap s -> occ s b = 0.
Proof.
  intros Hw Hd Hidle Hb. unfold occ. rewrite Hw, Hd, !sumZ_nil, ind_false by done.
  rewrite (sumZ_ext _ (fun _ => 0)), sumZ_const; [lia|].
  intros wk [i Hi]%list_elem_of_lookup. by destruct (Hidle i wk Hi) as [->| ->].
Qed.

Hypothesis numWorkers_pos : 0 < numWorkers.

(** In the shutdown every stop signal sent is in [stopChan] or was taken
    by a worker. *)
Lemma stop_inv w (s : State) :
  reachable w s ->
  forall sent r, coord s = CStop sent r ->
    0 <= sent <= numWorkers + 1 /\ sent = stopChan s + exited_n (workers s).
Proof.
  intros Hr. pattern s. revert s Hr. apply reachable_ind.
  { done. }
  intros s0 a s' Hr0 IH Hstep sent r Hc.
  destruct (never_fails w s0 Hr0) as (_ & _ & Hdone & _ & Hres).
  destruct (range_inv_reachable pool segment numWorkers First_u64 Last_below_max w s0 Hr0)
    as [I1 _ _ _ _].
  pose proof (running_inv w s0 Hr0) as Hrun.
  pose proof (exit_inv pool segment numWorkers w s0 Hr0) as Hexit.
  unfold exited_n, result in *.
  step_cases Hstep;
    repeat match goal with H : coord _ = _ |- _ => rewrite H in * end;
    simplify_eq.
  all: try (by (exfalso; eapply Hdone; left)).
  all: try (destruct (IH _ _ eq_refl) as [? ?]; sum_simpl; cbn [exited]; lia).
  - match goal with H : coord _ = CStop _ ?r |- _ => destruct r as [e|] end;
      [by destruct (Hres e)|].
    destruct (I1 _ eq_refl) as [_ ?]. specialize (Hexit eq_refl). lia.
  - destruct (Hrun eq_refl) as [-> Hnone].
    pose proof (exited_n_zero _ Hnone) as Hz. unfold exited_n in Hz. lia.
Qed.

(** Steps that can be taken. *)
Ltac guards_false :=
  repeat match goal with
  | H : _ && _ = false |- _ => apply andb_false_iff in H as [H|H]
  | H : bool_decide _ = false |- _ => apply bool_decide_eq_false in H
  | H : negb (bool_decide _) = false |- _ =>
      apply negb_false_iff, bool_decide_eq_true in H
  end; guards.

Ltac enabled a :=
  exists a; unfold step;
  repeat match goal with
  | H : coord _ = _ |- _ => rewrite H
  | H : producer _ = _ |- _ => rewrite H
  | H : workers _ !! _ = _ |- _ => rewrite H
  | H : workChan _ = _ |- _ => rewrite H
  | H : doneChan _ = _ |- _ => rewrite H
  end;
  repeat case_match; eauto; exfalso; guards_false;
  unfold chan_cap in *; simpl length in *; try lia; try done.

(** As long as [ExecuteSegment] has not returned, one of its goroutines
    can take a step. *)
Lemma progress w (s : State) :
  reachable w s -> (forall r, coord s <> CDone r) ->
  exists a s', step s a = Some s'.
Proof.
  intros Hr Hnot.
  destruct (never_fails w s Hr) as (_ & _ & Hdone & Hwk & Hres).
  destruct (range_inv_reachable pool segment numWorkers First_u64 Last_below_max w s Hr)
    as [I1 I2 _ _ _].
  pose proof (workers_length w s Hr) as Hlen.
  assert (exists wk0, workers s !! 0%nat = Some wk0) as [wk0 Hwk0].
  { apply lookup_lt_is_Some. lia. }
  destruct (coord s) as [| |sent r|r|r] eqn:Hc.
  - (* the head of the loop *)
    destruct (decide (block s <= Last segment)) as [Hle|Hgt].
    + destruct (decide (block s ∈ waitMap s)).
      * enabled ACoordAdvance.
      * enabled (ACoordCheck 1).
    + enabled ACoordExit.
  - (* waiting on doneChan *)
    destruct (recv_inv w s Hr Hc) as [Hle Hwait].
    destruct (running_inv w s Hr) as [Hstop Hnone]; [by rewrite Hc|].
    destruct (doneChan s) as [|data rest] eqn:Hd; [|enabled ACoordRecv].
    destruct (busy_or_idle (workers s)) as [(i & wk & b & Hi & Hb)|Hidle].
    + destruct wk as [|b' [|entry entries] n|b' nt err|b' err|b' err|]; try done.
      * enabled (AWorkerReturn i).
      * enabled (AWorkerTx i).
      * enabled (AWorkerAddTx i).
      * enabled (AWorkerAddBlock i).
      * enabled (AWorkerSend i).
    + assert (wk0 = WIdle) as ->.
      { destruct (Hidle _ _ Hwk0) as [->| ->]; [done|]. by destruct (Hnone _ _ Hwk0). }
      destruct (workChan s) as [|b rest] eqn:Hw; [|enabled (AWorkerRecv 0)].
      pose proof (occ_idle s (block s) Hw Hd Hidle Hwait) as Hocc.
      assert (EvProduced (block s) ∉ trace s) as Hnew.
      { intros Hin. pose proof (kept w s Hr _ Hin ltac:(lia)). lia. }
      destruct (producer s) as [p|] eqn:Hp.
      * assert (p <= block s).
        { destruct (decide (p <= block s)); [done|]. exfalso. apply Hnew.
          eapply (produced_below w s Hr); [done|lia]. }
        enabled AProduce.
      * exfalso. apply Hnew. apply (produced_all w s Hr); [by rewrite Hc|done|lia].
  - (* the shutdown *)
    destruct r as [e|]; [by destruct (Hres e); unfold result; rewrite Hc|].
    assert (result s = Some None) as Hnil by (unfold result; by rewrite Hc).
    destruct (nil_result_quiet pool segment numWorkers w s First_u64 Last_below_max Hr Hnil)
      as (_ & _ & _ & Hidle).
    pose proof (exit_inv pool segment numWorkers w s Hr Hnil) as Hexit.
    destruct (stop_inv w s Hr sent None Hc) as [Hsent Hsum].
    pose proof (exited_n_nonneg (workers s)) as Hex.
    destruct (decide (sent < numWorkers + 1)) as [Hlt|Hge].
    + destruct (decide (stopChan s < numWorkers)); [enabled ACoordSendStop|].
      assert (wk0 = WIdle) as ->.
      { destruct (Hidle _ _ Hwk0) as [->| ->]; [done|].
        pose proof (exited_n_pos _ _ Hwk0). lia. }
      enabled (AWorkerStop 0).
    + destruct (producer s) as [p|] eqn:Hp.
      * destruct (I1 p eq_refl) as [_ ?]. enabled AProducerExit.
      * destruct (forallb exited (workers s)) eqn:Hall; [enabled ACoordWait|].
        destruct (forallb_exited_false _ Hall) as (i & wk & Hi & Hwk').
        pose proof (exited_n_le _ _ _ Hi Hwk').
        assert (wk = WIdle) as ->.
        { destruct (Hidle _ _ Hi) as [->| ->]; done. }
        enabled (AWorkerStop i).
  - enabled (ACoordSummary 1).
  - by destruct (Hnot r).
Qed.

(** From every state of a run there is a way to the return of
    [ExecuteSegment]. *)
Lemma completes w (s : State) :
  reachable w s ->
  exists acts s',
    run_actions pool segment numWorkers s acts = Some s' /\ coord s' = CDone None.
Proof.
  intros Hr.
  remember (Z.to_nat (cost pool segment numWorkers s)) as n eqn:Hn.
  revert s Hr Hn. induction (lt_wf n) as [n _ IH]. intros s Hr Hn.
  destruct (never_fails w s Hr) as (_ & _ & _ & _ & Hres).
  assert ((exists r, coord s = CDone r) \/ (forall r, coord s <> CDone r)) as [[r Hc]|Hnot].
  { destruct (coord s); eauto. }
  - exists [], s. split; [done|]. destruct r as [e|]; [|done].
    destruct (Hres e). unfold result. by rewrite Hc.
  - destruct (progress w s Hr Hnot) as (a & s1 & Hstep).
    pose proof (step_cost pool segment numWorkers First_u64 Last_below_max w s a s1 Hr Hstep).
    pose proof (cost_nonneg pool segment numWorkers s1).
    destruct (IH (Z.to_nat (cost pool segment numWorkers s1)) ltac:(lia) s1
                (reachable_step pool segment numWorkers w s a s1 Hr Hstep) eq_refl)
      as (acts & s' & Hrun & Hdone).
    exists (a :: acts), s'. simpl. by rewrite Hstep.
Qed.

End Success.

Section SuccessTheorem.

Context {W E : Type}.
Variable pool : SubstateTaskPool W E.
Variable segment : BlockSegment.
Variable numWorkers : Z.

Local Abbreviation State := (Sys (W:=W) (E:=E)).

(** X14. When there is at least one worker, the last block is below the
    largest [uint64] and the callback succeeds on every transaction of the
    segment that no filter skips, then at every moment of every run of
    [ExecuteSegment]: no error is returned; as long as the function has
    not returned, one of its goroutines can take a step, so that the run
    is never stuck; and the run can be continued to the return of [nil]. *)
Theorem ExecuteSegment_succeeds w (s : State) :
  is_u64 (First segment) ->
  Last segment < max_uint64 ->
  0 < numWorkers ->
  (forall b tx substate w,
     First segment <= b <= Last segment ->
     (tx, substate) ∈ GetBlockSubstates (DB pool) b ->
     skipped pool substate = false ->
     (TaskFunc pool b tx substate w).2 = None) ->
  reachable pool segment numWorkers w s ->
  (forall e, result s <> Some (Some e)) /\
  ((forall r, coord s <> CDone r) ->
   exists a s', step pool segment numWorkers s a = Some s') /\
  (exists acts s',
     run_actions pool segment numWorkers s acts = Some s' /\ coord s' = CDone None).
Proof.
  intros HF Hmax Hpos Hok Hr. split; [|split].
  - by destruct (never_fails pool segment numWorkers HF Hmax Hok w s Hr)
      as (_ & _ & _ & _ & ?).
  - by apply (progress pool segment numWorkers HF Hmax Hok Hpos w).
  - by apply (completes pool segment numWorkers HF Hmax Hok Hpos w).
Qed.

End SuccessTheorem.

Lemma ExecuteSegment_succeeds_witness :
  exists acts s',
    run_actions Demo.pool_ok Demo.segment 2 Demo.start acts = Some s' /\
    coord s' = CDone None.
Proof.
  assert (is_u64 (First Demo.segment)) as HF by (vm_compute; split; discriminate).
  assert (Last Demo.segment < max_uint64) as Hmax by reflexivity.
  assert (0 < 2) as Hpos by reflexivity.
  assert (forall b tx substate (w : list (Z * Z)),
            First Demo.segment <= b <= Last Demo.segment ->
            (tx, substate) ∈ GetBlockSubstates (DB Demo.pool_ok) b ->
            skipped Demo.pool_ok substate = false ->
            (TaskFunc Demo.pool_ok b tx substate w).2 = None) as Hok.
  { intros b tx substate w Hb Hmem Hskip. simpl in Hb.
    assert (b = 7 \/ b = 8) as [-> | ->] by lia; simpl in Hmem.
    all: repeat (apply elem_of_cons in Hmem as [Hmem|Hmem]; [simplify_eq|]).
    all: try (by apply elem_of_nil in Hmem).
    all: try reflexivity. }
  assert (reachable Demo.pool_ok Demo.segment 2 [] Demo.start) as Hr.
  { exists []. reflexivity. }
  exact (proj2 (proj2 (ExecuteSegment_succeeds Demo.pool_ok Demo.segment 2 []
                         Demo.start HF Hmax Hpos Hok Hr))).
Defined.

(* ===================================================================== *)
(** * ExecuteSegment: the calls of the callback *)
(* ===================================================================== *)

Section Calls.

Context {W E : Type}.
Variable pool : SubstateTaskPool W E.
Variable segment : BlockSegment.
Variable numWorkers : Z.

Local Abbreviation step := (step pool segment numWorkers).
Local Abbreviation run := (run_actions pool segment numWorkers).
Local Abbreviation reachable := (reachable pool segment numWorkers).
Local Abbreviation State := (Sys (W:=W) (E:=E)).








Hypothesis First_u64 : is_u64 (First segment).
Hypothesis Last_below_max : Last segment < max_uint64.





End Calls.

Section CallTheorems.

Context {W E : Type}.
Variable pool : SubstateTaskPool W E.
Variable segment : BlockSegment.
Variable numWorkers : Z.

Local Abbreviation State := (Sys (W:=W) (E:=E)).



End CallTheorems.



(* ===================================================================== *)
(** * The parser: further properties *)
(* ===================================================================== *)

(** The text that gives the last block: the group [last], or the group
    [first] when there is no range. *)
Definition last_text (f l : list ascii) : list ascii :=
  match l with
  | [] => f
  | _ :: _ => l
  end.

Lemma parse_groups_last f l u :
  is_number f -> (l = [] \/ is_number l) ->
  parse_groups f l u =
    let a := number_value f in
    if max_uint64 <? a then (None, Some (ErrInvalidFirst ErrRange))
    else
      let b := number_value (last_text f l) in
      if max_uint64 <? b then (None, Some (ErrInvalidLast ErrRange))
      else
        let '(a', b') := scale u a b in
        if a' >? b' then (None, Some (ErrFirstLargerThanLast a' b'))
        else (Some {| First := a'; Last := b' |}, None).
Proof.
  intros Hf Hl. unfold parse_groups, last_text. by destruct l.
Qed.

Lemma segment_syntax_parts s f l u :
  segment_syntax s f l u ->
  is_number f /\ (l = [] /\ u = [] \/ is_number l /\ is_unit u).
Proof. intros [f' Hf|f' sep l' u' Hf Hsep Hl Hu]; eauto. Qed.

(** X17. The result of [ParseBlockSegment] depends only on the digits of
    the first block, the digits of the last block and the unit: strings
    that differ in their underscores, in the separator ([-] or [~]), or in
    writing one block [n] as the range from [n] to [n], give the same
    interval or the same error. *)
Theorem ParseBlockSegment_digits_only s s' f l f' l' u :
  segment_syntax (list_ascii_of_string s) f l u ->
  segment_syntax (list_ascii_of_string s') f' l' u ->
  remove_underscores f = remove_underscores f' ->
  remove_underscores (last_text f l) = remove_underscores (last_text f' l') ->
  ParseBlockSegment s = ParseBlockSegment s'.
Proof.
  intros H1 H2 Hf Hl.
  rewrite (ParseBlockSegment_syntax _ _ _ _ H1), (ParseBlockSegment_syntax _ _ _ _ H2).
  destruct (segment_syntax_parts _ _ _ _ H1) as [Hnf Hnl].
  destruct (segment_syntax_parts _ _ _ _ H2) as [Hnf' Hnl'].
  rewrite !parse_groups_last by tauto.
  unfold number_value. by rewrite Hf, Hl.
Qed.

Lemma ParseBlockSegment_digits_only_witness :
  ParseBlockSegment "1_000" = ParseBlockSegment "1000~10_00".
Proof.
  apply (ParseBlockSegment_digits_only "1_000" "1000~10_00"
           (list_ascii_of_string "1_000") [] (list_ascii_of_string "1000")
           (list_ascii_of_string "10_00") []).
  - apply scan_segment_spec. vm_compute. reflexivity.
  - apply scan_segment_spec. vm_compute. reflexivity.
  - reflexivity.
  - reflexivity.
Defined.

Lemma u64_even_not_max a : u64 (a * 2) <> max_uint64.
Proof.
  unfold u64, max_uint64. intros H.
  assert ((a * 2) mod 2 ^ 64 mod 2 = 1) as Hodd by (rewrite H; reflexivity).
  rewrite Z.mod_mod_divide in Hodd by (exists (2 ^ 63); reflexivity).
  rewrite Z.mod_mul in Hodd; lia.
Qed.

(** X18. The bounds of an interval that [ParseBlockSegment] returns are
    [uint64] values, and the last block is the largest [uint64] only when
    the string has no unit and names that very block as its last one. *)
Theorem ParseBlockSegment_uint64 s seg :
  ParseBlockSegment s = (Some seg, None) ->
  is_u64 (First seg) /\ is_u64 (Last seg) /\
  (Last seg = max_uint64 ->
   exists f l,
     segment_syntax (list_ascii_of_string s) f l [] /\
     number_value (last_text f l) = max_uint64).
Proof.
  intros Hparse.
  destruct (Regexp.MatchString segment_re (list_ascii_of_string s)) eqn:Hm.
  2: { unfold ParseBlockSegment in Hparse. by rewrite Hm in Hparse. }
  apply MatchString_segment in Hm as (f & l & u & Hsyn).
  rewrite (ParseBlockSegment_syntax _ _ _ _ Hsyn) in Hparse.
  destruct (segment_syntax_parts _ _ _ _ Hsyn) as [Hnf Hnl].
  rewrite parse_groups_last in Hparse by tauto. cbv zeta in Hparse.
  pose proof (number_value_nonneg f Hnf) as Ha.
  assert (0 <= number_value (last_text f l)) as Hb.
  { destruct Hnl as [[-> _]|[Hl _]]; [done|]. destruct l; [done|].
    by apply number_value_nonneg. }
  destruct (Z.ltb_spec max_uint64 (number_value f)); [done|].
  destruct (Z.ltb_spec max_uint64 (number_value (last_text f l))); [done|].
  unfold scale in Hparse.
  destruct (decide (u = ["k"%char])) as [->|Hk];
    [|destruct (decide (u = ["M"%char])) as [->|HM]].
  - destruct (_ >? _); simplify_eq. simpl.
    split; [apply u64_range|]. split; [apply u64_range|]. intros Hmax. exfalso.
    replace (number_value (last_text f l) * 1000)
      with (number_value (last_text f l) * 500 * 2) in Hmax by lia.
    by apply u64_even_not_max in Hmax.
  - destruct (_ >? _); simplify_eq. simpl.
    split; [apply u64_range|]. split; [apply u64_range|]. intros Hmax. exfalso.
    replace (number_value (last_text f l) * 1000000)
      with (number_value (last_text f l) * 500000 * 2) in Hmax by lia.
    by apply u64_even_not_max in Hmax.
  - destruct (_ >? _); simplify_eq. simpl. unfold is_u64.
    split; [lia|]. split; [lia|]. intros Hmax. exists f, l. split; [|done].
    destruct Hnl as [[-> ->]|[Hl [->|(c & -> & Hc)]]]; try done.
    exfalso. unfold is_siunit in Hc.
    apply orb_true_iff in Hc as [->%Ascii.eqb_eq| ->%Ascii.eqb_eq]; done.
Qed.

Lemma ParseBlockSegment_uint64_witness :
  is_u64 (First (NewBlockSegment 1001 2000)) /\
  is_u64 (Last (NewBlockSegment 1001 2000)).
Proof.
  destruct (ParseBlockSegment_uint64 "1-2k" (NewBlockSegment 1001 2000))
    as (HF & HL & _).
  - vm_compute. reflexivity.
  - split; [exact HF|exact HL].
Defined.

(** The separators of a string. *)
Fixpoint count_sep (s : string) (sep : ascii) : nat :=
  match s with
  | EmptyString => 0
  | String c s' => (if Ascii.eqb c sep then 1 else 0) + count_sep s' sep
  end.

Lemma length_Split s sep : length (Split s sep) = S (count_sep s sep).
Proof.
  induction s as [|c s IH]; [done|]. cbn [Split count_sep].
  destruct (Ascii.eqb c sep); simpl; [by rewrite IH|].
  pose proof (Split_nonempty s sep).
  destruct (Split s sep) as [|p ps]; [done|]. simpl in *. lia.
Qed.

Lemma parse_pieces_Some lxs i br br' :
  parse_pieces lxs i br = (Some br', None) ->
  Forall parses lxs /\ length br' = length br.
Proof.
  revert i br. induction lxs as [|lx lxs IH]; intros i br H; cbn [parse_pieces] in H.
  - by simplify_eq.
  - destruct (ParseBlockSegment lx) as [seg [e|]] eqn:E; [done|].
    apply IH in H as [Hok Hlen]. rewrite length_insert in Hlen.
    split; [|done]. constructor; [|done]. unfold parses. by rewrite E.
Qed.

(** X19. A list that [ParseBlockSegmentList] returns has one interval
    more than the string has commas, so it is never empty; and the string
    has no empty piece: it is not empty and has no comma at its start, at
    its end or next to another comma. *)
Theorem ParseBlockSegmentList_shape s br :
  ParseBlockSegmentList s = (Some br, None) ->
  length br = S (count_sep s ",") /\
  Forall parses (Split s ",") /\
  Forall (fun p => p <> EmptyString) (Split s ",").
Proof.
  unfold ParseBlockSegmentList. intros [Hok Hlen]%parse_pieces_Some.
  rewrite length_replicate, length_Split in Hlen. split; [done|]. split; [done|].
  eapply Forall_impl; [exact Hok|]. intros p Hp ->. by vm_compute in Hp.
Qed.

Lemma ParseBlockSegmentList_shape_witness :
  length [Some (NewBlockSegment 1 1000000); Some (NewBlockSegment 1100001 1100001)]
    = S (count_sep "0-1M,1100001" ",").
Proof.
  apply (ParseBlockSegmentList_shape "0-1M,1100001"
           [Some (NewBlockSegment 1 1000000); Some (NewBlockSegment 1100001 1100001)]).
  vm_compute. reflexivity.
Defined.

(* ===================================================================== *)
(** * Printing an interval and parsing it back *)
(* ===================================================================== *)

(** The decimal digits of a [uint64], most significant first, as [%v]
    prints it: the digits are produced from the last one on. *)
Fixpoint format_digits (fuel : nat) (n : Z) (acc : list ascii) : list ascii :=
  match fuel with
  | O => acc
  | S fuel' =>
      let acc' := ascii_of_N (Z.to_N (48 + n mod 10)) :: acc in
      if n <? 10 then acc' else format_digits fuel' (n / 10) acc'
  end.

Definition FormatUint (n : Z) : list ascii := format_digits 20 n [].

(** [fmt.Sprintf("%v-%v", segment.First, segment.Last)] *)
Definition format_segment (segment : BlockSegment) : string :=
  string_of_list_ascii
    (FormatUint (First segment) ++ "-"%char :: FormatUint (Last segment)).

Lemma code_digit d : 0 <= d <= 9 -> code (ascii_of_N (Z.to_N (48 + d))) = 48 + d.
Proof.
  intros Hd. unfold code. rewrite N_ascii_embedding by lia. lia.
Qed.

Lemma is_digit_digit d : 0 <= d <= 9 -> is_digit (ascii_of_N (Z.to_N (48 + d))) = true.
Proof.
  intros Hd. unfold is_digit. rewrite code_digit by done.
  apply andb_true_iff. split; lia.
Qed.

Lemma format_digits_S fuel n acc :
  format_digits (S fuel) n acc =
    if n <? 10 then ascii_of_N (Z.to_N (48 + n mod 10)) :: acc
    else format_digits fuel (n / 10) (ascii_of_N (Z.to_N (48 + n mod 10)) :: acc).
Proof. done. Qed.

Lemma format_digits_spec fuel n acc :
  0 <= n < 10 ^ Z.of_nat (S fuel) ->
  exists ds,
    format_digits (S fuel) n acc = ds ++ acc /\
    ds <> [] /\ forallb is_digit ds = true /\
    forall v, value_from v ds = v * 10 ^ Z.of_nat (length ds) + n.
Proof.
  revert n acc. induction fuel as [|fuel IH]; intros n acc Hn.
  - change (10 ^ Z.of_nat 1) with 10 in Hn. rewrite format_digits_S.
    destruct (Z.ltb_spec n 10); [|lia].
    exists [ascii_of_N (Z.to_N (48 + n mod 10))]. rewrite Z.mod_small by lia.
    split; [done|]. split; [done|]. split.
    + simpl. by rewrite is_digit_digit by lia.
    + intros v. unfold value_from. simpl. rewrite code_digit by lia. lia.
  - pose proof (Z.mod_pos_bound n 10 ltac:(lia)) as Hd.
    rewrite format_digits_S. destruct (Z.ltb_spec n 10).
    + exists [ascii_of_N (Z.to_N (48 + n mod 10))]. rewrite Z.mod_small by lia.
      split; [done|]. split; [done|]. split.
      * simpl. by rewrite is_digit_digit by lia.
      * intros v. unfold value_from. simpl. rewrite code_digit by lia. lia.
    + assert (0 <= n / 10 < 10 ^ Z.of_nat (S fuel)) as Hq.
      { split; [apply Z.div_pos; lia|]. apply Z.div_lt_upper_bound; [lia|].
        rewrite <- Z.pow_succ_r by lia. rewrite <- Nat2Z.inj_succ. lia. }
      destruct (IH (n / 10) (ascii_of_N (Z.to_N (48 + n mod 10)) :: acc) Hq)
        as (ds & Heq & Hne & Hds & Hval).
      exists (ds ++ [ascii_of_N (Z.to_N (48 + n mod 10))]).
      split; [by rewrite Heq, <- app_assoc|]. split; [by destruct ds|]. split.
      * rewrite forallb_app, Hds. simpl. by rewrite is_digit_digit by lia.
      * intros v. unfold value_from in *. rewrite fold_left_app, Hval. simpl.
        rewrite code_digit by lia. rewrite length_app, Nat2Z.inj_add. simpl.
        rewrite Z.pow_add_r by lia. change (10 ^ 1) with 10.
        pose proof (Z.div_mod n 10 ltac:(lia)). lia.
Qed.

Lemma remove_underscores_digits ds :
  forallb is_digit ds = true -> remove_underscores ds = ds.
Proof.
  induction ds as [|c ds IH]; [done|]. simpl. intros [Hc Hds]%andb_true_iff.
  unfold remove_underscores in *. simpl.
  destruct (Ascii.eqb_spec c "_") as [->|_]; [done|]. simpl. by rewrite IH.
Qed.

Lemma FormatUint_number n :
  is_u64 n ->
  is_number (FormatUint n) /\ number_value (FormatUint n) = n.
Proof.
  intros Hn. unfold FormatUint.
  destruct (format_digits_spec 19 n []) as (ds & Heq & Hne & Hds & Hval).
  { unfold is_u64, max_uint64 in Hn. change (10 ^ Z.of_nat 20) with 100000000000000000000.
    lia. }
  rewrite Heq, app_nil_r. split.
  - destruct ds as [|d r]; [done|]. simpl in Hds. apply andb_true_iff in Hds as [Hd Hr].
    exists d, r. split; [done|]. split; [done|].
    clear -Hr. induction r as [|c r IH]; [done|]. simpl in *.
    apply andb_true_iff in Hr as [Hc Hr]. unfold is_digit_or_underscore at 1.
    rewrite Hc. simpl. by apply IH.
  - unfold number_value. rewrite remove_underscores_digits by done.
    specialize (Hval 0). unfold value_from in Hval. unfold digits_value. lia.
Qed.

(** X20. An interval of [uint64] bounds with [First <= Last], printed
    as [ExecuteSegment] prints it ([First-Last], in decimal), is a string
    that [ParseBlockSegment] accepts, and parses back to that interval. *)
Theorem ParseBlockSegment_format_round_trip segment :
  is_u64 (First segment) -> is_u64 (Last segment) ->
  First segment <= Last segment ->
  ParseBlockSegment (format_segment segment) = (Some segment, None).
Proof.
  intros HF HL Hle.
  destruct (FormatUint_number _ HF) as [Hnf Hvf].
  destruct (FormatUint_number _ HL) as [Hnl Hvl].
  assert (segment_syntax (list_ascii_of_string (format_segment segment))
            (FormatUint (First segment)) (FormatUint (Last segment)) []) as Hsyn.
  { unfold format_segment. rewrite list_ascii_of_string_of_list_ascii.
    rewrite <- (app_nil_r (FormatUint (Last segment))) at 1.
    constructor; [done|done|done|by left]. }
  rewrite (ParseBlockSegment_syntax _ _ _ _ Hsyn).
  rewrite parse_groups_last by tauto. cbv zeta.
  assert (last_text (FormatUint (First segment)) (FormatUint (Last segment))
          = FormatUint (Last segment)) as ->.
  { destruct Hnl as (d & r & -> & _). done. }
  rewrite Hvf, Hvl. unfold is_u64 in *.
  destruct (Z.ltb_spec max_uint64 (First segment)); [lia|].
  destruct (Z.ltb_spec max_uint64 (Last segment)); [lia|].
  unfold scale. rewrite !decide_False by done.
  destruct (Z.gtb_spec (First segment) (Last segment)); [lia|].
  by destruct segment.
Qed.

Lemma ParseBlockSegment_format_round_trip_witness :
  ParseBlockSegment "1001-2000" = (Some (NewBlockSegment 1001 2000), None).
Proof.
  apply (ParseBlockSegment_format_round_trip (NewBlockSegment 1001 2000)).
  - vm_compute. split; discriminate.
  - vm_compute. split; discriminate.
  - vm_compute. discriminate.
Defined.
